(** * Retrieval engine of claude-self-reflect (archived TypeScript MCP server)

    A shallow embedding of [handleReflectOnPast] and [getVoyageCollections]
    from [archived/typescript-mcp/claude-self-reflection/src/index.ts],
    together with the properties of search, decay scoring, fan-out,
    aggregation and rendering that the specification states about them, and
    of the rest of the server's request handling: [initialize], the tool
    list, the tool dispatcher and [handleStoreReflection].

    Modelling conventions.
    - JavaScript numbers that carry scores are real numbers ([R]).  The
      decay formula is evaluated exactly by [adjustedScore]; the steps that
      consume the adjusted scores (threshold, sort, truncation, merge) are
      defined for any evaluation [adjust] of the formula, the exact one and
      the double-precision one alike.  NaN and infinities are outside the
      model.
    - [limit] is an integer ([Z]); [Math.ceil] is taken of the exact
      rational product.  Epoch times in milliseconds are integers.
    - Strings are [string]: a character [c] stands for the UTF-16 code
      unit of number [nat_of_ascii c] (not for a byte of an encoding), so
      the strings of the model are those made of code units below U+0100,
      the Latin-1 range.  [toLowerCase] and the white space class [\s] are
      the ECMAScript ones on that range ([latin1_examples]); code units from
      U+0100 on are outside the model.
    - A tool call may come without an arguments object ([None] stands for
      [undefined] and [null]), and the [tags] of [store_reflection] may be
      any JSON value; the fields of [reflect_on_past], when the object is
      present, have their declared types.
    - The vector store, the embedding service and the clock are an explicit
      environment ([World]); every call to them is recorded in a trace. *)

From Stdlib Require Import List Bool Arith ZArith Lia.
From Stdlib Require Import QArith Qround.
From Stdlib Require Import Ascii String.
From Stdlib Require Import Reals Lra.
From Stdlib Require Import Sorting.Sorted Sorting.Permutation.
Import ListNotations.

Close Scope Q_scope.
Local Open Scope string_scope.
Local Open Scope list_scope.

(** ** JavaScript string primitives used by the handler *)

Module JsString.

(** [\s] below U+0100: TAB, LF, VT, FF, CR, SPACE and NO-BREAK SPACE. *)
Definition isSpace (c : ascii) : bool :=
  let n := nat_of_ascii c in
  ((9 <=? n)%nat && (n <=? 13)%nat) || (n =? 32)%nat || (n =? 160)%nat.

(** The letters with a lower-case form below U+0100: [A]-[Z], and the
    Latin-1 capitals U+00C0-U+00DE without the multiplication sign U+00D7. *)
Definition isCapital (c : ascii) : bool :=
  let n := nat_of_ascii c in
  ((65 <=? n)%nat && (n <=? 90)%nat) ||
  ((192 <=? n)%nat && (n <=? 214)%nat) ||
  ((216 <=? n)%nat && (n <=? 222)%nat).

(** The lower-case form of a capital is 32 code points further. *)
Definition lowerChar (c : ascii) : ascii :=
  if isCapital c then ascii_of_nat (nat_of_ascii c + 32) else c.

(** [String.prototype.toLowerCase]. *)
Fixpoint toLowerCase (s : string) : string :=
  match s with
  | EmptyString => EmptyString
  | String c s' => String (lowerChar c) (toLowerCase s')
  end.

(** [s.split(/\s+/)]: [cur] is the piece being read, [gap] tells that the
    previous character belonged to a separator run. *)
Fixpoint split_from (s cur : string) (gap : bool) : list string :=
  match s with
  | EmptyString => [cur]
  | String c s' =>
      if isSpace c then
        if gap then split_from s' cur true
        else cur :: split_from s' EmptyString true
      else split_from s' (cur ++ String c EmptyString) false
  end.

Definition split_ws (s : string) : list string :=
  split_from s EmptyString false.

(** [text.includes(word)]. *)
Fixpoint includes (text word : string) : bool :=
  prefix word text ||
  match text with
  | EmptyString => false
  | String _ text' => includes text' word
  end.

(** [name.endsWith(suffix)]. *)
Definition endsWith (name suffix : string) : bool :=
  let n := String.length name in
  let k := String.length suffix in
  (k <=? n)%nat && String.eqb (substring (n - k) k name) suffix.

(** [s.replace(pat, rep)] with a string pattern: first occurrence only. *)
Definition replace (s pat rep : string) : string :=
  match index 0 pat s with
  | Some i =>
      (substring 0 i s ++ rep ++
       substring (i + String.length pat)
                 (String.length s - (i + String.length pat)) s)%string
  | None => s
  end.

(** [s.substring(0, n)]. *)
Definition substring0 (s : string) (n : nat) : string := substring 0 n s.

(** The string consists of white space only (the empty string included). *)
Fixpoint allSpace (s : string) : bool :=
  match s with
  | EmptyString => true
  | String c s' => isSpace c && allSpace s'
  end.

(** Declarative containment: [word] occurs somewhere inside [text]. *)
Definition occursIn (word text : string) : Prop :=
  exists pre post, text = (pre ++ word ++ post)%string.

End JsString.

(** ** JavaScript array and number primitives *)

Module JsArray.

(** [arr.slice(0, limit)] for an integer [limit]: a negative end counts
    from the back of the array. *)
Definition slice0 {A : Type} (l : list A) (limit : Z) : list A :=
  let len := Z.of_nat (List.length l) in
  let final := if (limit <? 0)%Z then Z.max (len + limit) 0
               else Z.min limit len in
  firstn (Z.to_nat final) l.

(** [Math.ceil]. *)
Definition Math_ceil (x : Q) : Z := Qceiling x.

(** [Math.ceil(limit * 3)]. *)
Definition ceil_times_3 (limit : Z) : Z := Math_ceil (inject_Z limit * 3)%Q.

(** [Math.ceil(limit * 1.5)]. *)
Definition ceil_times_1_5 (limit : Z) : Z :=
  Math_ceil (inject_Z limit * 1.5)%Q.

(** [x >= y] and [x < y] on numbers. *)
Definition Rgeb (x y : R) : bool := if Rle_dec y x then true else false.
Definition Rltb (x y : R) : bool := if Rlt_dec x y then true else false.

End JsArray.

(** ** Data model *)

(** The payload of a stored point.  Every access in the source is
  [point.payload?.field], so a missing payload and a payload with no
  fields are the same thing here: all fields absent. *)
Module Payload.
Record t := mk {
  text : option string;
  timestamp : option string;
  start_role : option string;
  role : option string;
  project : option string;
  project_name : option string;
  project_id : option string;
  conversation_id : option string
}.
Definition empty : t := mk None None None None None None None None.
End Payload.

(** An element of the store's answer to [search]. *)
Module ScoredPoint.
Record t := mk { id : string; score : R; payload : Payload.t }.
End ScoredPoint.

(** An element of the store's answer to [scroll]. *)
Module StoredPoint.
Record t := mk { id : string; payload : Payload.t }.
End StoredPoint.

(** [interface SearchResult], with the [collectionName] the handler adds. *)
Module SearchResult.
Record t := mk {
  id : string;
  score : R;
  timestamp : string;
  role : string;
  excerpt : string;
  projectName : string;
  conversationId : option string;
  collectionName : string
}.
End SearchResult.

(** The arguments of the [reflect_on_past] tool, before defaults. *)
Module Args.
Record t := mk {
  query : string;
  limit : option Z;
  project : option string;
  minScore : option R;
  crossProject : option bool;
  useDecay : option bool
}.
End Args.

Inductive IsolationMode := isolated | shared | hybrid.

(** The module-level constants read from the environment at start-up. *)
Record Config := mkConfig {
ISOLATION_MODE : IsolationMode;
ALLOW_CROSS_PROJECT : bool;
ENABLE_MEMORY_DECAY : bool;
DECAY_WEIGHT : R;
DECAY_SCALE_DAYS : R
}.

(** [ErrorCode] of the protocol SDK. *)
Inductive ErrorCode :=
| ParseError | InvalidRequest | MethodNotFound | InvalidParams | InternalError.

(** What a call can throw. *)
Inductive Exn :=
| Error (message : string)
| McpError (code : ErrorCode) (message : string).

Definition exn_message (e : Exn) : string :=
match e with Error m => m | McpError _ m => m end.

Inductive outcome (A : Type) :=
| Ok (a : A)
| Fail (e : Exn).
Arguments Ok {A} a.
Arguments Fail {A} e.

Record EmbeddingService := mkEmbeddingService {
getModelName : string;
generateEmbedding : string -> outcome (list R)
}.

(** The fields of [SelfReflectionServer] the handler reads or writes. *)
Record Server := mkServer {
embeddingService : option EmbeddingService;
currentProject : option string
}.

(** Calls that leave the process. *)
Inductive Event :=
| CreateEmbeddingService
| GenerateEmbedding (query : string)
| GetCollections
| Search (collectionName : string) (vector : list R) (limit : Z)
       (score_threshold : option R)
| Scroll (collectionName : string) (limit : Z).

(** The environment of one request: the answers of the embedding provider,
  of the vector store and of the clock.  One instant stands for all the
  clock readings of a request. *)
Record World := mkWorld {
createEmbeddingService : outcome EmbeddingService;
getCollections : outcome (list string);
search : string -> list R -> Z -> option R -> outcome (list ScoredPoint.t);
scroll : string -> Z -> outcome (list StoredPoint.t);
Date_now : Z;
Date_toISOString : string;
Date_getTime : string -> option Z
}.

(** The text blocks the handler can return. *)
Inductive ToolResponse :=
| NoVoyageCollections
| NoResults (collectionsFound : nat)
| Found (results : list SearchResult.t).

(** ** A monad for [async] code: server state, trace of calls, exceptions *)

Record Run (A : Type) := mkRun {
value : outcome A;
state : Server;
trace : list Event
}.
Arguments mkRun {A}.
Arguments value {A}.
Arguments state {A}.
Arguments trace {A}.

Definition M (A : Type) : Type := Server -> Run A.

Definition ret {A} (a : A) : M A := fun s => mkRun (Ok a) s [].

Definition throw {A} (e : Exn) : M A := fun s => mkRun (Fail e) s [].

Definition bind {A B} (m : M A) (f : A -> M B) : M B :=
fun s =>
  let r := m s in
  match value r with
  | Ok a =>
      let r' := f a (state r) in
      mkRun (value r') (state r') (trace r ++ trace r')
  | Fail e => mkRun (Fail e) (state r) (trace r)
  end.

(** [try { m } catch (e) { h e }]. *)
Definition try_catch {A} (m : M A) (h : Exn -> M A) : M A :=
fun s =>
  let r := m s in
  match value r with
  | Ok _ => r
  | Fail e =>
      let r' := h e (state r) in
      mkRun (value r') (state r') (trace r ++ trace r')
  end.

(** [await] of an external call: the event is recorded, the answer comes
  from the environment. *)
Definition call {A} (ev : Event) (answer : outcome A) : M A :=
fun s => mkRun answer s [ev].

Definition get_state : M Server := fun s => mkRun (Ok s) s [].

Definition set_embeddingService (es : EmbeddingService) : M unit :=
fun s => mkRun (Ok tt) (mkServer (Some es) (currentProject s)) [].

Declare Scope io_scope.
Delimit Scope io_scope with io.
Notation "x <- m ;; k" := (bind m (fun x => k))
(at level 61, m at next level, right associativity) : io_scope.
Notation "m ;;; k" := (bind m (fun _ => k))
(at level 61, right associativity) : io_scope.

(** [Promise.all(xs.map(f))]: the callbacks are started in array order. *)
Fixpoint mapM {A B} (f : A -> M B) (xs : list A) : M (list B) :=
match xs with
| [] => ret []
| x :: xs' => (y <- f x ;; ys <- mapM f xs' ;; ret (y :: ys))%io
end.

(** ** Sorting

    [arr.sort((a, b) => b.score - a.score)].  [Array.prototype.sort] is
    stable, and the output of a stable sort is fixed by the comparator
    ([sort_desc_unique] below), so inserting from the right, each element in
    front of the first element that does not beat it, yields the same
    array. *)

Section Sort.
Context {A : Type} (key : A -> R).

Fixpoint insert_desc (x : A) (l : list A) : list A :=
  match l with
  | [] => [x]
  | y :: l' =>
      if JsArray.Rltb (key x) (key y) then y :: insert_desc x l'
      else x :: l
  end.

Definition sort_desc (l : list A) : list A := fold_right insert_desc [] l.
End Sort.

(** ** The handler *)

(** [a || b] on possibly missing strings: the empty string is falsy. *)
Definition truthy (v : option string) : option string :=
match v with
| Some EmptyString => None
| _ => v
end.

Definition or_else (a : option string) (b : string) : string :=
match truthy a with
| Some s => s
| None => b
end.

Definition or_default {A} (v : option A) (d : A) : A :=
match v with
| Some a => a
| None => d
end.

Section Handler.
Variable cfg : Config.
Variable W : World.

Local Open Scope io_scope.

Definition getVoyageCollections : M (list string) :=
  try_catch
    (collections <- call GetCollections (getCollections W) ;;
     ret (filter (fun name => JsString.endsWith name "_voyage") collections))
    (fun _ => ret []).

Definition initialize : M unit :=
  try_catch
    (es <- call CreateEmbeddingService (createEmbeddingService W) ;;
     set_embeddingService es)
    (fun _ => ret tt).

(** *** Decay scoring (the callback of [searchResponse.map]) *)

Definition ageMs (point : ScoredPoint.t) : Z :=
  match truthy (Payload.timestamp (ScoredPoint.payload point)) with
  | Some ts =>
      match Date_getTime W ts with
      | Some timestamp => (Date_now W - timestamp)%Z
      | None => 0%Z
      end
  | None => 0%Z
  end.

Definition scaleMs : R := (DECAY_SCALE_DAYS cfg * 24 * 60 * 60 * 1000)%R.

Definition decayFactor (point : ScoredPoint.t) : R :=
  exp (- IZR (ageMs point) / scaleMs)%R.

Definition adjustedScore (point : ScoredPoint.t) : R :=
  (ScoredPoint.score point + DECAY_WEIGHT cfg * decayFactor point)%R.

(** [{ ...point, score: adjustedScore }].  What follows the evaluation of
    the formula compares and orders the adjusted scores and computes nothing
    more, so it is defined for any evaluation [adjust] of the formula: the
    exact one, [adjustedScore], and the double-precision one of the
    JavaScript engine are instances. *)
Definition withScore (adjust : ScoredPoint.t -> R) (point : ScoredPoint.t)
  : ScoredPoint.t :=
  ScoredPoint.mk (ScoredPoint.id point) (adjust point)
                 (ScoredPoint.payload point).

Definition withAdjustedScore (point : ScoredPoint.t) : ScoredPoint.t :=
  withScore adjustedScore point.

(** Decay, then [filter], [sort] and [slice] on one search response. *)
Definition decayFilterSortWith (adjust : ScoredPoint.t -> R) (minScore : R)
           (limit : Z) (searchResponse : list ScoredPoint.t)
  : list ScoredPoint.t :=
  JsArray.slice0
    (sort_desc ScoredPoint.score
       (filter (fun point => JsArray.Rgeb (ScoredPoint.score point) minScore)
               (map (withScore adjust) searchResponse)))
    limit.

Definition decayFilterSort (minScore : R) (limit : Z)
           (searchResponse : list ScoredPoint.t) : list ScoredPoint.t :=
  decayFilterSortWith adjustedScore minScore limit searchResponse.

(** *** Rendering of one point *)

Definition excerptOf (p : Payload.t) : string :=
  (JsString.substring0 (or_else (Payload.text p) "") 500 ++ "...")%string.

Definition projectNameOf (p : Payload.t) (collectionName : string) : string :=
  or_else (Payload.project p)
    (or_else (Payload.project_name p)
       (or_else (Payload.project_id p)
          (JsString.replace (JsString.replace collectionName "conv_" "")
                            "_voyage" ""))).

Definition roleOf (p : Payload.t) : string :=
  or_else (Payload.start_role p) (or_else (Payload.role p) "unknown").

Definition toSearchResult (collectionName : string) (id : string) (score : R)
           (p : Payload.t) : SearchResult.t :=
  SearchResult.mk id score
    (or_else (Payload.timestamp p) (Date_toISOString W))
    (roleOf p) (excerptOf p) (projectNameOf p collectionName)
    (Payload.conversation_id p) collectionName.

Definition renderScored (collectionName : string) (point : ScoredPoint.t)
  : SearchResult.t :=
  toSearchResult collectionName (ScoredPoint.id point)
                 (ScoredPoint.score point) (ScoredPoint.payload point).

Definition renderStored (collectionName : string) (point : StoredPoint.t)
  : SearchResult.t :=
  toSearchResult collectionName (StoredPoint.id point) 0.5%R
                 (StoredPoint.payload point).

(** *** One collection, vector search *)

Definition searchCollectionWith (adjust : ScoredPoint.t -> R)
           (shouldUseDecay : bool) (queryEmbedding : list R)
           (minScore : R) (limit : Z) (collectionName : string)
  : M (list SearchResult.t) :=
  try_catch
    (searchResponse <-
       (if shouldUseDecay then
          searchResponse <-
            call (Search collectionName queryEmbedding
                         (JsArray.ceil_times_3 limit) None)
                 (search W collectionName queryEmbedding
                         (JsArray.ceil_times_3 limit) None) ;;
          ret (decayFilterSortWith adjust minScore limit searchResponse)
        else
          call (Search collectionName queryEmbedding
                       (JsArray.ceil_times_1_5 limit) (Some minScore))
               (search W collectionName queryEmbedding
                       (JsArray.ceil_times_1_5 limit) (Some minScore))) ;;
     ret (map (renderScored collectionName) searchResponse))
    (fun _ => ret []).

(** *** One collection, text search *)

Definition matchesQuery (queryWords : list string) (point : StoredPoint.t)
  : bool :=
  let text :=
    JsString.toLowerCase
      (or_else (Payload.text (StoredPoint.payload point)) "") in
  existsb (fun word => JsString.includes text word) queryWords.

Definition scanCollection (query : string) (collectionName : string)
  : M (list SearchResult.t) :=
  try_catch
    (scrollResponse <-
       call (Scroll collectionName 100) (scroll W collectionName 100) ;;
     let queryWords := JsString.split_ws (JsString.toLowerCase query) in
     ret (map (renderStored collectionName)
              (filter (matchesQuery queryWords) scrollResponse)))
    (fun _ => ret []).

(** *** Merging the per-collection lists *)

Definition mergeSorted (allResults : list (list SearchResult.t)) (limit : Z)
  : list SearchResult.t :=
  JsArray.slice0 (sort_desc SearchResult.score (List.concat allResults)) limit.

Definition mergeFlat (allResults : list (list SearchResult.t)) (limit : Z)
  : list SearchResult.t :=
  JsArray.slice0 (List.concat allResults) limit.

(** *** [handleReflectOnPast] *)

Definition shouldUseDecay (args : Args.t) : bool :=
  match Args.useDecay args with
  | Some b => b
  | None => ENABLE_MEMORY_DECAY cfg
  end.

Definition limitOf (args : Args.t) : Z := or_default (Args.limit args) 5%Z.
Definition minScoreOf (args : Args.t) : R :=
  or_default (Args.minScore args) 0.7%R.

(** The body of the outer [try]: either an early return, or [results]. *)
Definition findResultsWith (adjust : ScoredPoint.t -> R) (args : Args.t)
  : M (ToolResponse + list SearchResult.t) :=
  this <- get_state ;;
  (match embeddingService this with
   | None => initialize
   | Some _ => ret tt
   end) ;;;
  this <- get_state ;;
  match embeddingService this with
  | Some es =>
      queryEmbedding <-
        call (GenerateEmbedding (Args.query args))
             (generateEmbedding es (Args.query args)) ;;
      voyageCollections <- getVoyageCollections ;;
      if (List.length voyageCollections =? 0)%nat then
        ret (inl NoVoyageCollections)
      else
        allResults <-
          mapM (searchCollectionWith adjust (shouldUseDecay args)
                                     queryEmbedding
                                     (minScoreOf args) (limitOf args))
               voyageCollections ;;
        ret (inr (mergeSorted allResults (limitOf args)))
  | None =>
      voyageCollections <- getVoyageCollections ;;
      allResults <- mapM (scanCollection (Args.query args))
                         voyageCollections ;;
      ret (inr (mergeFlat allResults (limitOf args)))
  end.

(** The handler on an arguments object.  The destructuring of line 194
    fills in the defaults ([limitOf], [minScoreOf], [shouldUseDecay]). *)
Definition handleReflectOnPastWith (adjust : ScoredPoint.t -> R)
           (args : Args.t) : M ToolResponse :=
  try_catch
    (found <- findResultsWith adjust args ;;
     match found with
     | inl response => ret response
     | inr results =>
         if (List.length results =? 0)%nat then
           voyageCollections <- getVoyageCollections ;;
           ret (NoResults (List.length voyageCollections))
         else ret (Found results)
     end)
    (fun error =>
       throw (McpError InternalError
                ("Failed to search conversations: " ++ exn_message error))).

Definition handleReflectOnPast (args : Args.t) : M ToolResponse :=
  handleReflectOnPastWith adjustedScore args.

(** The handler as the dispatcher calls it.  [request.params.arguments] is
    optional; the destructuring of line 194 stands before the [try] of line
    214, so on a missing arguments object it throws a [TypeError] that no
    [catch] of the handler sees (the message is the engine's). *)
Definition handleReflectOnPastAny (args : option Args.t) : M ToolResponse :=
  match args with
  | Some args => handleReflectOnPast args
  | None =>
      throw (Error
        "Cannot destructure property 'query' of 'args' as it is undefined.")
  end.

End Handler.

(** ** The second tool, the tool list and the dispatcher *)

(** The [tags] property of the arguments of [store_reflection] as it may
    arrive: absent, [null], an array (of strings; [None] is a [null]
    element), or a value of another type. *)
Inductive TagsValue :=
| TagsUndefined
| TagsNull
| TagsArray (items : list (option string))
| TagsOther.

(** The arguments of the [store_reflection] tool, before defaults. *)
Module StoreArgs.
Record t := mk {
  content : string;
  tags : TagsValue
}.
End StoreArgs.

(** [request.params.arguments], when present, is one untyped object from
    which each handler takes its own fields: the two records are the two
    readings of it. *)
Record ToolArguments := mkToolArguments {
  reflectArguments : Args.t;
  storeArguments : StoreArgs.t
}.

(** What a tool call returns: the text block of one of the two handlers. *)
Inductive ToolOutput :=
| ReflectOutput (response : ToolResponse)
| StoreOutput (text : string).

(** The part of a JSON schema the tool list uses. *)
Inductive JsonType := TString | TNumber | TBoolean | TArrayOf (items : JsonType).

Inductive JsonDefault := DNumber (x : R) | DBoolean (b : bool).

Record PropertySchema := mkProperty {
  prop_name : string;
  prop_type : JsonType;
  prop_description : string;
  prop_default : option JsonDefault
}.

Record Tool := mkTool {
  tool_name : string;
  tool_description : string;
  tool_properties : list PropertySchema;
  tool_required : list string
}.

(** The answer of the [ListToolsRequestSchema] handler. *)
Definition listTools : list Tool :=
  [ mkTool "reflect_on_past"
      "Search for relevant past conversations using semantic search"
      [ mkProperty "query" TString
          "The search query to find semantically similar conversations" None;
        mkProperty "limit" TNumber
          "Maximum number of results to return (default: 5)"
          (Some (DNumber 5%R));
        mkProperty "project" TString "Filter by project name (optional)" None;
        mkProperty "crossProject" TBoolean
          "Search across all projects (default: false, requires permission)"
          (Some (DBoolean false));
        mkProperty "minScore" TNumber
          "Minimum similarity score (0-1, default: 0.7)"
          (Some (DNumber 0.7%R));
        mkProperty "useDecay" TBoolean
          "Apply time-based decay to prioritize recent memories (default: uses environment setting)"
          None ]
      ["query"];
    mkTool "store_reflection"
      "Store an important insight or reflection for future reference"
      [ mkProperty "content" TString "The insight or reflection to store" None;
        mkProperty "tags" (TArrayOf TString)
          "Tags to categorize this reflection" None ]
      ["content"] ].

Section Dispatcher.
Variable cfg : Config.
Variable W : World.

Local Open Scope io_scope.

(** [tags.join(sep)]: defined on arrays, where [null] elements count as
    empty strings; on any other value the call throws a [TypeError] (the
    messages are the engine's). *)
Definition join (tags : TagsValue) (sep : string) : M string :=
  match tags with
  | TagsArray items =>
      ret (String.concat sep (map (fun item => or_default item "") items))
  | TagsNull => throw (Error "Cannot read properties of null (reading 'join')")
  | TagsUndefined =>
      throw (Error "Cannot read properties of undefined (reading 'join')")
  | TagsOther => throw (Error "tags.join is not a function")
  end.

(** [handleStoreReflection]: a placeholder that stores nothing.  The
    destructuring of line 474 stands before the [try]; its default [[]]
    replaces an absent [tags] only. *)
Definition handleStoreReflection (args : option StoreArgs.t) : M string :=
  match args with
  | None =>
      throw (Error
        "Cannot destructure property 'content' of 'args' as it is undefined.")
  | Some args =>
      let tags :=
        match StoreArgs.tags args with
        | TagsUndefined => TagsArray []
        | tags => tags
        end in
      try_catch
        (joined <- join tags ", " ;;
         ret ("Reflection stored successfully with tags: "
                ++ or_else (Some joined) "none")%string)
        (fun error =>
           throw (McpError InternalError
                    ("Failed to store reflection: " ++ exn_message error)))
  end.

(** The [CallToolRequestSchema] handler. *)
Definition callTool (name : string) (arguments : option ToolArguments)
  : M ToolOutput :=
  if String.eqb name "reflect_on_past" then
    response <-
      handleReflectOnPastAny cfg W (option_map reflectArguments arguments) ;;
    ret (ReflectOutput response)
  else if String.eqb name "store_reflection" then
    text <- handleStoreReflection (option_map storeArguments arguments) ;;
    ret (StoreOutput text)
  else
    throw (McpError MethodNotFound ("Unknown tool: " ++ name)).

End Dispatcher.

(** ** Vocabulary of the statements

    Closed forms of what the monadic code computes, and the notions the
    specification uses to talk about it. *)

Section Vocabulary.
Variable cfg : Config.
Variable W : World.

(** The names [getVoyageCollections] resolves to. *)
Definition voyageNames : list string :=
  match getCollections W with
  | Ok collections =>
      filter (fun name => JsString.endsWith name "_voyage") collections
  | Fail _ => []
  end.

(** The server after the optional [initialize]. *)
Definition serviceAfterInit (s : Server) : option EmbeddingService :=
  match embeddingService s with
  | Some es => Some es
  | None =>
      match createEmbeddingService W with
      | Ok es => Some es
      | Fail _ => None
      end
  end.

Definition serverAfterInit (s : Server) : Server :=
  match embeddingService s with
  | Some _ => s
  | None => mkServer (serviceAfterInit s) (currentProject s)
  end.

Definition initTrace (s : Server) : list Event :=
  match embeddingService s with
  | Some _ => []
  | None => [CreateEmbeddingService]
  end.

(** The store request one collection receives in vector search. *)
Definition searchLimit (decay : bool) (limit : Z) : Z :=
  if decay then JsArray.ceil_times_3 limit else JsArray.ceil_times_1_5 limit.

Definition searchThreshold (decay : bool) (minScore : R) : option R :=
  if decay then None else Some minScore.

Definition searchAnswer (decay : bool) (q : list R) (minScore : R)
           (limit : Z) (c : string) : outcome (list ScoredPoint.t) :=
  search W c q (searchLimit decay limit) (searchThreshold decay minScore).

(** What one collection contributes in vector search. *)
Definition collectionResultsWith (adjust : ScoredPoint.t -> R) (decay : bool)
           (q : list R) (minScore : R) (limit : Z) (c : string)
  : list SearchResult.t :=
  match searchAnswer decay q minScore limit c with
  | Ok searchResponse =>
      map (renderScored W c)
          (if decay then decayFilterSortWith adjust minScore limit searchResponse
           else searchResponse)
  | Fail _ => []
  end.

Definition collectionResults (decay : bool) (q : list R) (minScore : R)
           (limit : Z) (c : string) : list SearchResult.t :=
  collectionResultsWith (adjustedScore cfg W) decay q minScore limit c.

(** What one collection contributes in text search. *)
Definition scanResults (query : string) (c : string) : list SearchResult.t :=
  match scroll W c 100 with
  | Ok points =>
      map (renderStored W c)
          (filter (matchesQuery
                     (JsString.split_ws (JsString.toLowerCase query)))
                  points)
  | Fail _ => []
  end.

(** [results] of the handler, when it gets that far. *)
Definition vectorResultsWith (adjust : ScoredPoint.t -> R) (args : Args.t)
           (q : list R) : list SearchResult.t :=
  mergeSorted
    (map (collectionResultsWith adjust (shouldUseDecay cfg args) q
                                (minScoreOf args) (limitOf args)) voyageNames)
    (limitOf args).

Definition vectorResults (args : Args.t) (q : list R) : list SearchResult.t :=
  vectorResultsWith (adjustedScore cfg W) args q.

Definition textResults (args : Args.t) : list SearchResult.t :=
  mergeFlat (map (scanResults (Args.query args)) voyageNames) (limitOf args).

Definition vectorTrace (args : Args.t) (q : list R) : list Event :=
  map (fun c => Search c q (searchLimit (shouldUseDecay cfg args) (limitOf args))
                       (searchThreshold (shouldUseDecay cfg args)
                                        (minScoreOf args)))
      voyageNames.

Definition textTrace : list Event :=
  map (fun c => Scroll c 100) voyageNames.

(** The tail of the handler, once [results] is known. *)
Definition respond (results : list SearchResult.t) : ToolResponse :=
  if (List.length results =? 0)%nat then NoResults (List.length voyageNames)
  else Found results.

Definition respondTrace (results : list SearchResult.t) : list Event :=
  if (List.length results =? 0)%nat then [GetCollections] else [].
End Vocabulary.

(** [a] may stand in front of [b] in an array sorted by descending [key]. *)
Definition desc {A : Type} (key : A -> R) (a b : A) : Prop := (key b <= key a)%R.

(** The candidates of a search response that pass the threshold after
    decay, in response order. *)
Definition qualifyingWith (adjust : ScoredPoint.t -> R) (minScore : R)
           (searchResponse : list ScoredPoint.t) : list ScoredPoint.t :=
  filter (fun point => JsArray.Rgeb (ScoredPoint.score point) minScore)
         (map (withScore adjust) searchResponse).

Definition qualifying (cfg : Config) (W : World) (minScore : R)
           (searchResponse : list ScoredPoint.t) : list ScoredPoint.t :=
  qualifyingWith (adjustedScore cfg W) minScore searchResponse.

Definition isOk {A} (o : outcome A) : bool :=
  match o with Ok _ => true | Fail _ => false end.

(** [a] has key [v]. *)
Definition hasKey {A : Type} (key : A -> R) (v : R) (a : A) : bool :=
  if Req_dec_T (key a) v then true else false.

(** [r] has score [v]. *)
Definition hasScore (v : R) (r : SearchResult.t) : bool :=
  hasKey SearchResult.score v r.

(** The stored text the text search looks at, lower-cased. *)
Definition searchedText (point : StoredPoint.t) : string :=
  JsString.toLowerCase (or_else (Payload.text (StoredPoint.payload point)) "").

(** Spec-level reading of "the text contains the token, ignoring case":
    some substring of the text equals the token up to letter case. *)
Definition containsIgnoringCase (text token : string) : Prop :=
  exists pre mid post,
    text = (pre ++ mid ++ post)%string /\
    JsString.toLowerCase mid = JsString.toLowerCase token.

(** The stored text of a payload as the renderer reads it. *)
Definition storedText (p : Payload.t) : string := or_else (Payload.text p) "".

(** The request is refused as invalid before any call leaves the process. *)
Definition rejectedBeforeIO {A} (r : Run A) : Prop :=
  (exists message, value r = Fail (McpError InvalidRequest message)) /\
  trace r = [].

(** What one collection holds for a decay-mode request: the rendered
    candidates of its search response that pass the threshold after decay,
    nothing when its search fails. *)
Definition qualifyingResultsWith (W : World) (adjust : ScoredPoint.t -> R)
           (q : list R) (minScore : R) (limit : Z) (c : string)
  : list SearchResult.t :=
  match search W c q (JsArray.ceil_times_3 limit) None with
  | Ok searchResponse =>
      map (renderScored W c) (qualifyingWith adjust minScore searchResponse)
  | Fail _ => []
  end.

(** What one collection holds for a plain-mode request: its search response,
    rendered. *)
Definition plainResults (W : World) (q : list R) (minScore : R) (limit : Z)
           (c : string) : list SearchResult.t :=
  match search W c q (JsArray.ceil_times_1_5 limit) (Some minScore) with
  | Ok searchResponse => map (renderScored W c) searchResponse
  | Fail _ => []
  end.

(** The collection an event addresses, if any. *)
Definition eventCollection (ev : Event) : option string :=
  match ev with
  | Search c _ _ _ => Some c
  | Scroll c _ => Some c
  | _ => None
  end.

(** The event is a request to the vector store. *)
Definition isStoreEvent (ev : Event) : bool :=
  match ev with
  | GetCollections | Search _ _ _ _ | Scroll _ _ => true
  | _ => false
  end.

(** The string has no white space character. *)
Fixpoint noSpace (s : string) : bool :=
  match s with
  | EmptyString => true
  | String c s' => negb (JsString.isSpace c) && noSpace s'
  end.

(** The string begins with a white space character. *)
Definition beginsWithSpace (s : string) : bool :=
  match s with
  | EmptyString => false
  | String c _ => JsString.isSpace c
  end.

(** The string without its leading white space, and that white space. *)
Fixpoint skipSpaces (s : string) : string :=
  match s with
  | EmptyString => EmptyString
  | String c s' => if JsString.isSpace c then skipSpaces s' else s
  end.

Fixpoint leadingSpaces (s : string) : string :=
  match s with
  | EmptyString => EmptyString
  | String c s' =>
      if JsString.isSpace c then String c (leadingSpaces s') else EmptyString
  end.

(** Spec-level reading of "white space": the code points below U+0100 that
    ECMAScript counts as [WhiteSpace] or [LineTerminator]. *)
Definition whiteSpaceCode (n : nat) : Prop :=
  n = 9%nat \/ n = 10%nat \/ n = 11%nat \/ n = 12%nat \/ n = 13%nat \/
  n = 32%nat \/ n = 160%nat.

(** Spec-level reading of "the whitespace-delimited tokens of a query":
    the query is [token sep token sep ... token], where no token contains
    white space and every separator is a maximal, non-empty run of white
    space.  The first and the last token may be empty (the query begins or
    ends with white space); the others cannot. *)
Inductive splitsInto : string -> list string -> Prop :=
| splits_last (token : string) :
    noSpace token = true -> splitsInto token [token]
| splits_more (token sep rest : string) (tokens : list string) :
    noSpace token = true ->
    sep <> EmptyString -> JsString.allSpace sep = true ->
    beginsWithSpace rest = false ->
    splitsInto rest tokens ->
    splitsInto (token ++ sep ++ rest)%string (token :: tokens).

(** Spec-level reading of "ignoring case": the code points of the capital
    letters below U+0100, and two characters that are the same letter. *)
Definition capitalCode (n : nat) : Prop :=
  (65 <= n <= 90)%nat \/ (192 <= n <= 214)%nat \/ (216 <= n <= 222)%nat.

Definition sameLetter (a b : ascii) : Prop :=
  a = b \/
  (capitalCode (nat_of_ascii a) /\ nat_of_ascii b = (nat_of_ascii a + 32)%nat) \/
  (capitalCode (nat_of_ascii b) /\ nat_of_ascii a = (nat_of_ascii b + 32)%nat).

Inductive equalIgnoringCase : string -> string -> Prop :=
| equal_empty : equalIgnoringCase EmptyString EmptyString
| equal_letter (a b : ascii) (s t : string) :
    sameLetter a b -> equalIgnoringCase s t ->
    equalIgnoringCase (String a s) (String b t).

(** Some substring of [text] equals [token] up to letter case. *)
Definition occursIgnoringCase (token text : string) : Prop :=
  exists pre mid post,
    text = (pre ++ mid ++ post)%string /\ equalIgnoringCase mid token.

(** The string has no underscore. *)
Fixpoint noUnderscore (s : string) : bool :=
  match s with
  | EmptyString => true
  | String c s' => negb (Ascii.eqb c "_"%char) && noUnderscore s'
  end.

(** ** Scenarios used to exercise the statements *)

Module Scenario.

Definition textPayload (t : string) (ts : option string) : Payload.t :=
  Payload.mk (Some t) ts None None None None None None.

(** No embedding provider; two project collections and one collection that
    is not a Voyage collection; each scroll returns one stored point. *)
Definition degradedWorld : World :=
  mkWorld (Fail (Error "no provider"))
          (Ok ["conv_projA_voyage"; "conv_projB_voyage"; "conversations"])
          (fun _ _ _ _ => Ok [])
          (fun _ _ =>
             Ok [StoredPoint.mk "1"
                   (textPayload "discussed database indexing strategy" None)])
          1700000000000%Z "2023-11-14T22:13:20.000Z" (fun _ => None).

(** As [degradedWorld], but the scroll of project B's collection fails. *)
Definition flakyWorld : World :=
  mkWorld (Fail (Error "no provider"))
          (Ok ["conv_projA_voyage"; "conv_projB_voyage"; "conversations"])
          (fun _ _ _ _ => Ok [])
          (fun c _ =>
             if String.eqb c "conv_projB_voyage" then Fail (Error "timeout")
             else Ok [StoredPoint.mk "1"
                        (textPayload "discussed database indexing strategy"
                                     None)])
          1700000000000%Z "2023-11-14T22:13:20.000Z" (fun _ => None).

(** A clock and a date parser that knows one time stamp, 90 days old. *)
Definition ninetyDaysAgo : string := "2023-08-16T22:13:20.000Z".

Definition datedWorld : World :=
  mkWorld (Fail (Error "no provider"))
          (Ok ["conv_projA_voyage"])
          (fun _ _ _ _ => Ok [])
          (fun _ _ => Ok [])
          1700000000000%Z "2023-11-14T22:13:20.000Z"
          (fun ts => if String.eqb ts ninetyDaysAgo
                     then Some 1692224000000%Z else None).

(** An embedding provider is installed; the store answers every search
    with two candidates of raw score 0.6, one 90 days old and one whose
    time stamp does not parse. *)
Definition oldPoint : ScoredPoint.t :=
  ScoredPoint.mk "7" 0.6%R (textPayload "old" (Some ninetyDaysAgo)).

Definition undatedPoint : ScoredPoint.t :=
  ScoredPoint.mk "8" 0.6%R (textPayload "undated" (Some "yesterday")).

Definition decayWorld : World :=
  mkWorld (Ok (mkEmbeddingService "voyage-3" (fun _ => Ok [])))
          (Ok ["conv_projA_voyage"])
          (fun _ _ _ _ => Ok [oldPoint; undatedPoint])
          (fun _ _ => Ok [])
          1700000000000%Z "2023-11-14T22:13:20.000Z"
          (fun ts => if String.eqb ts ninetyDaysAgo
                     then Some 1692224000000%Z else None).

Definition hybridConfig : Config := mkConfig hybrid false false 0.3%R 90%R.
Definition decayConfig : Config := mkConfig hybrid false true 0.3%R 90%R.

Definition freshServer : Server := mkServer None (Some "projA").

Definition indexingQuery : Args.t :=
  Args.mk "indexing" None None None (Some false) None.

Definition zeroLimitQuery : Args.t :=
  Args.mk "indexing" (Some 0%Z) None None None None.

Definition blankQuery : Args.t :=
  Args.mk "  " (Some 3%Z) None None None None.

Definition decayQuery : Args.t :=
  Args.mk "indexing" (Some 3%Z) None (Some 0.75%R) None (Some true).

End Scenario.

(** ** Further scenarios *)

Module Cases.

(** The store cannot be reached; an embedding service can be created. *)
Definition unreachableStore : World :=
  mkWorld (Ok (mkEmbeddingService "voyage-3" (fun _ => Ok [])))
          (Fail (Error "ECONNREFUSED"))
          (fun _ _ _ _ => Fail (Error "ECONNREFUSED"))
          (fun _ _ => Fail (Error "ECONNREFUSED"))
          1700000000000%Z "2023-11-14T22:13:20.000Z" (fun _ => None).

(** The embedding service is created but cannot embed a query. *)
Definition brokenEmbedding : World :=
  mkWorld (Ok (mkEmbeddingService "voyage-3"
                 (fun _ => Fail (Error "rate limited"))))
          (Ok ["conv_projA_voyage"])
          (fun _ _ _ _ => Ok [Scenario.oldPoint])
          (fun _ _ => Ok [])
          1700000000000%Z "2023-11-14T22:13:20.000Z" (fun _ => None).

(** Three stored points, the second without the word of the query. *)
Definition threePoints : list StoredPoint.t :=
  [ StoredPoint.mk "1" (Scenario.textPayload "Indexing the table" None);
    StoredPoint.mk "2" (Scenario.textPayload "nothing relevant" None);
    StoredPoint.mk "3" (Scenario.textPayload "an INDEXING job" None) ].

Definition threePointWorld : World :=
  mkWorld (Fail (Error "no provider"))
          (Ok ["conv_projA_voyage"])
          (fun _ _ _ _ => Ok [])
          (fun _ _ => Ok threePoints)
          1700000000000%Z "2023-11-14T22:13:20.000Z" (fun _ => None).

Definition oneResultQuery : Args.t :=
  Args.mk "indexing" (Some 1%Z) None None None None.

Definition negativeLimitQuery : Args.t :=
  Args.mk "indexing" (Some (-1)%Z) None None None None.

(** A point 30 days old and a point 60 days old, with the same raw score. *)
Definition thirtyDaysAgo : string := "2023-10-15T22:13:20.000Z".
Definition sixtyDaysAgo : string := "2023-09-15T22:13:20.000Z".

Definition calendarWorld : World :=
  mkWorld (Fail (Error "no provider"))
          (Ok ["conv_projA_voyage"])
          (fun _ _ _ _ => Ok [])
          (fun _ _ => Ok [])
          1700000000000%Z "2023-11-14T22:13:20.000Z"
          (fun ts => if String.eqb ts thirtyDaysAgo then Some 1697408000000%Z
                     else if String.eqb ts sixtyDaysAgo then Some 1694816000000%Z
                     else if String.eqb ts "2023-11-15T22:13:20.000Z"
                          then Some 1700086400000%Z
                     else None).

Definition newerPoint : ScoredPoint.t :=
  ScoredPoint.mk "30" 0.6%R (Scenario.textPayload "newer" (Some thirtyDaysAgo)).

Definition olderPoint : ScoredPoint.t :=
  ScoredPoint.mk "60" 0.6%R (Scenario.textPayload "older" (Some sixtyDaysAgo)).

Definition strongPoint : ScoredPoint.t :=
  ScoredPoint.mk "61" 0.95%R (Scenario.textPayload "strong" (Some sixtyDaysAgo)).

(** Two collections with undated candidates: three in project A's, two in
    project B's. *)
Definition candidate (id : string) (score : R) : ScoredPoint.t :=
  ScoredPoint.mk id score (Scenario.textPayload id None).

Definition twoStoreWorld : World :=
  mkWorld (Ok (mkEmbeddingService "voyage-3" (fun _ => Ok [])))
          (Ok ["conv_projA_voyage"; "conv_projB_voyage"])
          (fun c _ _ _ =>
             if String.eqb c "conv_projA_voyage"
             then Ok [candidate "a1" 0.5%R; candidate "a2" 0.7%R;
                      candidate "a3" 0.45%R]
             else Ok [candidate "b1" 0.6%R; candidate "b2" 0.4%R])
          (fun _ _ => Ok [])
          1700000000000%Z "2023-11-14T22:13:20.000Z" (fun _ => None).

Definition bestTwoQuery : Args.t :=
  Args.mk "indexing" (Some 2%Z) None (Some 0.75%R) None (Some true).

(** A point stamped one day after the clock reading. *)
Definition futurePoint : ScoredPoint.t :=
  ScoredPoint.mk "99" 0.6%R
    (Scenario.textPayload "future" (Some "2023-11-15T22:13:20.000Z")).

End Cases.

(** * Properties *)

(** ** The primitives on concrete inputs *)

Example split_examples :
  JsString.split_ws "a  b" = ["a"; "b"] /\
  JsString.split_ws " a" = [""; "a"] /\
  JsString.split_ws "a " = ["a"; ""] /\
  JsString.split_ws "" = [""] /\
  JsString.split_ws "  " = [""; ""].
Proof. repeat split; reflexivity. Qed.

Example string_examples :
  JsString.endsWith "conv_projA_voyage" "_voyage" = true /\
  JsString.endsWith "conversations" "_voyage" = false /\
  JsString.replace (JsString.replace "conv_projA_voyage" "conv_" "") "_voyage" "" = "projA" /\
  JsString.includes "discussed database indexing strategy" "indexing" = true /\
  JsString.includes "abc" "" = true /\
  JsString.toLowerCase "Hello World" = "hello world".
Proof. repeat split; reflexivity. Qed.

(** Code units of the Latin-1 range: NO-BREAK SPACE is white space, the
    capital E with acute has a lower-case form, the multiplication sign has
    none. *)
Example latin1_examples :
  JsString.isSpace (ascii_of_nat 160) = true /\
  JsString.split_ws (String "a" (String (ascii_of_nat 160) "b")) = ["a"; "b"] /\
  JsString.lowerChar (ascii_of_nat 201) = ascii_of_nat 233 /\
  JsString.lowerChar (ascii_of_nat 215) = ascii_of_nat 215.
Proof. repeat split; reflexivity. Qed.

Example number_examples :
  JsArray.ceil_times_1_5 5 = 8%Z /\ JsArray.ceil_times_1_5 2 = 3%Z /\
  JsArray.ceil_times_1_5 (-1) = (-1)%Z /\ JsArray.ceil_times_3 5 = 15%Z /\
  JsArray.slice0 [1;2;3;4] 2 = [1;2] /\ JsArray.slice0 [1;2;3;4] (-1) = [1;2;3] /\
  JsArray.slice0 [1;2;3;4] 9 = [1;2;3;4] /\ JsArray.slice0 [1;2;3;4] 0 = [].
Proof. repeat split; reflexivity. Qed.

(** ** Comparisons on numbers *)

Lemma Rgeb_true (x y : R) : JsArray.Rgeb x y = true <-> (y <= x)%R.
Proof.
  unfold JsArray.Rgeb. destruct (Rle_dec y x); split; intros; try easy.
Qed.

Lemma Rgeb_false (x y : R) : JsArray.Rgeb x y = false <-> (x < y)%R.
Proof.
  unfold JsArray.Rgeb. destruct (Rle_dec y x); split; intros; try easy; lra.
Qed.

Lemma Rltb_true (x y : R) : JsArray.Rltb x y = true <-> (x < y)%R.
Proof.
  unfold JsArray.Rltb. destruct (Rlt_dec x y); split; intros; try easy.
Qed.

Lemma Rltb_false (x y : R) : JsArray.Rltb x y = false <-> (y <= x)%R.
Proof.
  unfold JsArray.Rltb. destruct (Rlt_dec x y); split; intros; try easy; lra.
Qed.

(** ** The two candidate counts *)

(** On an integer [limit] the product [limit * 3] is an integer, which
    [Math.ceil] leaves as it is. *)
Lemma ceil_times_3_exact (limit : Z) :
  JsArray.ceil_times_3 limit = (3 * limit)%Z.
Proof.
  unfold JsArray.ceil_times_3, JsArray.Math_ceil.
  rewrite <- (Qceiling_Z (3 * limit)). apply Qceiling_comp.
  unfold Qeq, Qmult, inject_Z. cbn [Qnum Qden]. lia.
Qed.

(** [Math.ceil(limit * 1.5)] is the least integer [n] with
    [limit * 1.5 <= n], that is with [3 * limit <= 2 * n]. *)
Lemma ceil_times_1_5_least (limit : Z) :
  let n := JsArray.ceil_times_1_5 limit in
  (2 * (n - 1) < 3 * limit <= 2 * n)%Z.
Proof.
  intros n. subst n. unfold JsArray.ceil_times_1_5, JsArray.Math_ceil.
  pose proof (Qle_ceiling (inject_Z limit * 1.5)) as Hle.
  pose proof (Qceiling_lt (inject_Z limit * 1.5)) as Hlt.
  set (n := Qceiling (inject_Z limit * 1.5)) in *.
  unfold Qle, Qlt, Qmult, inject_Z in *. cbn [Qnum Qden] in Hle, Hlt. lia.
Qed.

Lemma ceil_times_1_5_bounds (limit : Z) :
  (0 <= limit)%Z ->
  (limit <= JsArray.ceil_times_1_5 limit <= JsArray.ceil_times_3 limit)%Z.
Proof.
  intros Hl. rewrite ceil_times_3_exact.
  pose proof (ceil_times_1_5_least limit) as H. cbv zeta in H. lia.
Qed.

(** The sort on a concrete array: descending, equal scores in input order. *)
Example sort_desc_example :
  sort_desc snd [("a", 1); ("b", 3); ("c", 2); ("d", 3)]%R
  = [("b", 3); ("d", 3); ("c", 2); ("a", 1)]%R.
Proof.
  unfold sort_desc.
  repeat (cbn [fold_right insert_desc snd];
          match goal with
          | |- context [JsArray.Rltb ?x ?y] =>
              first [ rewrite (proj2 (Rltb_true x y)) by lra
                    | rewrite (proj2 (Rltb_false x y)) by lra ]
          end).
  reflexivity.
Qed.

(** ** [slice(0, limit)] *)

Section SliceFacts.
Context {A : Type}.
Implicit Types (l : list A) (limit : Z).

Lemma slice0_nonneg l limit :
  (0 <= limit)%Z -> JsArray.slice0 l limit = firstn (Z.to_nat limit) l.
Proof.
  intros Hl. unfold JsArray.slice0.
  destruct (Z.ltb_spec limit 0) as [Hneg | _]; [lia |].
  destruct (Z.le_gt_cases limit (Z.of_nat (List.length l))) as [Hle | Hgt].
  - now rewrite Z.min_l by lia.
  - rewrite Z.min_r by lia. rewrite Nat2Z.id.
    rewrite firstn_all. symmetry. apply firstn_all2. lia.
Qed.

Lemma slice0_prefix l limit :
  exists rest, l = JsArray.slice0 l limit ++ rest.
Proof.
  unfold JsArray.slice0.
  eexists. symmetry. apply firstn_skipn.
Qed.

Lemma slice0_incl l limit x : In x (JsArray.slice0 l limit) -> In x l.
Proof.
  destruct (slice0_prefix l limit) as [rest Hrest].
  intros Hin. rewrite Hrest. apply in_or_app. now left.
Qed.

Lemma slice0_length l limit :
  (0 <= limit)%Z ->
  List.length (JsArray.slice0 l limit) = Nat.min (Z.to_nat limit) (List.length l).
Proof.
  intros Hl. rewrite slice0_nonneg by assumption. apply length_firstn.
Qed.

Lemma slice0_all l limit :
  (Z.of_nat (List.length l) <= limit)%Z -> JsArray.slice0 l limit = l.
Proof.
  intros Hl. rewrite slice0_nonneg by lia. apply firstn_all2. lia.
Qed.
End SliceFacts.

(** ** The sort: permutation, order, stability *)

Section SortFacts.
Context {A : Type} (key : A -> R).

Lemma insert_desc_perm x l : Permutation (x :: l) (insert_desc key x l).
Proof.
  induction l as [| y l IH]; simpl.
  - apply Permutation_refl.
  - destruct (JsArray.Rltb (key x) (key y)).
    + eapply perm_trans; [apply perm_swap |]. now apply perm_skip.
    + apply Permutation_refl.
Qed.

Lemma sort_desc_perm l : Permutation l (sort_desc key l).
Proof.
  induction l as [| x l IH]; simpl.
  - constructor.
  - eapply perm_trans; [apply perm_skip, IH | apply insert_desc_perm].
Qed.

Lemma sort_desc_in l x : In x (sort_desc key l) <-> In x l.
Proof.
  split; intros H.
  - eapply Permutation_in; [apply Permutation_sym, sort_desc_perm | exact H].
  - eapply Permutation_in; [apply sort_desc_perm | exact H].
Qed.

Lemma sort_desc_length l : List.length (sort_desc key l) = List.length l.
Proof. symmetry. apply Permutation_length, sort_desc_perm. Qed.

Lemma insert_desc_sorted x l :
  StronglySorted (desc key) l -> StronglySorted (desc key) (insert_desc key x l).
Proof.
  induction 1 as [| y l Hs IH Hall]; simpl.
  - constructor; constructor.
  - destruct (JsArray.Rltb (key x) (key y)) eqn:E.
    + apply Rltb_true in E. constructor; [exact IH |].
      rewrite Forall_forall in *. intros z Hz.
      eapply Permutation_in in Hz; [| apply Permutation_sym, insert_desc_perm].
      destruct Hz as [<- | Hz]; [unfold desc; lra | now apply Hall].
    + apply Rltb_false in E. constructor; [now constructor |].
      constructor; [exact E |].
      rewrite Forall_forall in *. intros z Hz.
      specialize (Hall z Hz). unfold desc in *. lra.
Qed.

Lemma sort_desc_sorted l : StronglySorted (desc key) (sort_desc key l).
Proof.
  induction l as [| x l IH]; simpl.
  - constructor.
  - now apply insert_desc_sorted.
Qed.

(** Stability: elements related by [same] have equal keys, so the sort
    never moves one of them past another. *)
Lemma insert_desc_filter (f : A -> bool) x l :
  (forall y, f y = true -> f x = true -> key y = key x) ->
  filter f (insert_desc key x l) = filter f (x :: l).
Proof.
  intros Hf. induction l as [| y l IH]; [reflexivity |].
  simpl insert_desc. destruct (JsArray.Rltb (key x) (key y)) eqn:E.
  - apply Rltb_true in E. simpl filter in *. rewrite IH.
    destruct (f x) eqn:Fx; [| reflexivity].
    destruct (f y) eqn:Fy; [| reflexivity].
    specialize (Hf y Fy eq_refl). lra.
  - reflexivity.
Qed.

Lemma sort_desc_filter (f : A -> bool) l :
  (forall x y, f x = true -> f y = true -> key x = key y) ->
  filter f (sort_desc key l) = filter f l.
Proof.
  intros Hf. induction l as [| x l IH]; [reflexivity |].
  simpl sort_desc. rewrite insert_desc_filter by (intros; now apply Hf).
  simpl. now rewrite IH.
Qed.

Lemma sort_desc_constant l v :
  (forall x, In x l -> key x = v) -> sort_desc key l = l.
Proof.
  induction l as [| x l IH]; intros Hc; [reflexivity |].
  simpl. rewrite IH by (intros; apply Hc; now right).
  destruct l as [| y l]; [reflexivity |]. simpl.
  replace (JsArray.Rltb (key x) (key y)) with false; [reflexivity |].
  symmetry. apply Rltb_false.
  rewrite (Hc x), (Hc y) by (simpl; auto). lra.
Qed.

Lemma sorted_app_desc l1 l2 :
  StronglySorted (desc key) (l1 ++ l2) ->
  forall a b, In a l1 -> In b l2 -> (key b <= key a)%R.
Proof.
  induction l1 as [| x l1 IH]; intros Hs a b Ha Hb; [easy |].
  simpl in Hs. inversion Hs as [| ? ? Hs' Hall]; subst.
  destruct Ha as [<- | Ha].
  - rewrite Forall_forall in Hall. apply Hall, in_or_app. now right.
  - now apply (IH Hs' a b).
Qed.

(** What truncation of a descending array keeps: an element is kept, or
    the array is full and everything kept is at least as good. *)
Lemma slice0_sorted_top l limit x :
  (0 <= limit)%Z -> StronglySorted (desc key) l -> In x l ->
  In x (JsArray.slice0 l limit) \/
  ((Z.to_nat limit < List.length l)%nat /\
   List.length (JsArray.slice0 l limit) = Z.to_nat limit /\
   forall y, In y (JsArray.slice0 l limit) -> (key x <= key y)%R).
Proof.
  intros Hl Hs Hx. rewrite slice0_nonneg by assumption.
  set (k := Z.to_nat limit).
  rewrite <- (firstn_skipn k l) in Hx, Hs.
  apply in_app_or in Hx. destruct Hx as [Hx | Hx]; [now left | right].
  assert (Hk : (k < List.length l)%nat).
  { destruct (Nat.le_gt_cases (List.length l) k) as [Hle | Hgt]; [| exact Hgt].
    rewrite skipn_all2 in Hx by lia. destruct Hx. }
  split; [exact Hk |]. split.
  - rewrite length_firstn. apply Nat.min_l. lia.
  - intros y Hy. now apply (sorted_app_desc _ _ Hs y x).
Qed.
End SortFacts.

(** ** Any stable descending sort computes [sort_desc] *)

Section StableSortUnique.
Context {A : Type} (key : A -> R).

Lemma hasKey_true v a : hasKey key v a = true <-> key a = v.
Proof. unfold hasKey. destruct (Req_dec_T (key a) v); split; easy. Qed.

Lemma hasKey_self a : hasKey key (key a) a = true.
Proof. now apply hasKey_true. Qed.

Lemma sorted_head_max x l y :
  StronglySorted (desc key) (x :: l) -> In y (x :: l) -> (key y <= key x)%R.
Proof.
  intros Hs [<- | Hy]; [lra |].
  inversion Hs as [| ? ? _ Hall]; subst.
  rewrite Forall_forall in Hall. now apply Hall.
Qed.

Lemma in_by_key l1 l2 y :
  (forall v, filter (hasKey key v) l1 = filter (hasKey key v) l2) ->
  In y l2 -> In y l1.
Proof.
  intros Hf Hy.
  assert (H : In y (filter (hasKey key (key y)) l2))
    by (apply filter_In; split; [exact Hy | apply hasKey_self]).
  rewrite <- Hf in H. now apply filter_In in H.
Qed.

(** Two descending arrays that list the elements of each key in the same
    order are the same array. *)
Lemma stable_sorted_unique l1 l2 :
  StronglySorted (desc key) l1 -> StronglySorted (desc key) l2 ->
  (forall v, filter (hasKey key v) l1 = filter (hasKey key v) l2) ->
  l1 = l2.
Proof.
  revert l2. induction l1 as [| x l1 IH]; intros l2 Hs1 Hs2 Hf.
  - destruct l2 as [| y l2]; [reflexivity |].
    specialize (Hf (key y)). simpl in Hf. rewrite hasKey_self in Hf.
    discriminate Hf.
  - destruct l2 as [| y l2].
    + specialize (Hf (key x)). simpl in Hf. rewrite hasKey_self in Hf.
      discriminate Hf.
    + assert (Hxy : key x = key y).
      { assert (Hx : In x (y :: l2))
          by (apply (in_by_key (y :: l2) (x :: l1));
              [intros v; symmetry; apply Hf | now left]).
        assert (Hy : In y (x :: l1))
          by (apply (in_by_key (x :: l1) (y :: l2)); [exact Hf | now left]).
        pose proof (sorted_head_max _ _ _ Hs2 Hx).
        pose proof (sorted_head_max _ _ _ Hs1 Hy). lra. }
      assert (Heq : x = y).
      { specialize (Hf (key x)). simpl in Hf.
        rewrite hasKey_self in Hf.
        rewrite (proj2 (hasKey_true (key x) y)) in Hf by (symmetry; exact Hxy).
        now injection Hf. }
      subst y. f_equal.
      inversion Hs1; inversion Hs2; subst.
      apply IH; [assumption | assumption |].
      intros v. specialize (Hf v). simpl in Hf.
      destruct (hasKey key v x); [now injection Hf | exact Hf].
Qed.

(** Hence the sorting algorithm is immaterial: whatever array is sorted in
    descending order and stable with respect to [l] is [sort_desc key l]. *)
Lemma sort_desc_unique l l' :
  StronglySorted (desc key) l' ->
  (forall v, filter (hasKey key v) l' = filter (hasKey key v) l) ->
  l' = sort_desc key l.
Proof.
  intros Hs Hf. apply stable_sorted_unique; [exact Hs | apply sort_desc_sorted |].
  intros v. rewrite Hf. symmetry. apply sort_desc_filter.
  intros x y Hx Hy. apply hasKey_true in Hx, Hy. congruence.
Qed.
End StableSortUnique.

(** ** Runs of the monadic code *)

Lemma bind_ok {A B} (m : M A) (f : A -> M B) s a s' t :
  m s = mkRun (Ok a) s' t ->
  bind m f s = mkRun (value (f a s')) (state (f a s')) (t ++ trace (f a s')).
Proof. intros H. unfold bind. now rewrite H. Qed.

Lemma bind_fail {A B} (m : M A) (f : A -> M B) s e s' t :
  m s = mkRun (Fail e) s' t ->
  bind m f s = mkRun (Fail e) s' t.
Proof. intros H. unfold bind. now rewrite H. Qed.

Lemma mapM_run {A B} (f : A -> M B) (g : A -> B) (t : A -> list Event) xs s :
  (forall x s', f x s' = mkRun (Ok (g x)) s' (t x)) ->
  mapM f xs s = mkRun (Ok (map g xs)) s (flat_map t xs).
Proof.
  intros Hf. induction xs as [| x xs IH]; [reflexivity |].
  simpl. unfold bind. rewrite Hf. simpl. rewrite IH. simpl.
  now rewrite app_nil_r.
Qed.

Section Runs.
Variable cfg : Config.
Variable W : World.

Lemma getVoyageCollections_run s :
  getVoyageCollections W s = mkRun (Ok (voyageNames W)) s [GetCollections].
Proof.
  unfold getVoyageCollections, voyageNames, try_catch, bind, call, ret.
  simpl. destruct (getCollections W); reflexivity.
Qed.

Lemma searchCollectionWith_run adjust decay q minScore limit c s :
  searchCollectionWith W adjust decay q minScore limit c s =
  mkRun (Ok (collectionResultsWith W adjust decay q minScore limit c)) s
        [Search c q (searchLimit decay limit) (searchThreshold decay minScore)].
Proof.
  unfold searchCollectionWith, collectionResultsWith, searchAnswer, searchLimit,
    searchThreshold, try_catch, bind, call, ret.
  destruct decay; simpl.
  - destruct (search W c q (JsArray.ceil_times_3 limit) None); reflexivity.
  - destruct (search W c q (JsArray.ceil_times_1_5 limit) (Some minScore));
      reflexivity.
Qed.

Lemma scanCollection_run query c s :
  scanCollection W query c s =
  mkRun (Ok (scanResults W query c)) s [Scroll c 100].
Proof.
  unfold scanCollection, scanResults, try_catch, bind, call, ret. simpl.
  destruct (scroll W c 100); reflexivity.
Qed.

Lemma voyageNames_nonempty :
  voyageNames W <> [] -> (List.length (voyageNames W) =? 0)%nat = false.
Proof.
  intros H. destruct (voyageNames W); [congruence | reflexivity].
Qed.

Lemma flat_map_singleton {A B} (f : A -> B) (l : list A) :
  flat_map (fun x => [f x]) l = map f l.
Proof. induction l; simpl; congruence. Qed.

Lemma initialize_run s :
  initialize W s =
  mkRun (Ok tt)
        (match createEmbeddingService W with
         | Ok es => mkServer (Some es) (currentProject s)
         | Fail _ => s
         end)
        [CreateEmbeddingService].
Proof.
  unfold initialize, try_catch, bind, call, set_embeddingService, ret.
  simpl. destruct (createEmbeddingService W); reflexivity.
Qed.

(** The optional [initialize] at the head of the handler. *)
Lemma ensureService_run s :
  (match embeddingService s with
   | None => initialize W
   | Some _ => ret tt
   end) s = mkRun (Ok tt) (serverAfterInit W s) (initTrace s).
Proof.
  unfold serverAfterInit, serviceAfterInit, initTrace.
  destruct (embeddingService s) eqn:Es; [reflexivity |].
  rewrite initialize_run.
  destruct (createEmbeddingService W); [reflexivity |].
  destruct s; simpl in *; now subst.
Qed.

Lemma serverAfterInit_service s :
  embeddingService (serverAfterInit W s) = serviceAfterInit W s.
Proof.
  unfold serverAfterInit, serviceAfterInit.
  destruct (embeddingService s) eqn:Es; [exact Es | reflexivity].
Qed.

Lemma findResultsWith_text adjust args s :
  serviceAfterInit W s = None ->
  findResultsWith cfg W adjust args s =
  mkRun (Ok (inr (textResults W args))) (serverAfterInit W s)
        (initTrace s ++ GetCollections :: (textTrace W)).
Proof.
  intros Hnone. unfold findResultsWith.
  rewrite (bind_ok _ _ s s s []) by reflexivity.
  rewrite (bind_ok _ _ s tt _ _ (ensureService_run s)).
  rewrite (bind_ok _ _ (serverAfterInit W s) (serverAfterInit W s)
                   (serverAfterInit W s) []) by reflexivity.
  rewrite serverAfterInit_service, Hnone.
  rewrite (bind_ok _ _ _ _ _ _ (getVoyageCollections_run _)).
  rewrite (bind_ok _ _ _ _ _ _
             (mapM_run _ (scanResults W (Args.query args))
                       (fun c => [Scroll c 100]) _ _
                       (fun x s' => scanCollection_run (Args.query args) x s'))).
  simpl. rewrite flat_map_singleton, app_nil_r. reflexivity.
Qed.

Lemma findResultsWith_vector adjust args s es :
  serviceAfterInit W s = Some es ->
  findResultsWith cfg W adjust args s =
  match generateEmbedding es (Args.query args) with
  | Ok q =>
      if (List.length (voyageNames W) =? 0)%nat then
        mkRun (Ok (inl NoVoyageCollections)) (serverAfterInit W s)
              (initTrace s ++ [GenerateEmbedding (Args.query args);
                               GetCollections])
      else
        mkRun (Ok (inr (vectorResultsWith cfg W adjust args q)))
              (serverAfterInit W s)
              (initTrace s ++ GenerateEmbedding (Args.query args)
                 :: GetCollections :: vectorTrace cfg W args q)
  | Fail e =>
      mkRun (Fail e) (serverAfterInit W s)
            (initTrace s ++ [GenerateEmbedding (Args.query args)])
  end.
Proof.
  intros Hsome. unfold findResultsWith.
  rewrite (bind_ok _ _ s s s []) by reflexivity.
  rewrite (bind_ok _ _ s tt _ _ (ensureService_run s)).
  rewrite (bind_ok _ _ (serverAfterInit W s) (serverAfterInit W s)
                   (serverAfterInit W s) []) by reflexivity.
  rewrite serverAfterInit_service, Hsome.
  destruct (generateEmbedding es (Args.query args)) as [q | e] eqn:Eg.
  - rewrite (bind_ok _ _ (serverAfterInit W s) q (serverAfterInit W s)
                     [GenerateEmbedding (Args.query args)])
      by reflexivity.
    rewrite (bind_ok _ _ _ _ _ _ (getVoyageCollections_run _)).
    destruct (List.length (voyageNames W) =? 0)%nat; [reflexivity |].
    rewrite (bind_ok _ _ _ _ _ _
               (mapM_run _
                  (collectionResultsWith W adjust (shouldUseDecay cfg args) q
                                         (minScoreOf args) (limitOf args))
                  (fun c => [Search c q
                               (searchLimit (shouldUseDecay cfg args)
                                            (limitOf args))
                               (searchThreshold (shouldUseDecay cfg args)
                                                (minScoreOf args))]) _ _
                  (fun x s' => searchCollectionWith_run adjust _ q _ _ x s'))).
    simpl. rewrite flat_map_singleton, app_nil_r. reflexivity.
  - rewrite (bind_fail _ _ (serverAfterInit W s) e (serverAfterInit W s)
                       [GenerateEmbedding (Args.query args)])
      by reflexivity.
    simpl. reflexivity.
Qed.
Lemma handleWith_of_findResults adjust args s found s' t :
  findResultsWith cfg W adjust args s = mkRun (Ok found) s' t ->
  handleReflectOnPastWith cfg W adjust args s =
  match found with
  | inl response => mkRun (Ok response) s' t
  | inr results => mkRun (Ok (respond W results)) s' (t ++ respondTrace results)
  end.
Proof.
  intros Hf. unfold handleReflectOnPastWith, try_catch.
  rewrite (bind_ok _ _ _ _ _ _ Hf).
  destruct found as [response | results]; simpl.
  - now rewrite app_nil_r.
  - unfold respond, respondTrace.
    destruct (List.length results =? 0)%nat; simpl.
    + rewrite (bind_ok _ _ _ _ _ _ (getVoyageCollections_run _)). reflexivity.
    + now rewrite app_nil_r.
Qed.

Lemma handleWith_text adjust args s :
  serviceAfterInit W s = None ->
  handleReflectOnPastWith cfg W adjust args s =
  mkRun (Ok (respond W (textResults W args))) (serverAfterInit W s)
        ((initTrace s ++ GetCollections :: (textTrace W))
           ++ respondTrace (textResults W args)).
Proof.
  intros Hnone.
  now rewrite (handleWith_of_findResults _ _ _ _ _ _
                 (findResultsWith_text adjust args s Hnone)).
Qed.

Lemma handleWith_vector adjust args s es :
  serviceAfterInit W s = Some es ->
  handleReflectOnPastWith cfg W adjust args s =
  match generateEmbedding es (Args.query args) with
  | Ok q =>
      if (List.length (voyageNames W) =? 0)%nat then
        mkRun (Ok NoVoyageCollections) (serverAfterInit W s)
              (initTrace s ++ [GenerateEmbedding (Args.query args);
                               GetCollections])
      else
        mkRun (Ok (respond W (vectorResultsWith cfg W adjust args q)))
              (serverAfterInit W s)
              ((initTrace s ++ GenerateEmbedding (Args.query args)
                  :: GetCollections :: vectorTrace cfg W args q)
                 ++ respondTrace (vectorResultsWith cfg W adjust args q))
  | Fail e =>
      mkRun (Fail (McpError InternalError
                     ("Failed to search conversations: " ++ exn_message e)))
            (serverAfterInit W s)
            (initTrace s ++ [GenerateEmbedding (Args.query args)])
  end.
Proof.
  intros Hsome. pose proof (findResultsWith_vector adjust args s es Hsome) as Hf.
  destruct (generateEmbedding es (Args.query args)) as [q | e].
  - destruct (List.length (voyageNames W) =? 0)%nat;
      now rewrite (handleWith_of_findResults _ _ _ _ _ _ Hf).
  - unfold handleReflectOnPastWith, try_catch.
    rewrite (bind_fail _ _ _ _ _ _ Hf). simpl.
    now rewrite app_nil_r.
Qed.

(** The handler of the source evaluates the formula exactly. *)
Lemma handleReflectOnPast_exact args :
  handleReflectOnPast cfg W args
  = handleReflectOnPastWith cfg W (adjustedScore cfg W) args.
Proof. reflexivity. Qed.

Lemma handle_text args s :
  serviceAfterInit W s = None ->
  handleReflectOnPast cfg W args s =
  mkRun (Ok (respond W (textResults W args))) (serverAfterInit W s)
        ((initTrace s ++ GetCollections :: (textTrace W))
           ++ respondTrace (textResults W args)).
Proof. apply handleWith_text. Qed.

Lemma handle_vector args s es :
  serviceAfterInit W s = Some es ->
  handleReflectOnPast cfg W args s =
  match generateEmbedding es (Args.query args) with
  | Ok q =>
      if (List.length (voyageNames W) =? 0)%nat then
        mkRun (Ok NoVoyageCollections) (serverAfterInit W s)
              (initTrace s ++ [GenerateEmbedding (Args.query args);
                               GetCollections])
      else
        mkRun (Ok (respond W (vectorResults cfg W args q))) (serverAfterInit W s)
              ((initTrace s ++ GenerateEmbedding (Args.query args)
                  :: GetCollections :: vectorTrace cfg W args q)
                 ++ respondTrace (vectorResults cfg W args q))
  | Fail e =>
      mkRun (Fail (McpError InternalError
                     ("Failed to search conversations: " ++ exn_message e)))
            (serverAfterInit W s)
            (initTrace s ++ [GenerateEmbedding (Args.query args)])
  end.
Proof. apply handleWith_vector. Qed.
End Runs.

(** ** Strings: containment and splitting *)

Section StringFacts.
Import JsString.

Lemma prefix_empty (t : string) : prefix "" t = true.
Proof. now destruct t. Qed.

Lemma prefix_append (w t : string) :
  prefix w t = true <-> exists post, t = (w ++ post)%string.
Proof.
  revert t. induction w as [| c w IH]; intros t.
  - rewrite prefix_empty. split; [intros _; now exists t | easy].
  - destruct t as [| d t]; simpl.
    + split; [easy | intros [post H]; discriminate].
    + destruct (ascii_dec c d) as [-> | Hne].
      * rewrite IH. split; intros [post H]; exists post.
        -- now rewrite H.
        -- now injection H.
      * split; [easy | intros [post H]; injection H; intros; congruence].
Qed.

Lemma includes_empty (t : string) : includes t "" = true.
Proof. destruct t; reflexivity. Qed.

(** [includes] decides containment. *)
Lemma includes_occursIn (text word : string) :
  includes text word = true <-> occursIn word text.
Proof.
  unfold occursIn. induction text as [| c text IH]; cbn [includes].
  - rewrite orb_false_r, prefix_append. split.
    + intros [post H]. now exists "", post.
    + intros [pre [post H]]. destruct pre; [now exists post | discriminate].
  - rewrite orb_true_iff, IH, prefix_append. split.
    + intros [[post H] | [pre [post H]]].
      * now exists "", post.
      * exists (String c pre), post. simpl. now rewrite H.
    + intros [pre [post H]]. destruct pre as [| d pre].
      * left. now exists post.
      * right. exists pre, post. simpl in H. now injection H.
Qed.

Lemma isSpace_lowerChar (c : ascii) : isSpace (lowerChar c) = isSpace c.
Proof.
  destruct c as [[] [] [] [] [] [] [] []]; reflexivity.
Qed.

Lemma allSpace_toLowerCase (s : string) :
  allSpace (toLowerCase s) = allSpace s.
Proof.
  induction s as [| c s IH]; [reflexivity |].
  simpl. now rewrite isSpace_lowerChar, IH.
Qed.

(** A query of white space only splits into pieces the first of which is
    the empty string. *)
Lemma split_ws_allSpace (s : string) :
  allSpace s = true -> exists rest, split_ws s = "" :: rest.
Proof.
  unfold split_ws. destruct s as [| c s]; simpl.
  - intros _. now exists [].
  - intros H. apply andb_true_iff in H as [Hc _]. rewrite Hc.
    now eexists.
Qed.

Lemma length_toLowerCase (s : string) :
  String.length (toLowerCase s) = String.length s.
Proof. induction s; simpl; congruence. Qed.

Lemma substring0_short (s : string) (n : nat) :
  (String.length s <= n)%nat -> substring0 s n = s.
Proof.
  unfold substring0. revert n. induction s as [| c s IH]; intros n Hn.
  - now destruct n.
  - destruct n as [| n]; simpl in *; [lia |].
    now rewrite IH by lia.
Qed.

Lemma substring0_length (s : string) (n : nat) :
  String.length (substring0 s n) = Nat.min n (String.length s).
Proof.
  unfold substring0. revert n. induction s as [| c s IH]; intros n.
  - destruct n; reflexivity.
  - destruct n as [| n]; simpl; [reflexivity |]. now rewrite IH.
Qed.

Lemma substring0_prefix (s : string) (n : nat) :
  exists rest, s = (substring0 s n ++ rest)%string /\
               (String.length s <= n -> rest = "")%nat /\
               (n < String.length s -> rest <> "")%nat.
Proof.
  unfold substring0. revert n. induction s as [| c s IH]; intros n.
  - exists "". destruct n; simpl; repeat split; auto; lia.
  - destruct n as [| n]; simpl.
    + exists (String c s). repeat split; [lia | discriminate].
    + destruct (IH n) as [rest [H1 [H2 H3]]]. exists rest.
      repeat split; [now rewrite <- H1 | intros; apply H2; lia
                    | intros; apply H3; lia].
Qed.

Lemma length_append (a b : string) :
  String.length (a ++ b) = (String.length a + String.length b)%nat.
Proof. induction a; simpl; congruence. Qed.
End StringFacts.

(** ** Decay scoring *)

Section DecayFacts.
Variable cfg : Config.
Variable W : World.

Lemma scaleMs_days : scaleMs cfg = (DECAY_SCALE_DAYS cfg * 86400000)%R.
Proof. unfold scaleMs. ring. Qed.

Lemma decayFactor_pos point : (0 < decayFactor cfg W point)%R.
Proof. unfold decayFactor. apply exp_pos. Qed.

Lemma ageMs_parsed point ts t :
  truthy (Payload.timestamp (ScoredPoint.payload point)) = Some ts ->
  Date_getTime W ts = Some t ->
  ageMs W point = (Date_now W - t)%Z.
Proof. intros Hts Ht. unfold ageMs. now rewrite Hts, Ht. Qed.

Lemma ageMs_unusable point :
  (truthy (Payload.timestamp (ScoredPoint.payload point)) = None \/
   exists ts, truthy (Payload.timestamp (ScoredPoint.payload point)) = Some ts /\
              Date_getTime W ts = None) ->
  ageMs W point = 0%Z.
Proof.
  unfold ageMs. intros [-> | [ts [-> ->]]]; reflexivity.
Qed.

Lemma decayFactor_age_zero point :
  ageMs W point = 0%Z -> decayFactor cfg W point = 1%R.
Proof.
  intros H. unfold decayFactor. rewrite H.
  replace (- 0 / scaleMs cfg)%R with 0%R by (unfold Rdiv; ring).
  apply exp_0.
Qed.
End DecayFacts.

(** C2: with weight [w >= 0] and scale [d > 0], a candidate with raw score
    [s] whose time stamp parses to an age of [ageMs] milliseconds gets the
    adjusted score [s + w * exp (- ageMs / (d * 86400000))]; for age 0 that
    is exactly [s + w]; and the adjusted score is never below [s]. *)
Theorem C2_decay_formula (cfg : Config) (W : World) (point : ScoredPoint.t)
        (ts : string) (t : Z) :
  (0 <= DECAY_WEIGHT cfg)%R ->
  (0 < DECAY_SCALE_DAYS cfg)%R ->
  truthy (Payload.timestamp (ScoredPoint.payload point)) = Some ts ->
  Date_getTime W ts = Some t ->
  let s := ScoredPoint.score point in
  let age := (Date_now W - t)%Z in
  adjustedScore cfg W point =
    (s + DECAY_WEIGHT cfg * exp (- IZR age / (DECAY_SCALE_DAYS cfg * 86400000)))%R /\
  (age = 0%Z -> adjustedScore cfg W point = (s + DECAY_WEIGHT cfg)%R) /\
  (s <= adjustedScore cfg W point)%R.
Proof.
  intros Hw Hd Hts Ht s age.
  assert (Hage : ageMs W point = age) by (now apply (ageMs_parsed W point ts t)).
  repeat split.
  - unfold adjustedScore, decayFactor. now rewrite Hage, scaleMs_days.
  - intros H0. unfold adjustedScore.
    rewrite decayFactor_age_zero by congruence. subst s. ring.
  - unfold adjustedScore. pose proof (decayFactor_pos cfg W point) as Hpos.
    subst s. nra.
Qed.

(** C2 on a point 90 days old, with weight 0.3 and scale 90 days. *)
Lemma C2_decay_formula_witness :
  (0.6 <= adjustedScore Scenario.decayConfig Scenario.datedWorld Scenario.oldPoint)%R.
Proof.
  refine (proj2 (proj2 (C2_decay_formula Scenario.decayConfig Scenario.datedWorld
                          Scenario.oldPoint Scenario.ninetyDaysAgo
                          1692224000000%Z _ _ _ _))).
  - simpl. lra.
  - simpl. lra.
  - reflexivity.
  - reflexivity.
Defined.

(** ** The decay pipeline on one search response *)

Lemma sorted_app_left {A} (R : A -> A -> Prop) (l1 l2 : list A) :
  StronglySorted R (l1 ++ l2) -> StronglySorted R l1.
Proof.
  induction l1 as [| x l1 IH]; intros Hs; [constructor |].
  simpl in Hs. inversion Hs as [| ? ? Hs' Hall]; subst.
  constructor; [now apply IH |].
  rewrite Forall_forall in *. intros y Hy. apply Hall, in_or_app. now left.
Qed.

Lemma slice0_sorted {A} (R : A -> A -> Prop) (l : list A) (limit : Z) :
  StronglySorted R l -> StronglySorted R (JsArray.slice0 l limit).
Proof.
  intros Hs. destruct (slice0_prefix l limit) as [rest Hrest].
  rewrite Hrest in Hs. now apply sorted_app_left in Hs.
Qed.

Section PipelineFacts.
Variable adjust : ScoredPoint.t -> R.
Variable minScore : R.
Variable limit : Z.
Variable searchResponse : list ScoredPoint.t.

Let kept := decayFilterSortWith adjust minScore limit searchResponse.

Lemma qualifyingWith_in r :
  In r (qualifyingWith adjust minScore searchResponse) <->
  exists p, In p searchResponse /\ r = withScore adjust p /\
            (minScore <= adjust p)%R.
Proof.
  unfold qualifyingWith. rewrite filter_In, in_map_iff, Rgeb_true. split.
  - intros [[p [<- Hp]] Hge]. now exists p.
  - intros [p [Hp [-> Hge]]]. split; [now exists p | exact Hge].
Qed.

Lemma keptWith_unfold :
  kept = JsArray.slice0 (sort_desc ScoredPoint.score (qualifyingWith adjust minScore searchResponse)) limit.
Proof. reflexivity. Qed.

Lemma keptWith_in r :
  In r kept ->
  exists p, In p searchResponse /\ r = withScore adjust p /\
            (minScore <= adjust p)%R.
Proof.
  rewrite keptWith_unfold. intros Hr. apply slice0_incl in Hr.
  now apply sort_desc_in, qualifyingWith_in in Hr.
Qed.

Lemma keptWith_sorted : StronglySorted (desc ScoredPoint.score) kept.
Proof. rewrite keptWith_unfold. apply slice0_sorted, sort_desc_sorted. Qed.

Lemma keptWith_length :
  (0 <= limit)%Z ->
  List.length kept = Nat.min (Z.to_nat limit) (List.length (qualifyingWith adjust minScore searchResponse)).
Proof.
  intros Hl. rewrite keptWith_unfold, slice0_length by assumption.
  now rewrite sort_desc_length.
Qed.

Lemma keptWith_complete p :
  (0 <= limit)%Z -> In p searchResponse ->
  (minScore <= adjust p)%R ->
  In (withScore adjust p) kept \/
  ((Z.to_nat limit < List.length (qualifyingWith adjust minScore searchResponse))%nat /\
   List.length kept = Z.to_nat limit /\
   forall r, In r kept -> (adjust p <= ScoredPoint.score r)%R).
Proof.
  intros Hl Hp Hge.
  assert (Hq : In (withScore adjust p) (qualifyingWith adjust minScore searchResponse))
    by (apply qualifyingWith_in; now exists p).
  apply (sort_desc_in ScoredPoint.score) in Hq.
  destruct (slice0_sorted_top ScoredPoint.score _ limit _ Hl
              (sort_desc_sorted ScoredPoint.score (qualifyingWith adjust minScore searchResponse)) Hq)
    as [Hin | [Hlt [Hlen Htop]]]; [now left | right].
  rewrite sort_desc_length in Hlt. now rewrite keptWith_unfold.
Qed.

Lemma keptWith_excludes p :
  (adjust p < minScore)%R -> ~ In (withScore adjust p) kept.
Proof.
  intros Hlt Hin. apply keptWith_in in Hin as [p' [_ [Heq Hge]]].
  apply (f_equal ScoredPoint.score) in Heq. simpl in Heq. lra.
Qed.
End PipelineFacts.

(** The same facts for the exact evaluation of the formula. *)
Section ExactPipelineFacts.
Variable cfg : Config.
Variable W : World.
Variable minScore : R.
Variable limit : Z.
Variable searchResponse : list ScoredPoint.t.

Let kept := decayFilterSort cfg W minScore limit searchResponse.

Lemma qualifying_in r :
  In r (qualifying cfg W minScore searchResponse) <->
  exists p, In p searchResponse /\ r = withAdjustedScore cfg W p /\
            (minScore <= adjustedScore cfg W p)%R.
Proof. apply qualifyingWith_in. Qed.

Lemma kept_complete p :
  (0 <= limit)%Z -> In p searchResponse ->
  (minScore <= adjustedScore cfg W p)%R ->
  In (withAdjustedScore cfg W p) kept \/
  ((Z.to_nat limit < List.length (qualifying cfg W minScore searchResponse))%nat /\
   List.length kept = Z.to_nat limit /\
   forall r, In r kept -> (adjustedScore cfg W p <= ScoredPoint.score r)%R).
Proof. apply keptWith_complete. Qed.
End ExactPipelineFacts.

(** C1: in decay mode each collection is asked for [ceil(limit * 3)], that
    is [3 * limit], candidates with no score threshold; every candidate gets
    its adjusted score; the result keeps only adjusted scores at or above
    [minScore], in descending order, cut to [limit]; so a candidate whose
    adjusted score reaches [minScore] is returned (or is out-ranked by
    [limit] better ones), whatever its raw score, and one whose adjusted
    score is below [minScore] is left out, whatever its raw score.  The
    statement holds for every evaluation [adjust] of the decay formula, so
    for the exact one ([adjustedScore], the one of [handleReflectOnPast]) and
    for the double-precision one alike; when [adjust] is within [eps] of the
    exact formula, a candidate whose exact adjusted score is at least
    [minScore + eps] qualifies and one whose exact adjusted score is below
    [minScore - eps] does not ([eps = 0] for the exact evaluation). *)
Theorem C1_decay_mode_pipeline (cfg : Config) (W : World)
        (adjust : ScoredPoint.t -> R) (args : Args.t)
        (q : list R) (c : string) (s : Server) :
  shouldUseDecay cfg args = true ->
  (0 <= limitOf args)%Z ->
  let minScore := minScoreOf args in
  let limit := limitOf args in
  let collection :=
    searchCollectionWith W adjust (shouldUseDecay cfg args) q minScore limit in
  let run := collection c s in
  trace (mapM collection (voyageNames W) s)
    = map (fun name => Search name q (3 * limit)%Z None) (voyageNames W) /\
  trace run = [Search c q (3 * limit)%Z None] /\
  forall searchResponse,
    search W c q (3 * limit)%Z None = Ok searchResponse ->
    let decayed :=
      map (fun point => ScoredPoint.mk (ScoredPoint.id point) (adjust point)
                                       (ScoredPoint.payload point))
          searchResponse in
    let passing :=
      filter (fun point => JsArray.Rgeb (ScoredPoint.score point) minScore)
             decayed in
    let kept := JsArray.slice0 (sort_desc ScoredPoint.score passing) limit in
    value run = Ok (map (renderScored W c) kept) /\
    List.length decayed = List.length searchResponse /\
    (forall r, In r kept ->
       exists p, In p searchResponse /\
                 r = ScoredPoint.mk (ScoredPoint.id p) (adjust p)
                                    (ScoredPoint.payload p) /\
                 (minScore <= adjust p)%R) /\
    StronglySorted (desc ScoredPoint.score) kept /\
    List.length kept = Nat.min (Z.to_nat limit) (List.length passing) /\
    (forall p, In p searchResponse ->
       (minScore <= adjust p)%R ->
       In (ScoredPoint.mk (ScoredPoint.id p) (adjust p) (ScoredPoint.payload p))
          kept \/
       ((Z.to_nat limit < List.length passing)%nat /\
        List.length kept = Z.to_nat limit /\
        forall r, In r kept -> (adjust p <= ScoredPoint.score r)%R)) /\
    (forall p, In p searchResponse ->
       (adjust p < minScore)%R ->
       ~ In (ScoredPoint.mk (ScoredPoint.id p) (adjust p)
                            (ScoredPoint.payload p)) kept) /\
    (forall eps,
       (forall p, (Rabs (adjust p - adjustedScore cfg W p) <= eps)%R) ->
       (forall p, In p searchResponse ->
          (minScore + eps <= adjustedScore cfg W p)%R ->
          In (ScoredPoint.mk (ScoredPoint.id p) (adjust p)
                             (ScoredPoint.payload p)) kept \/
          ((Z.to_nat limit < List.length passing)%nat /\
           List.length kept = Z.to_nat limit /\
           forall r, In r kept ->
                     (adjustedScore cfg W p - eps <= ScoredPoint.score r)%R)) /\
       (forall p, In p searchResponse ->
          (adjustedScore cfg W p < minScore - eps)%R ->
          ~ In (ScoredPoint.mk (ScoredPoint.id p) (adjust p)
                               (ScoredPoint.payload p)) kept)).
Proof.
  intros Hdecay Hlimit minScore limit collection run. subst run collection.
  split.
  { rewrite (mapM_run _ (collectionResultsWith W adjust (shouldUseDecay cfg args)
                                               q minScore limit)
               (fun name => [Search name q
                               (searchLimit (shouldUseDecay cfg args) limit)
                               (searchThreshold (shouldUseDecay cfg args)
                                                minScore)]))
      by (intros; apply searchCollectionWith_run).
    cbn [trace]. rewrite flat_map_singleton, Hdecay.
    unfold searchLimit, searchThreshold. now rewrite ceil_times_3_exact. }
  rewrite searchCollectionWith_run, Hdecay.
  unfold searchLimit, searchThreshold. rewrite ceil_times_3_exact.
  split; [reflexivity |].
  intros searchResponse Hresp. cbv zeta.
  split.
  { unfold collectionResultsWith, searchAnswer, searchLimit, searchThreshold.
    cbn [value]. now rewrite ceil_times_3_exact, Hresp. }
  split; [apply length_map |].
  split; [apply (keptWith_in adjust minScore limit searchResponse) |].
  split; [apply (keptWith_sorted adjust minScore limit searchResponse) |].
  split; [now apply (keptWith_length adjust minScore limit searchResponse) |].
  split; [| split].
  - intros p Hp Hge.
    now apply (keptWith_complete adjust minScore limit searchResponse).
  - intros p _ Hlt.
    now apply (keptWith_excludes adjust minScore limit searchResponse).
  - intros eps Hclose.
    assert (Hnear : forall p,
               (adjustedScore cfg W p - eps <= adjust p
                <= adjustedScore cfg W p + eps)%R).
    { intros p. specialize (Hclose p). unfold Rabs in Hclose.
      destruct (Rcase_abs (adjust p - adjustedScore cfg W p)); lra. }
    split.
    + intros p Hp Hge. pose proof (Hnear p) as Hp'.
      destruct (keptWith_complete adjust minScore limit searchResponse p
                  Hlimit Hp ltac:(lra)) as [Hin | (Hfull & Hlen & Htop)];
        [now left | right].
      split; [exact Hfull |]. split; [exact Hlen |].
      intros r Hr. specialize (Htop r Hr). lra.
    + intros p _ Hlt. pose proof (Hnear p) as Hp'.
      apply (keptWith_excludes adjust minScore limit searchResponse). lra.
Qed.

(** The specification's example: weight 0.3, scale 90 days, threshold 0.75.
    A point 90 days old with raw score 0.6 is adjusted to
    [0.6 + 0.3 * exp (-1)], below the threshold; a point with the same raw
    score and no usable time stamp is adjusted to 0.9. *)
Lemma oldPoint_adjusted :
  (adjustedScore Scenario.decayConfig Scenario.decayWorld Scenario.oldPoint
   < 0.75)%R.
Proof.
  unfold adjustedScore, decayFactor.
  change (ageMs Scenario.decayWorld Scenario.oldPoint) with 7776000000%Z.
  replace (- IZR 7776000000 / scaleMs Scenario.decayConfig)%R with (Ropp 1)
    by (unfold scaleMs; simpl; field).
  rewrite exp_Ropp.
  assert (H2 : (2 < exp 1)%R) by (pose proof (exp_ineq1 1); lra).
  assert (Hinv : (/ exp 1 < / 2)%R) by (apply Rinv_lt_contravar; lra).
  simpl. lra.
Qed.

Lemma undatedPoint_adjusted :
  adjustedScore Scenario.decayConfig Scenario.decayWorld Scenario.undatedPoint
  = 0.9%R.
Proof.
  unfold adjustedScore.
  rewrite decayFactor_age_zero by reflexivity. simpl. lra.
Qed.

(** C1 on the specification's example: of two candidates with raw score
    0.6, below the threshold 0.75, the one without a usable time stamp is
    returned and the one 90 days old is not. *)
Lemma C1_decay_mode_pipeline_witness :
  let kept := decayFilterSort Scenario.decayConfig Scenario.decayWorld 0.75%R 3%Z
                [Scenario.oldPoint; Scenario.undatedPoint] in
  In (withAdjustedScore Scenario.decayConfig Scenario.decayWorld
        Scenario.undatedPoint) kept /\
  ~ In (withAdjustedScore Scenario.decayConfig Scenario.decayWorld
          Scenario.oldPoint) kept.
Proof.
  destruct (C1_decay_mode_pipeline Scenario.decayConfig Scenario.decayWorld
              (adjustedScore Scenario.decayConfig Scenario.decayWorld)
              Scenario.decayQuery [] "conv_projA_voyage" Scenario.freshServer
              eq_refl ltac:(unfold limitOf; simpl; lia))
    as (_ & _ & Hresp).
  destruct (Hresp [Scenario.oldPoint; Scenario.undatedPoint] eq_refl)
    as (_ & _ & _ & _ & Hlen & Hin & Hout & _).
  split.
  - destruct (Hin Scenario.undatedPoint) as [H | [Hmany _]].
    + simpl; auto.
    + rewrite undatedPoint_adjusted. unfold minScoreOf. simpl. lra.
    + exact H.
    + exfalso. cbv zeta in Hmany.
      match type of Hmany with
      | (_ < List.length (filter ?f ?l))%nat =>
          pose proof (filter_length_le f l) as Hle
      end.
      rewrite length_map in Hle.
      change (Z.to_nat (limitOf Scenario.decayQuery)) with 3%nat in Hmany.
      cbn [List.length] in Hle. lia.
  - apply Hout; [simpl; auto | apply oldPoint_adjusted].
Defined.

(** C6: in decay mode a candidate whose time stamp is absent or does not
    parse is kept in the computation: its age is 0, its decay factor 1, its
    adjusted score [s + w]; the decay step drops no candidate, and the
    candidate goes through the threshold, the sort and the truncation like
    any other. *)
Theorem C6_unusable_timestamp_participates (cfg : Config) (W : World)
        (minScore : R) (limit : Z) (searchResponse : list ScoredPoint.t)
        (point : ScoredPoint.t) :
  (0 < DECAY_SCALE_DAYS cfg)%R ->
  (0 <= limit)%Z ->
  In point searchResponse ->
  (truthy (Payload.timestamp (ScoredPoint.payload point)) = None \/
   exists ts, truthy (Payload.timestamp (ScoredPoint.payload point)) = Some ts /\
              Date_getTime W ts = None) ->
  let s := ScoredPoint.score point in
  let w := DECAY_WEIGHT cfg in
  let kept := decayFilterSort cfg W minScore limit searchResponse in
  ageMs W point = 0%Z /\
  decayFactor cfg W point = 1%R /\
  adjustedScore cfg W point = (s + w)%R /\
  List.length (map (withAdjustedScore cfg W) searchResponse)
    = List.length searchResponse /\
  In (withAdjustedScore cfg W point) (map (withAdjustedScore cfg W) searchResponse) /\
  (In (withAdjustedScore cfg W point) (qualifying cfg W minScore searchResponse)
   <-> (minScore <= s + w)%R) /\
  ((minScore <= s + w)%R ->
   In (withAdjustedScore cfg W point) kept \/
   ((Z.to_nat limit
       < List.length (qualifying cfg W minScore searchResponse))%nat /\
    List.length kept = Z.to_nat limit /\
    forall r, In r kept -> (s + w <= ScoredPoint.score r)%R)).
Proof.
  intros Hd Hlimit Hin Hts s w kept.
  assert (Hage : ageMs W point = 0%Z) by (now apply ageMs_unusable).
  assert (Hfac : decayFactor cfg W point = 1%R)
    by (now apply decayFactor_age_zero).
  assert (Hadj : adjustedScore cfg W point = (s + w)%R)
    by (unfold adjustedScore; rewrite Hfac; subst s w; ring).
  split; [exact Hage |]. split; [exact Hfac |]. split; [exact Hadj |].
  split; [apply length_map |].
  split; [now apply in_map |].
  split.
  - rewrite qualifying_in. split.
    + intros [p [_ [Heq Hge]]].
      apply (f_equal ScoredPoint.score) in Heq. simpl in Heq. lra.
    + intros Hge. exists point. rewrite Hadj. auto.
  - intros Hge. rewrite <- Hadj in *.
    now apply kept_complete.
Qed.

(** C6 on a candidate whose time stamp is the string ["yesterday"]. *)
Lemma C6_unusable_timestamp_participates_witness :
  adjustedScore Scenario.decayConfig Scenario.decayWorld Scenario.undatedPoint
  = (0.6 + 0.3)%R.
Proof.
  refine (proj1 (proj2 (proj2
            (C6_unusable_timestamp_participates
               Scenario.decayConfig Scenario.decayWorld 0.75%R 3%Z
               [Scenario.oldPoint; Scenario.undatedPoint]
               Scenario.undatedPoint _ _ _ _)))).
  - simpl. lra.
  - lia.
  - simpl. auto.
  - right. exists "yesterday". split; reflexivity.
Defined.

(** ** Fan-out *)

Lemma concat_map_skip_empty {A B} (g : A -> list B) (ok : A -> bool) (l : list A) :
  (forall x, ok x = false -> g x = []) ->
  List.concat (map g l) = List.concat (map g (filter ok l)).
Proof.
  intros Hg. induction l as [| x l IH]; [reflexivity |].
  simpl. destruct (ok x) eqn:E; simpl.
  - now rewrite IH.
  - now rewrite (Hg x E).
Qed.

Section FanOutFacts.
Variable cfg : Config.
Variable W : World.

Lemma collectionResultsWith_failed adjust decay q minScore limit c :
  isOk (searchAnswer W decay q minScore limit c) = false ->
  collectionResultsWith W adjust decay q minScore limit c = [].
Proof.
  unfold collectionResultsWith.
  now destruct (searchAnswer W decay q minScore limit c).
Qed.

Lemma scanResults_failed query c :
  isOk (scroll W c 100) = false -> scanResults W query c = [].
Proof. unfold scanResults. now destruct (scroll W c 100). Qed.

Lemma searchLimit_count decay limit :
  searchLimit decay limit
  = if decay then (3 * limit)%Z else JsArray.ceil_times_1_5 limit.
Proof.
  unfold searchLimit. destruct decay; [apply ceil_times_3_exact | reflexivity].
Qed.

Lemma handleWith_fails adjust args s e :
  value (handleReflectOnPastWith cfg W adjust args s) = Fail e ->
  exists es cause,
    serviceAfterInit W s = Some es /\
    generateEmbedding es (Args.query args) = Fail cause /\
    e = McpError InternalError
          ("Failed to search conversations: " ++ exn_message cause).
Proof.
  intros He. destruct (serviceAfterInit W s) as [es |] eqn:Es.
  - rewrite (handleWith_vector cfg W adjust args s es Es) in He.
    destruct (generateEmbedding es (Args.query args)) as [q | cause] eqn:Eg;
      [destruct (List.length (voyageNames W) =? 0)%nat; discriminate He |].
    cbn [value] in He. injection He as <-. now exists es, cause.
  - rewrite (handleWith_text cfg W adjust args s Es) in He. discriminate He.
Qed.

Lemma handle_fails args s e :
  value (handleReflectOnPast cfg W args s) = Fail e ->
  exists es cause,
    serviceAfterInit W s = Some es /\
    generateEmbedding es (Args.query args) = Fail cause /\
    e = McpError InternalError
          ("Failed to search conversations: " ++ exn_message cause).
Proof. apply handleWith_fails. Qed.
End FanOutFacts.

(** C4: whichever collections fail, the request completes and returns the
    results of the collections that answered.  In text search and in vector
    search alike the handler queries every collection, also after a failure;
    the callback of a collection whose query fails returns the empty list;
    the response is built from the lists of the answering collections alone;
    and the request fails only when the embedding of the query fails.  The
    statement holds for every evaluation [adjust] of the decay formula, so
    for the exact one ([handleReflectOnPast]) and for the double-precision
    one alike. *)
Theorem C4_collection_failure_is_local (cfg : Config) (W : World)
        (adjust : ScoredPoint.t -> R) (args : Args.t) (s : Server) :
  let cs :=
    match getCollections W with
    | Ok names => filter (fun name => JsString.endsWith name "_voyage") names
    | Fail _ => []
    end in
  let decay := shouldUseDecay cfg args in
  let minScore := minScoreOf args in
  let limit := limitOf args in
  let query := Args.query args in
  let count := if decay then (3 * limit)%Z else JsArray.ceil_times_1_5 limit in
  let threshold := if decay then None else Some minScore in
  let scanned c :=
    match scroll W c 100 with
    | Ok points =>
        map (renderStored W c)
            (filter (matchesQuery
                       (JsString.split_ws (JsString.toLowerCase query)))
                    points)
    | Fail _ => []
    end in
  let searched q c :=
    match search W c q count threshold with
    | Ok searchResponse =>
        map (renderScored W c)
            (if decay
             then decayFilterSortWith adjust minScore limit searchResponse
             else searchResponse)
    | Fail _ => []
    end in
  let response results :=
    if (List.length results =? 0)%nat then NoResults (List.length cs)
    else Found results in
  let lastCall (results : list SearchResult.t) :=
    if (List.length results =? 0)%nat then [GetCollections] else [] in
  let run := handleReflectOnPastWith cfg W adjust args s in
  (serviceAfterInit W s = None ->
   let answering := filter (fun c => isOk (scroll W c 100)) cs in
   let results := JsArray.slice0 (List.concat (map scanned answering)) limit in
   run = mkRun (Ok (response results)) (serverAfterInit W s)
               (initTrace s ++ GetCollections
                  :: map (fun c => Scroll c 100) cs ++ lastCall results)) /\
  (forall es q,
     serviceAfterInit W s = Some es ->
     generateEmbedding es query = Ok q ->
     cs <> [] ->
     let answering :=
       filter (fun c => isOk (search W c q count threshold)) cs in
     let results :=
       JsArray.slice0
         (sort_desc SearchResult.score
            (List.concat (map (searched q) answering)))
         limit in
     run = mkRun (Ok (response results)) (serverAfterInit W s)
                 (initTrace s ++ GenerateEmbedding query :: GetCollections
                    :: map (fun c => Search c q count threshold) cs
                    ++ lastCall results)) /\
  (forall c e s',
     scroll W c 100 = Fail e ->
     scanCollection W query c s' = mkRun (Ok []) s' [Scroll c 100]) /\
  (forall q c e s',
     search W c q count threshold = Fail e ->
     searchCollectionWith W adjust decay q minScore limit c s'
     = mkRun (Ok []) s' [Search c q count threshold]) /\
  (forall e,
     value run = Fail e ->
     exists es cause,
       serviceAfterInit W s = Some es /\
       generateEmbedding es query = Fail cause).
Proof.
  intros cs decay minScore limit query count threshold scanned searched
         response lastCall run.
  assert (Hcount : searchLimit decay limit = count)
    by apply searchLimit_count.
  assert (Hsearched : forall q c,
             collectionResultsWith W adjust decay q minScore limit c
             = searched q c).
  { intros q c. unfold collectionResultsWith, searchAnswer.
    rewrite Hcount. reflexivity. }
  split; [| split; [| split; [| split]]].
  - intros Es answering results. subst run.
    rewrite (handleWith_text cfg W adjust args s Es).
    assert (Hres : textResults W args = results).
    { unfold textResults, mergeFlat. subst results answering. f_equal.
      apply (concat_map_skip_empty (scanResults W (Args.query args))).
      intros c. apply scanResults_failed. }
    rewrite Hres. rewrite <- app_assoc. reflexivity.
  - intros es q Es Hq Hcs answering results. subst run.
    rewrite (handleWith_vector cfg W adjust args s es Es). fold query.
    rewrite Hq.
    rewrite (voyageNames_nonempty W Hcs).
    assert (Hres : vectorResultsWith cfg W adjust args q = results).
    { unfold vectorResultsWith, mergeSorted.
      subst results answering. f_equal. f_equal.
      fold decay minScore limit.
      rewrite (concat_map_skip_empty
                 (collectionResultsWith W adjust decay q
                                        minScore limit)
                 (fun c => isOk (search W c q count threshold))).
      - f_equal. apply map_ext. intros c. apply Hsearched.
      - intros c Hfail. apply collectionResultsWith_failed.
        unfold searchAnswer. rewrite Hcount. exact Hfail. }
    rewrite Hres. unfold vectorTrace. fold decay minScore limit.
    rewrite Hcount. rewrite <- app_assoc. reflexivity.
  - intros c e s' Hfail. rewrite scanCollection_run.
    unfold scanResults. now rewrite Hfail.
  - intros q c e s' Hfail. rewrite searchCollectionWith_run.
    rewrite Hcount, Hsearched. subst searched. cbv beta.
    now rewrite Hfail.
  - intros e He. subst run.
    destruct (handleWith_fails cfg W adjust args s e He)
      as (es & cause & Es & Hg & _).
    now exists es, cause.
Qed.

(** C4 on a store where the scroll of one collection times out: the
    request returns the result of the other collection. *)
Lemma C4_collection_failure_is_local_witness :
  handleReflectOnPast Scenario.hybridConfig Scenario.flakyWorld
    Scenario.indexingQuery Scenario.freshServer
  = mkRun (Ok (Found
                 [renderStored Scenario.flakyWorld "conv_projA_voyage"
                    (StoredPoint.mk "1"
                       (Scenario.textPayload
                          "discussed database indexing strategy" None))]))
          Scenario.freshServer
          [CreateEmbeddingService; GetCollections;
           Scroll "conv_projA_voyage" 100; Scroll "conv_projB_voyage" 100].
Proof.
  refine (proj1 (C4_collection_failure_is_local
                   Scenario.hybridConfig Scenario.flakyWorld
                   (adjustedScore Scenario.hybridConfig Scenario.flakyWorld)
                   Scenario.indexingQuery Scenario.freshServer) _).
  reflexivity.
Defined.

(** ** Aggregation *)

Lemma hasScore_true v r : hasScore v r = true <-> SearchResult.score r = v.
Proof. apply hasKey_true. Qed.

Lemma scanResults_score W query c r :
  In r (scanResults W query c) -> SearchResult.score r = 0.5%R.
Proof.
  unfold scanResults. destruct (scroll W c 100) as [points | e]; [| easy].
  rewrite in_map_iff. now intros [p [<- _]].
Qed.

Lemma mergeFlat_constant (allResults : list (list SearchResult.t)) (limit : Z) v :
  (forall r, In r (List.concat allResults) -> SearchResult.score r = v) ->
  mergeFlat allResults limit = mergeSorted allResults limit.
Proof.
  intros Hc. unfold mergeFlat, mergeSorted.
  now rewrite (sort_desc_constant SearchResult.score _ v Hc).
Qed.

(** C5: the merge is a stable descending sort of the concatenated lists
    followed by a cut to [limit]: what is returned followed by what is cut
    off is a permutation of the input (nothing is deduplicated), in
    descending score order, with equal scores in input order; [limit] results
    are returned when at least [limit] are available, and none of them is
    worse than a result cut off.  Any stable descending sort gives the same
    result.  The text search merges without sorting, which is the same thing
    since all its scores are equal. *)
Theorem C5_merge_is_stable_top_k (allResults : list (list SearchResult.t))
        (limit : Z) :
  (0 <= limit)%Z ->
  let flat := List.concat allResults in
  let merged := mergeSorted allResults limit in
  (exists cut,
     Permutation flat (merged ++ cut) /\
     StronglySorted (desc SearchResult.score) (merged ++ cut) /\
     (forall v, filter (hasScore v) (merged ++ cut) = filter (hasScore v) flat) /\
     (forall a b, In a merged -> In b cut ->
                  (SearchResult.score b <= SearchResult.score a)%R)) /\
  List.length merged = Nat.min (Z.to_nat limit) (List.length flat) /\
  ((Z.to_nat limit <= List.length flat)%nat ->
   List.length merged = Z.to_nat limit) /\
  (forall sorted,
     StronglySorted (desc SearchResult.score) sorted ->
     (forall v, filter (hasScore v) sorted = filter (hasScore v) flat) ->
     JsArray.slice0 sorted limit = merged) /\
  (forall W query cs,
     mergeFlat (map (scanResults W query) cs) limit =
     mergeSorted (map (scanResults W query) cs) limit).
Proof.
  intros Hlimit flat merged.
  split; [| split; [| split; [| split]]].
  - destruct (slice0_prefix (sort_desc SearchResult.score flat) limit)
      as [cut Hcut].
    exists cut.
    assert (Hsorted : sort_desc SearchResult.score flat = merged ++ cut)
      by exact Hcut.
    rewrite <- Hsorted.
    split; [apply sort_desc_perm |].
    split; [apply sort_desc_sorted |].
    split.
    + intros v. apply sort_desc_filter.
      intros x y Hx Hy. apply hasScore_true in Hx, Hy. congruence.
    + intros a b Ha Hb.
      apply (sorted_app_desc SearchResult.score merged cut); [| exact Ha | exact Hb].
      rewrite <- Hsorted. apply sort_desc_sorted.
  - subst merged. unfold mergeSorted.
    now rewrite slice0_length, sort_desc_length.
  - intros Hk. subst merged. unfold mergeSorted.
    rewrite slice0_length, sort_desc_length by assumption.
    apply Nat.min_l. exact Hk.
  - intros sorted Hs Hstable. subst merged. unfold mergeSorted.
    now rewrite (sort_desc_unique SearchResult.score flat sorted Hs Hstable).
  - intros W query cs. apply (mergeFlat_constant _ _ 0.5%R).
    intros r Hr. apply in_concat in Hr as [l [Hl Hr]].
    apply in_map_iff in Hl as [c [<- _]].
    now apply scanResults_score in Hr.
Qed.

(** C5 on three results from two collections and [limit = 2]. *)
Lemma C5_merge_is_stable_top_k_witness :
  List.length
    (mergeSorted
       [ [renderScored Scenario.decayWorld "conv_projA_voyage" Scenario.oldPoint;
          renderScored Scenario.decayWorld "conv_projA_voyage" Scenario.undatedPoint];
         [renderScored Scenario.decayWorld "conv_projB_voyage" Scenario.oldPoint] ]
       2%Z) = 2%nat.
Proof.
  refine (proj1 (proj2 (proj2
            (C5_merge_is_stable_top_k _ 2%Z _))) _).
  - lia.
  - simpl. lia.
Defined.

(** ** Text search *)

Lemma toLowerCase_append (a b : string) :
  JsString.toLowerCase (a ++ b)
  = (JsString.toLowerCase a ++ JsString.toLowerCase b)%string.
Proof. induction a as [| c a IH]; simpl; [reflexivity | now rewrite IH]. Qed.

Lemma toLowerCase_append_inv (t a b : string) :
  JsString.toLowerCase t = (a ++ b)%string ->
  exists t1 t2, t = (t1 ++ t2)%string /\
                JsString.toLowerCase t1 = a /\ JsString.toLowerCase t2 = b.
Proof.
  revert t. induction a as [| c a IH]; intros t H.
  - now exists "", t.
  - destruct t as [| d t]; [discriminate |].
    simpl in H. injection H as Hc Ht.
    destruct (IH t Ht) as [t1 [t2 [-> [H1 H2]]]].
    exists (String d t1), t2. simpl. now rewrite H1, Hc.
Qed.

Lemma occursIn_toLowerCase (text token : string) :
  JsString.occursIn (JsString.toLowerCase token) (JsString.toLowerCase text)
  <-> containsIgnoringCase text token.
Proof.
  unfold JsString.occursIn, containsIgnoringCase. split.
  - intros [pre [post H]].
    apply toLowerCase_append_inv in H as [t1 [t23 [-> [H1 H23]]]].
    apply toLowerCase_append_inv in H23 as [t2 [t3 [-> [H2 H3]]]].
    now exists t1, t2, t3.
  - intros [pre [mid [post [-> Hmid]]]].
    exists (JsString.toLowerCase pre), (JsString.toLowerCase post).
    now rewrite !toLowerCase_append, Hmid.
Qed.

Lemma split_from_toLowerCase (s cur : string) (gap : bool) :
  JsString.split_from (JsString.toLowerCase s) (JsString.toLowerCase cur) gap
  = map JsString.toLowerCase (JsString.split_from s cur gap).
Proof.
  revert cur gap. induction s as [| c s IH]; intros cur gap; [reflexivity |].
  simpl. rewrite isSpace_lowerChar.
  destruct (JsString.isSpace c).
  - destruct gap; simpl; [apply IH | f_equal; apply (IH "" true)].
  - rewrite <- IH. now rewrite toLowerCase_append.
Qed.

Lemma split_ws_toLowerCase (s : string) :
  JsString.split_ws (JsString.toLowerCase s)
  = map JsString.toLowerCase (JsString.split_ws s).
Proof. apply (split_from_toLowerCase s "" false). Qed.

Lemma matchesQuery_spec (queryWords : list string) (point : StoredPoint.t) :
  matchesQuery queryWords point = true <->
  exists word, In word queryWords /\ JsString.occursIn word (searchedText point).
Proof.
  unfold matchesQuery. fold (searchedText point).
  rewrite existsb_exists.
  split; intros [word [Hin Hw]]; exists word; split; auto;
    now apply includes_occursIn.
Qed.

Lemma matchesQuery_tokens (query : string) (point : StoredPoint.t) :
  matchesQuery (JsString.split_ws (JsString.toLowerCase query)) point = true <->
  exists token,
    In token (JsString.split_ws query) /\
    containsIgnoringCase
      (or_else (Payload.text (StoredPoint.payload point)) "") token.
Proof.
  rewrite matchesQuery_spec, split_ws_toLowerCase. unfold searchedText. split.
  - intros [word [Hin Hocc]]. apply in_map_iff in Hin as [token [<- Hin]].
    exists token. split; [exact Hin | now apply occursIn_toLowerCase].
  - intros [token [Hin Hci]]. exists (JsString.toLowerCase token).
    split; [now apply in_map | now apply occursIn_toLowerCase].
Qed.

Lemma matchesQuery_blank (query : string) (point : StoredPoint.t) :
  JsString.allSpace query = true ->
  matchesQuery (JsString.split_ws (JsString.toLowerCase query)) point = true.
Proof.
  intros Hblank. rewrite <- allSpace_toLowerCase in Hblank.
  destruct (split_ws_allSpace _ Hblank) as [rest ->].
  unfold matchesQuery. simpl. now rewrite includes_empty.
Qed.

Lemma filter_all {A} (f : A -> bool) (l : list A) :
  (forall x, In x l -> f x = true) -> filter f l = l.
Proof.
  induction l as [| x l IH]; intros H; [reflexivity |].
  simpl. rewrite (H x) by now left.
  f_equal. apply IH. intros y Hy. apply H. now right.
Qed.

(** *** The pieces of [split] are the whitespace-delimited tokens *)

Lemma isSpace_code (c : ascii) :
  JsString.isSpace c = true <-> whiteSpaceCode (nat_of_ascii c).
Proof.
  unfold JsString.isSpace, whiteSpaceCode. cbv zeta.
  rewrite !orb_true_iff, andb_true_iff, !Nat.leb_le, !Nat.eqb_eq. lia.
Qed.

Lemma noSpace_app (a b : string) :
  noSpace (a ++ b) = noSpace a && noSpace b.
Proof.
  induction a as [| c a IH]; [reflexivity |].
  simpl. now rewrite IH, andb_assoc.
Qed.

Lemma append_assoc (a b c : string) :
  ((a ++ b) ++ c = a ++ (b ++ c))%string.
Proof. induction a as [| x a IH]; simpl; congruence. Qed.

Lemma leading_skip (s : string) : (leadingSpaces s ++ skipSpaces s)%string = s.
Proof.
  induction s as [| c s IH]; [reflexivity |].
  simpl. destruct (JsString.isSpace c); simpl; congruence.
Qed.

Lemma allSpace_leadingSpaces (s : string) :
  JsString.allSpace (leadingSpaces s) = true.
Proof.
  induction s as [| c s IH]; [reflexivity |].
  simpl. destruct (JsString.isSpace c) eqn:E; [| reflexivity].
  simpl. now rewrite E.
Qed.

Lemma beginsWithSpace_skipSpaces (s : string) :
  beginsWithSpace (skipSpaces s) = false.
Proof.
  induction s as [| c s IH]; [reflexivity |].
  simpl. destruct (JsString.isSpace c) eqn:E; [exact IH | simpl; exact E].
Qed.

(** [split_from] reads off the decomposition of the query; in a separator
    run ([gap = true]) it first skips the rest of the run. *)
Lemma split_from_splits (s : string) :
  (forall cur, noSpace cur = true ->
               splitsInto (cur ++ s) (JsString.split_from s cur false)) /\
  splitsInto (skipSpaces s) (JsString.split_from s "" true).
Proof.
  induction s as [| c s [IHtoken IHgap]].
  - split.
    + intros cur Hcur. simpl.
      replace (cur ++ "")%string with cur
        by (clear; induction cur; simpl; congruence).
      now constructor.
    + simpl. now constructor.
  - split.
    + intros cur Hcur. simpl. destruct (JsString.isSpace c) eqn:Ec.
      * replace (String c s)
          with (String c (leadingSpaces s) ++ skipSpaces s)%string
          by (simpl; now rewrite leading_skip).
        apply splits_more; try assumption.
        -- discriminate.
        -- simpl. now rewrite Ec, allSpace_leadingSpaces.
        -- apply beginsWithSpace_skipSpaces.
      * replace (cur ++ String c s)%string
          with ((cur ++ String c "") ++ s)%string
          by (now rewrite append_assoc).
        apply IHtoken. rewrite noSpace_app, Hcur. simpl. now rewrite Ec.
    + simpl. destruct (JsString.isSpace c) eqn:Ec; [exact IHgap |].
      apply (IHtoken (String c "")). simpl. now rewrite Ec.
Qed.

Lemma split_ws_splits (query : string) :
  splitsInto query (JsString.split_ws query).
Proof. apply (proj1 (split_from_splits query) ""). reflexivity. Qed.

Lemma noSpace_separator (sep rest : string) :
  sep <> "" -> JsString.allSpace sep = true -> noSpace (sep ++ rest) = false.
Proof.
  destruct sep as [| c sep]; [congruence |].
  simpl. intros _ H. apply andb_true_iff in H as [-> _]. reflexivity.
Qed.

Lemma beginsWithSpace_separator (sep rest : string) :
  sep <> "" -> JsString.allSpace sep = true ->
  beginsWithSpace (sep ++ rest) = true.
Proof.
  destruct sep as [| c sep]; [congruence |].
  simpl. intros _ H. now apply andb_true_iff in H as [-> _].
Qed.

(** A string splits in one way only into a piece free of white space
    followed by a rest that begins with white space. *)
Lemma token_unique (t t' r r' : string) :
  noSpace t = true -> noSpace t' = true ->
  beginsWithSpace r = true -> beginsWithSpace r' = true ->
  (t ++ r = t' ++ r')%string -> t = t' /\ r = r'.
Proof.
  revert t'. induction t as [| c t IH]; intros t' Ht Ht' Hr Hr' Heq.
  - destruct t' as [| c' t']; [now split |].
    simpl in Heq. subst r. simpl in Hr, Ht'.
    rewrite Hr in Ht'. discriminate Ht'.
  - destruct t' as [| c' t'].
    + simpl in Heq. subst r'. simpl in Hr', Ht.
      rewrite Hr' in Ht. discriminate Ht.
    + simpl in Heq. injection Heq as -> Heq.
      simpl in Ht, Ht'. apply andb_true_iff in Ht as [_ Ht].
      apply andb_true_iff in Ht' as [_ Ht'].
      destruct (IH t' Ht Ht' Hr Hr' Heq) as [-> ->]. now split.
Qed.

(** ... and in one way only into a run of white space followed by a rest
    that does not begin with white space. *)
Lemma separator_unique (sep sep' r r' : string) :
  JsString.allSpace sep = true -> JsString.allSpace sep' = true ->
  beginsWithSpace r = false -> beginsWithSpace r' = false ->
  (sep ++ r = sep' ++ r')%string -> sep = sep' /\ r = r'.
Proof.
  revert sep'. induction sep as [| c sep IH]; intros sep' Hs Hs' Hr Hr' Heq.
  - destruct sep' as [| c' sep']; [now split |].
    simpl in Heq. subst r. simpl in Hr, Hs'.
    rewrite Hr in Hs'. discriminate Hs'.
  - destruct sep' as [| c' sep'].
    + simpl in Heq. subst r'. simpl in Hr', Hs.
      rewrite Hr' in Hs. discriminate Hs.
    + simpl in Heq. injection Heq as -> Heq.
      simpl in Hs, Hs'. apply andb_true_iff in Hs as [_ Hs].
      apply andb_true_iff in Hs' as [_ Hs'].
      destruct (IH sep' Hs Hs' Hr Hr' Heq) as [-> ->]. now split.
Qed.

(** The tokens of a query are determined by the query. *)
Lemma splitsInto_unique (query : string) (tokens tokens' : list string) :
  splitsInto query tokens -> splitsInto query tokens' -> tokens = tokens'.
Proof.
  intros H. revert tokens'.
  induction H as [token Htoken | token sep rest tokens Htoken Hne Hsep Hrest _ IH];
    intros tokens' H'.
  - inversion H' as [token' Htoken' | token' sep' rest' tokens'' Htoken' Hne' Hsep' Hrest' _ Heq];
      subst; [reflexivity |].
    rewrite noSpace_app, (noSpace_separator sep' rest' Hne' Hsep') in Htoken.
    rewrite andb_false_r in Htoken. discriminate Htoken.
  - inversion H' as [token' Htoken' Heq | token' sep' rest' tokens'' Htoken' Hne' Hsep' Hrest' Hsplit' Heq];
      subst.
    + rewrite noSpace_app, (noSpace_separator sep rest Hne Hsep) in Htoken'.
      rewrite andb_false_r in Htoken'. discriminate Htoken'.
    + destruct (token_unique token' token (sep' ++ rest') (sep ++ rest)
                  Htoken' Htoken
                  (beginsWithSpace_separator sep' rest' Hne' Hsep')
                  (beginsWithSpace_separator sep rest Hne Hsep) Heq)
        as [-> Heq'].
      destruct (separator_unique sep' sep rest' rest Hsep' Hsep Hrest' Hrest Heq')
        as [_ ->].
      f_equal. now apply IH.
Qed.

(** *** [toLowerCase] identifies exactly the strings equal up to case *)

Lemma isCapital_code (c : ascii) :
  JsString.isCapital c = true <-> capitalCode (nat_of_ascii c).
Proof.
  unfold JsString.isCapital, capitalCode. cbv zeta.
  rewrite !orb_true_iff, !andb_true_iff, !Nat.leb_le. tauto.
Qed.

Lemma lowerChar_code (c : ascii) :
  nat_of_ascii (JsString.lowerChar c)
  = if JsString.isCapital c then (nat_of_ascii c + 32)%nat else nat_of_ascii c.
Proof.
  unfold JsString.lowerChar. destruct (JsString.isCapital c) eqn:E; [| reflexivity].
  apply nat_ascii_embedding. apply isCapital_code in E.
  unfold capitalCode in E. lia.
Qed.

Lemma nat_of_ascii_inj (a b : ascii) : nat_of_ascii a = nat_of_ascii b -> a = b.
Proof.
  intros H. rewrite <- (ascii_nat_embedding a), <- (ascii_nat_embedding b).
  now rewrite H.
Qed.

Lemma lowerChar_same (a b : ascii) :
  JsString.lowerChar a = JsString.lowerChar b <-> sameLetter a b.
Proof.
  assert (Hcode : JsString.lowerChar a = JsString.lowerChar b <->
                  nat_of_ascii (JsString.lowerChar a)
                  = nat_of_ascii (JsString.lowerChar b))
    by (split; [now intros -> | apply nat_of_ascii_inj]).
  rewrite Hcode, !lowerChar_code. unfold sameLetter.
  pose proof (isCapital_code a) as Ha. pose proof (isCapital_code b) as Hb.
  assert (Hab : a = b <-> nat_of_ascii a = nat_of_ascii b)
    by (split; [now intros -> | apply nat_of_ascii_inj]).
  rewrite Hab.
  destruct (JsString.isCapital a), (JsString.isCapital b);
    unfold capitalCode in *;
    repeat match goal with
           | H : true = true <-> _ |- _ => pose proof (proj1 H eq_refl); clear H
           | H : false = true <-> ?P |- _ =>
               assert (~ P) by (intros HP; apply H in HP; discriminate HP);
               clear H
           end;
    lia.
Qed.

Lemma toLowerCase_equal (s t : string) :
  JsString.toLowerCase s = JsString.toLowerCase t <-> equalIgnoringCase s t.
Proof.
  revert t. induction s as [| a s IH]; intros [| b t]; simpl.
  - split; [constructor | reflexivity].
  - split; [discriminate | intros H; inversion H].
  - split; [discriminate | intros H; inversion H].
  - split.
    + intros H. injection H as Hc Hs. constructor.
      * now apply lowerChar_same.
      * now apply IH.
    + intros H. inversion H as [| ? ? ? ? Hc Hs]; subst.
      apply lowerChar_same in Hc. apply IH in Hs. congruence.
Qed.

Lemma containsIgnoringCase_occurs (text token : string) :
  containsIgnoringCase text token <-> occursIgnoringCase token text.
Proof.
  unfold containsIgnoringCase, occursIgnoringCase.
  split; intros (pre & mid & post & Htext & Hmid); exists pre, mid, post;
    (split; [exact Htext | now apply toLowerCase_equal]).
Qed.

(** The filter of the text search, in the words of the specification. *)
Lemma matchesQuery_words (query : string) (tokens : list string)
      (point : StoredPoint.t) :
  splitsInto query tokens ->
  (matchesQuery (JsString.split_ws (JsString.toLowerCase query)) point = true <->
   exists token,
     In token tokens /\
     occursIgnoringCase token (storedText (StoredPoint.payload point))).
Proof.
  intros Hsplit.
  rewrite (splitsInto_unique query tokens (JsString.split_ws query) Hsplit
             (split_ws_splits query)).
  rewrite matchesQuery_tokens. unfold storedText.
  split; intros [token [Hin Hocc]]; exists token;
    (split; [exact Hin | now apply containsIgnoringCase_occurs]).
Qed.



(** C10: without an embedding service, a query that is empty or consists
    of white space only matches every scanned point: the first piece of the
    split is the empty string, which every text contains.  The results are
    then the first [limit] points of the scanned pages, in collection
    order. *)
Theorem C10_blank_query_matches_everything (cfg : Config) (W : World)
        (args : Args.t) (s : Server) :
  serviceAfterInit W s = None ->
  JsString.allSpace (Args.query args) = true ->
  (0 <= limitOf args)%Z ->
  let scanned c :=
    match scroll W c 100 with
    | Ok points => map (renderStored W c) points
    | Fail _ => []
    end in
  let results :=
    firstn (Z.to_nat (limitOf args)) (flat_map scanned (voyageNames W)) in
  In "" (JsString.split_ws (JsString.toLowerCase (Args.query args))) /\
  (forall point,
     matchesQuery (JsString.split_ws (JsString.toLowerCase (Args.query args)))
                  point = true) /\
  textResults W args = results /\
  value (handleReflectOnPast cfg W args s) = Ok (respond W results).
Proof.
  intros Hnone Hblank Hlimit scanned results.
  assert (Hall : forall point,
             matchesQuery (JsString.split_ws
                             (JsString.toLowerCase (Args.query args)))
                          point = true)
    by (intros; now apply matchesQuery_blank).
  assert (Hres : textResults W args = results).
  { unfold textResults, mergeFlat. rewrite slice0_nonneg by assumption.
    subst results. f_equal. rewrite <- flat_map_concat_map.
    apply flat_map_ext. intros c. unfold scanResults. subst scanned. simpl.
    destruct (scroll W c 100) as [points | e]; [| reflexivity].
    now rewrite filter_all by (intros; apply Hall). }
  split.
  - rewrite <- allSpace_toLowerCase in Hblank.
    destruct (split_ws_allSpace _ Hblank) as [rest ->]. now left.
  - split; [exact Hall |]. split; [exact Hres |].
    rewrite (handle_text cfg W args s Hnone). cbn [value]. now rewrite Hres.
Qed.

(** C10 on the query of two blanks: both scanned points are returned. *)
Lemma C10_blank_query_matches_everything_witness :
  value (handleReflectOnPast Scenario.hybridConfig Scenario.degradedWorld
           Scenario.blankQuery Scenario.freshServer)
  = Ok (Found
          [renderStored Scenario.degradedWorld "conv_projA_voyage"
             (StoredPoint.mk "1"
                (Scenario.textPayload "discussed database indexing strategy" None));
           renderStored Scenario.degradedWorld "conv_projB_voyage"
             (StoredPoint.mk "1"
                (Scenario.textPayload "discussed database indexing strategy" None))]).
Proof.
  refine (proj2 (proj2 (proj2
            (C10_blank_query_matches_everything
               Scenario.hybridConfig Scenario.degradedWorld
               Scenario.blankQuery Scenario.freshServer _ _ _)))).
  - reflexivity.
  - reflexivity.
  - unfold limitOf. simpl. lia.
Defined.

(** ** Rendering *)

(** C9, as stated, would have a text of at most 500 characters rendered
    unchanged.  The two-character text ["hi"] is rendered with the ellipsis
    appended. *)
Lemma C9_short_text_gets_ellipsis :
  (String.length (storedText (Scenario.textPayload "hi" None)) <= 500)%nat /\
  excerptOf (Scenario.textPayload "hi" None) = "hi..." /\
  excerptOf (Scenario.textPayload "hi" None)
    <> storedText (Scenario.textPayload "hi" None).
Proof.
  split; [simpl; lia |]. split; [reflexivity | discriminate].
Qed.

(** C9, amended: the excerpt of every rendered result, in vector search and
    in text search alike, is the first 500 characters of the stored text
    (the empty string when there is none) followed by ["..."], whether or
    not anything was cut: a text of at most 500 characters is rendered as
    the text followed by ["..."], a longer one loses a non-empty rest. *)
Theorem C9_excerpt_always_ellipsis (W : World) (c : string) (p : Payload.t) :
  let text := storedText p in
  (forall id score,
     SearchResult.excerpt (renderScored W c (ScoredPoint.mk id score p))
     = excerptOf p) /\
  (forall id,
     SearchResult.excerpt (renderStored W c (StoredPoint.mk id p))
     = excerptOf p) /\
  excerptOf p = (JsString.substring0 text 500 ++ "...")%string /\
  String.length (excerptOf p) = (Nat.min 500 (String.length text) + 3)%nat /\
  ((String.length text <= 500)%nat -> excerptOf p = (text ++ "...")%string) /\
  ((500 < String.length text)%nat ->
   exists rest, rest <> "" /\
                text = (JsString.substring0 text 500 ++ rest)%string).
Proof.
  intros text.
  split; [reflexivity |]. split; [reflexivity |]. split; [reflexivity |].
  split; [| split].
  - unfold excerptOf. fold (storedText p). fold text.
    now rewrite length_append, substring0_length.
  - intros Hshort. unfold excerptOf. fold (storedText p). fold text.
    now rewrite substring0_short.
  - intros Hlong. destruct (substring0_prefix text 500) as [rest [H1 [_ H3]]].
    exists rest. split; [now apply H3 | exact H1].
Qed.

(** ** Request validation and project isolation *)

(** C8, as stated, would have a request with [limit = 0] refused before
    any call.  It is served: the handler tries to create the embedding
    service, lists the collections, scrolls both Voyage collections, lists
    the collections again and returns the "no results" text. *)
Lemma C8_zero_limit_is_served :
  (limitOf Scenario.zeroLimitQuery <= 0)%Z /\
  handleReflectOnPast Scenario.hybridConfig Scenario.degradedWorld
    Scenario.zeroLimitQuery Scenario.freshServer
  = mkRun (Ok (NoResults 2)) Scenario.freshServer
          [CreateEmbeddingService; GetCollections;
           Scroll "conv_projA_voyage" 100; Scroll "conv_projB_voyage" 100;
           GetCollections] /\
  ~ rejectedBeforeIO
      (handleReflectOnPast Scenario.hybridConfig Scenario.degradedWorld
         Scenario.zeroLimitQuery Scenario.freshServer).
Proof.
  split; [unfold limitOf; simpl; lia |].
  split; [reflexivity |].
  intros [_ Htrace]. discriminate Htrace.
Qed.

Lemma handle_head (cfg : Config) (W : World) (args : Args.t) (s : Server) :
  let run := handleReflectOnPast cfg W args s in
  (embeddingService s = None ->
   hd_error (trace run) = Some CreateEmbeddingService) /\
  (forall es, embeddingService s = Some es ->
              hd_error (trace run) = Some (GenerateEmbedding (Args.query args))) /\
  (forall es, embeddingService s = None ->
              createEmbeddingService W = Ok es ->
              nth_error (trace run) 1
                = Some (GenerateEmbedding (Args.query args))).
Proof.
  intros run. subst run. split; [| split].
  - intros Hnone. destruct (serviceAfterInit W s) as [es |] eqn:Es.
    + rewrite (handle_vector cfg W args s es Es). unfold initTrace.
      rewrite Hnone.
      destruct (generateEmbedding es (Args.query args));
        [destruct (List.length (voyageNames W) =? 0)%nat |]; reflexivity.
    + rewrite (handle_text cfg W args s Es). unfold initTrace.
      now rewrite Hnone.
  - intros es Hsome.
    assert (Es : serviceAfterInit W s = Some es)
      by (unfold serviceAfterInit; now rewrite Hsome).
    rewrite (handle_vector cfg W args s es Es). unfold initTrace.
    rewrite Hsome.
    destruct (generateEmbedding es (Args.query args));
      [destruct (List.length (voyageNames W) =? 0)%nat |]; reflexivity.
  - intros es Hnone Hok.
    assert (Es : serviceAfterInit W s = Some es)
      by (unfold serviceAfterInit; now rewrite Hnone, Hok).
    rewrite (handle_vector cfg W args s es Es). unfold initTrace.
    rewrite Hnone.
    destruct (generateEmbedding es (Args.query args));
      [destruct (List.length (voyageNames W) =? 0)%nat |]; reflexivity.
Qed.

Lemma handle_fails_iff (cfg : Config) (W : World) (args : Args.t) (s : Server)
      (e : Exn) :
  value (handleReflectOnPast cfg W args s) = Fail e <->
  exists es cause,
    serviceAfterInit W s = Some es /\
    generateEmbedding es (Args.query args) = Fail cause /\
    e = McpError InternalError
          ("Failed to search conversations: " ++ exn_message cause).
Proof.
  split; [apply handle_fails |].
  intros (es & cause & Es & Hg & ->).
  now rewrite (handle_vector cfg W args s es Es), Hg.
Qed.

(** C8, amended: the handler checks neither [limit] nor [minScore], and no
    call is ever refused as [InvalidRequest].  A call with an arguments
    object, whatever its [limit] and [minScore], begins with a call to the
    embedding provider: the creation of the service when the server has
    none (followed, when that succeeds, by the embedding of the query), the
    embedding of the query when it has one; it fails exactly when the
    embedding of the query fails, and then with [InternalError].  A call
    without an arguments object fails with the [TypeError] of the
    destructuring, before any call. *)
Theorem C8_no_validation (cfg : Config) (W : World)
        (arguments : option Args.t) (s : Server) :
  let run := handleReflectOnPastAny cfg W arguments s in
  (forall message, value run <> Fail (McpError InvalidRequest message)) /\
  ~ rejectedBeforeIO run /\
  (arguments = None ->
   exists message, run = mkRun (Fail (Error message)) s []) /\
  (forall args,
     arguments = Some args ->
     (embeddingService s = None ->
      hd_error (trace run) = Some CreateEmbeddingService) /\
     (forall es, embeddingService s = Some es ->
                 hd_error (trace run)
                   = Some (GenerateEmbedding (Args.query args))) /\
     (forall es, embeddingService s = None ->
                 createEmbeddingService W = Ok es ->
                 nth_error (trace run) 1
                   = Some (GenerateEmbedding (Args.query args))) /\
     (forall e,
        value run = Fail e <->
        exists es cause,
          serviceAfterInit W s = Some es /\
          generateEmbedding es (Args.query args) = Fail cause /\
          e = McpError InternalError
                ("Failed to search conversations: " ++ exn_message cause))).
Proof.
  intros run.
  assert (Hnever : forall message,
             value run <> Fail (McpError InvalidRequest message)).
  { intros message H. subst run. destruct arguments as [args |].
    - apply handle_fails in H as (es & cause & _ & _ & H). discriminate H.
    - discriminate H. }
  split; [exact Hnever |]. split; [| split].
  - intros [[message H] _]. exact (Hnever message H).
  - intros ->. eexists. reflexivity.
  - intros args ->. subst run. cbn [handleReflectOnPastAny].
    destruct (handle_head cfg W args s) as (H1 & H2 & H3).
    repeat split; try assumption; apply handle_fails_iff.
Qed.

(** The isolation settings and the [project] and [crossProject] arguments
    have no influence on a search: two requests that differ only in them
    make the same calls and return the same response. *)
Lemma isolation_settings_ignored
      (mode mode' : IsolationMode) (allow allow' : bool)
      (decay : bool) (w d : R) (W : World)
      (query : string) (limit : option Z) (minScore : option R)
      (useDecay : option bool)
      (project project' : option string) (crossProject crossProject' : option bool)
      (es : option EmbeddingService) (current current' : option string) :
  let run :=
    handleReflectOnPast (mkConfig mode allow decay w d) W
      (Args.mk query limit project minScore crossProject useDecay)
      (mkServer es current) in
  let run' :=
    handleReflectOnPast (mkConfig mode' allow' decay w d) W
      (Args.mk query limit project' minScore crossProject' useDecay)
      (mkServer es current') in
  value run = value run' /\ trace run = trace run'.
Proof.
  intros run run'. subst run run'.
  destruct es as [es |].
  - rewrite (handle_vector _ W _ (mkServer (Some es) current) es eq_refl),
      (handle_vector _ W _ (mkServer (Some es) current') es eq_refl).
    cbn [Args.query].
    destruct (generateEmbedding es query); [| split; reflexivity].
    destruct (List.length (voyageNames W) =? 0)%nat; split; reflexivity.
  - destruct (createEmbeddingService W) as [es | e] eqn:Ec.
    + assert (Hs : forall cur, serviceAfterInit W (mkServer None cur) = Some es)
        by (intros; unfold serviceAfterInit; cbn [embeddingService];
            now rewrite Ec).
      rewrite (handle_vector _ W _ (mkServer None current) es (Hs _)),
        (handle_vector _ W _ (mkServer None current') es (Hs _)).
      cbn [Args.query].
      destruct (generateEmbedding es query); [| split; reflexivity].
      destruct (List.length (voyageNames W) =? 0)%nat; split; reflexivity.
    + assert (Hs : forall cur, serviceAfterInit W (mkServer None cur) = None)
        by (intros; unfold serviceAfterInit; cbn [embeddingService];
            now rewrite Ec).
      rewrite (handle_text _ W _ (mkServer None current) (Hs _)),
        (handle_text _ W _ (mkServer None current') (Hs _)).
      split; reflexivity.
Qed.

(** C3: isolation mode [hybrid], [crossProject = false], current project
    [projA].  The search returns a result from project B's collection: the
    handler never consults the isolation settings. *)
Lemma C3_hybrid_search_leaks_other_project :
  ISOLATION_MODE Scenario.hybridConfig = hybrid /\
  Args.crossProject Scenario.indexingQuery = Some false /\
  currentProject Scenario.freshServer = Some "projA" /\
  exists fromA fromB,
    value (handleReflectOnPast Scenario.hybridConfig Scenario.degradedWorld
             Scenario.indexingQuery Scenario.freshServer)
    = Ok (Found [fromA; fromB]) /\
    SearchResult.collectionName fromA = "conv_projA_voyage" /\
    SearchResult.projectName fromA = "projA" /\
    SearchResult.collectionName fromB = "conv_projB_voyage" /\
    SearchResult.projectName fromB = "projB".
Proof.
  repeat (split; [reflexivity |]).
  do 2 eexists. repeat split; reflexivity.
Qed.

(** * Further properties of the code *)

(** ** Truncation composes with the sort *)

Section TopK.
Context {A : Type} (key : A -> R).

Lemma insert_desc_in x l y : In y (insert_desc key x l) <-> y = x \/ In y l.
Proof.
  split; intros H.
  - eapply Permutation_in in H; [| apply Permutation_sym, insert_desc_perm].
    destruct H as [<- | H]; auto.
  - eapply Permutation_in; [apply insert_desc_perm |].
    destruct H as [-> | H]; [now left | now right].
Qed.

Lemma insert_desc_length x l :
  List.length (insert_desc key x l) = S (List.length l).
Proof.
  symmetry. apply (Permutation_length (insert_desc_perm key x l)).
Qed.

Lemma firstn_insert_desc k x s :
  firstn k (insert_desc key x s) = firstn k (insert_desc key x (firstn k s)).
Proof.
  revert k. induction s as [| y s IH]; intros k.
  - now rewrite firstn_nil.
  - destruct k as [| k]; [reflexivity |].
    rewrite (firstn_cons k y s). cbn [insert_desc].
    destruct (JsArray.Rltb (key x) (key y)).
    + rewrite !firstn_cons. now rewrite IH.
    + rewrite !firstn_cons. f_equal. destruct k as [| k]; [reflexivity |].
      rewrite !firstn_cons. f_equal.
      rewrite firstn_firstn. f_equal. lia.
Qed.

Lemma firstn_fold_insert k t a :
  firstn k (fold_right (insert_desc key) t a)
  = firstn k (fold_right (insert_desc key) (firstn k t) a).
Proof.
  induction a as [| x a IH]; simpl.
  - now rewrite firstn_firstn, Nat.min_id.
  - rewrite firstn_insert_desc, IH, <- firstn_insert_desc. reflexivity.
Qed.

Lemma sort_desc_app l1 l2 :
  sort_desc key (l1 ++ l2)
  = fold_right (insert_desc key) (sort_desc key l2) l1.
Proof. unfold sort_desc. apply fold_right_app. Qed.

Lemma sort_desc_of_sorted l :
  StronglySorted (desc key) l -> sort_desc key l = l.
Proof.
  intros Hs. symmetry. now apply sort_desc_unique.
Qed.

Lemma sorted_firstn k l :
  StronglySorted (desc key) l -> StronglySorted (desc key) (firstn k l).
Proof.
  intros Hs. rewrite <- (firstn_skipn k l) in Hs.
  now apply sorted_app_left in Hs.
Qed.

(** Only the best [k] of the lists merged later matter. *)
Lemma top_app_right k l1 l2 :
  firstn k (sort_desc key (l1 ++ l2))
  = firstn k (sort_desc key (l1 ++ firstn k (sort_desc key l2))).
Proof.
  rewrite !sort_desc_app.
  rewrite (sort_desc_of_sorted (firstn k (sort_desc key l2)))
    by apply sorted_firstn, sort_desc_sorted.
  apply firstn_fold_insert.
Qed.

Lemma insert_desc_app_stop e u rest :
  match rest with
  | [] => True
  | h :: _ => (key h <= key e)%R
  end ->
  insert_desc key e (u ++ rest) = insert_desc key e u ++ rest.
Proof.
  intros Hrest. induction u as [| y u IH]; simpl.
  - destruct rest as [| h r]; [reflexivity |].
    simpl. now rewrite (proj2 (Rltb_false (key e) (key h))).
  - destruct (JsArray.Rltb (key e) (key y)); simpl; [now rewrite IH | reflexivity].
Qed.

Lemma insert_desc_app_pass e u rest :
  (forall y, In y u -> (key e < key y)%R) ->
  insert_desc key e (u ++ rest) = u ++ insert_desc key e rest.
Proof.
  induction u as [| y u IH]; intros Hu; [reflexivity |].
  simpl. rewrite (proj2 (Rltb_true (key e) (key y))) by (apply Hu; now left).
  f_equal. apply IH. intros z Hz. apply Hu. now right.
Qed.

(** Where an insertion lands in a descending array. *)
Lemma insert_desc_split x t :
  StronglySorted (desc key) t ->
  exists t1 t2,
    t = t1 ++ t2 /\ insert_desc key x t = t1 ++ x :: t2 /\
    (forall y, In y t1 -> (key x <= key y)%R) /\
    (forall y, In y t2 -> (key y <= key x)%R).
Proof.
  induction 1 as [| y t Hs IH Hall]; simpl.
  - exists [], []. repeat split; intros ? [].
  - destruct (JsArray.Rltb (key x) (key y)) eqn:E.
    + apply Rltb_true in E. destruct IH as (t1 & t2 & -> & -> & H1 & H2).
      exists (y :: t1), t2. repeat split; auto.
      intros z [<- | Hz]; [lra | now apply H1].
    + apply Rltb_false in E. exists [], (y :: t). repeat split; auto.
      * intros ? [].
      * rewrite Forall_forall in Hall.
        intros z [<- | Hz]; [exact E |].
        specialize (Hall z Hz). unfold desc in Hall. lra.
Qed.

(** An element with enough better elements in front of it in the input
    stays behind them through the sort. *)
Lemma fold_insert_behind x l1 t1 t2 :
  (forall y, In y t1 -> (key x <= key y)%R) ->
  (forall y, In y t2 -> (key y <= key x)%R) ->
  exists u1 u2,
    fold_right (insert_desc key) (t1 ++ x :: t2) l1 = u1 ++ x :: u2 /\
    fold_right (insert_desc key) (t1 ++ t2) l1 = u1 ++ u2 /\
    (forall y, In y u1 -> (key x <= key y)%R) /\
    (forall y, In y u2 -> (key y <= key x)%R) /\
    (List.length (filter (fun y => JsArray.Rgeb (key y) (key x)) l1)
     <= List.length u1)%nat.
Proof.
  intros H1 H2. induction l1 as [| e l1 IH]; simpl.
  - exists t1, t2. repeat split; auto. lia.
  - destruct IH as (u1 & u2 & -> & -> & Hu1 & Hu2 & Hlen).
    destruct (JsArray.Rgeb (key e) (key x)) eqn:E.
    + apply Rgeb_true in E.
      exists (insert_desc key e u1), u2.
      split; [now apply insert_desc_app_stop |].
      split.
      { apply insert_desc_app_stop. destruct u2 as [| h r]; [exact I |].
        specialize (Hu2 h (or_introl eq_refl)). lra. }
      split.
      { intros y Hy. apply insert_desc_in in Hy as [-> | Hy]; auto. }
      split; [exact Hu2 |].
      rewrite insert_desc_length. simpl. lia.
    + apply Rgeb_false in E.
      exists u1, (insert_desc key e u2).
      split.
      { rewrite insert_desc_app_pass
          by (intros y Hy; specialize (Hu1 y Hy); lra).
        simpl. now rewrite (proj2 (Rltb_true (key e) (key x))). }
      split.
      { apply insert_desc_app_pass. intros y Hy. specialize (Hu1 y Hy). lra. }
      split; [exact Hu1 |].
      split; [| exact Hlen].
      intros y Hy. apply insert_desc_in in Hy as [-> | Hy]; [lra | auto].
Qed.

Lemma filter_length_all (f : A -> bool) l :
  (forall y, In y l -> f y = true) ->
  List.length (filter f l) = List.length l.
Proof.
  induction l as [| y l IH]; intros H; [reflexivity |].
  simpl. rewrite (H y) by now left. simpl. f_equal.
  apply IH. intros z Hz. apply H. now right.
Qed.

(** What lies beyond the first [k] elements of a descending prefix of the
    input never reaches the first [k] places of the result. *)
Lemma top_drop_tail k a b m :
  StronglySorted (desc key) (a ++ b) -> (k <= List.length a)%nat ->
  firstn k (sort_desc key (a ++ b ++ m)) = firstn k (sort_desc key (a ++ m)).
Proof.
  revert m. induction b as [| x b IH] using rev_ind; intros m Hs Hk;
    [reflexivity |].
  rewrite <- app_assoc. simpl.
  assert (Hs' : StronglySorted (desc key) (a ++ b))
    by (rewrite app_assoc in Hs; now apply sorted_app_left in Hs).
  rewrite <- (IH m Hs' Hk).
  rewrite (app_assoc a b (x :: m)), (app_assoc a b m), !sort_desc_app.
  simpl.
  destruct (insert_desc_split x (sort_desc key m) (sort_desc_sorted key m))
    as (t1 & t2 & Ht & -> & H1 & H2).
  rewrite Ht.
  destruct (fold_insert_behind x (a ++ b) t1 t2 H1 H2)
    as (u1 & u2 & -> & -> & _ & _ & Hlen).
  assert (Hall : List.length (filter (fun y => JsArray.Rgeb (key y) (key x))
                                     (a ++ b)) = List.length (a ++ b)).
  { apply filter_length_all. intros y Hy. apply Rgeb_true.
    rewrite app_assoc in Hs.
    apply (sorted_app_desc key (a ++ b) [x] Hs y x Hy). now left. }
  rewrite Hall, length_app in Hlen.
  rewrite !firstn_app.
  replace (k - List.length u1)%nat with 0%nat by lia. reflexivity.
Qed.

(** Only the best [k] of the list merged first matter. *)
Lemma top_app_left k l m :
  firstn k (sort_desc key (firstn k (sort_desc key l) ++ m))
  = firstn k (sort_desc key (l ++ m)).
Proof.
  assert (Hsame : sort_desc key (l ++ m) = sort_desc key (sort_desc key l ++ m)).
  { symmetry. apply sort_desc_unique; [apply sort_desc_sorted |].
    intros v. rewrite sort_desc_filter
      by (intros x y Hx Hy; apply hasKey_true in Hx, Hy; congruence).
    rewrite !filter_app. f_equal. apply sort_desc_filter.
    intros x y Hx Hy. apply hasKey_true in Hx, Hy. congruence. }
  rewrite Hsame.
  destruct (Nat.le_gt_cases k (List.length (sort_desc key l))) as [Hle | Hgt].
  - rewrite <- (firstn_skipn k (sort_desc key l)) at 2.
    rewrite <- app_assoc. symmetry. apply top_drop_tail.
    + rewrite firstn_skipn. apply sort_desc_sorted.
    + rewrite length_firstn. lia.
  - now rewrite (@firstn_all2 _ k (sort_desc key l)) by lia.
Qed.

(** Cutting every list to its best [k] before the merge changes nothing
    in the best [k] of the merge. *)
Lemma top_concat_top k (ls : list (list A)) :
  firstn k (sort_desc key
              (List.concat (map (fun l => firstn k (sort_desc key l)) ls)))
  = firstn k (sort_desc key (List.concat ls)).
Proof.
  induction ls as [| l ls IH]; [reflexivity |].
  simpl. rewrite top_app_right, IH, <- top_app_right.
  apply top_app_left.
Qed.
End TopK.

Lemma insert_desc_map {A B} (keyA : A -> R) (keyB : B -> R) (f : A -> B) x l :
  (forall a, keyB (f a) = keyA a) ->
  insert_desc keyB (f x) (map f l) = map f (insert_desc keyA x l).
Proof.
  intros Hk. induction l as [| y l IH]; [reflexivity |].
  simpl. rewrite !Hk. destruct (JsArray.Rltb (keyA x) (keyA y)); simpl;
    [now rewrite IH | reflexivity].
Qed.

Lemma sort_desc_map {A B} (keyA : A -> R) (keyB : B -> R) (f : A -> B) l :
  (forall a, keyB (f a) = keyA a) ->
  sort_desc keyB (map f l) = map f (sort_desc keyA l).
Proof.
  intros Hk. induction l as [| x l IH]; [reflexivity |].
  simpl. rewrite IH. now apply insert_desc_map.
Qed.

Lemma slice0_map {A B} (f : A -> B) (l : list A) (limit : Z) :
  JsArray.slice0 (map f l) limit = map f (JsArray.slice0 l limit).
Proof.
  unfold JsArray.slice0. rewrite length_map. apply firstn_map.
Qed.

(** ** Vector search, end to end *)

Lemma renderScored_score W c p :
  SearchResult.score (renderScored W c p) = ScoredPoint.score p.
Proof. reflexivity. Qed.

Section VectorFacts.
Variable cfg : Config.
Variable W : World.
Variable adjust : ScoredPoint.t -> R.

Lemma collectionResultsWith_decay q minScore limit c :
  (0 <= limit)%Z ->
  collectionResultsWith W adjust true q minScore limit c
  = firstn (Z.to_nat limit)
      (sort_desc SearchResult.score
         (qualifyingResultsWith W adjust q minScore limit c)).
Proof.
  intros Hl. unfold collectionResultsWith, qualifyingResultsWith, searchAnswer,
    searchLimit, searchThreshold.
  destruct (search W c q (JsArray.ceil_times_3 limit) None) as [resp | e].
  - unfold decayFilterSortWith. fold (qualifyingWith adjust minScore resp).
    rewrite <- slice0_map, slice0_nonneg by assumption.
    now rewrite (sort_desc_map ScoredPoint.score SearchResult.score)
      by apply renderScored_score.
  - now rewrite firstn_nil.
Qed.

(** Cutting every collection to its best [limit] before the merge does not
    change the merged best [limit]. *)
Lemma vectorResultsWith_decay args q :
  shouldUseDecay cfg args = true -> (0 <= limitOf args)%Z ->
  vectorResultsWith cfg W adjust args q
  = JsArray.slice0
      (sort_desc SearchResult.score
         (List.concat (map (qualifyingResultsWith W adjust q (minScoreOf args)
                                                  (limitOf args))
                           (voyageNames W))))
      (limitOf args).
Proof.
  intros Hd Hl. unfold vectorResultsWith, mergeSorted. rewrite Hd.
  rewrite !slice0_nonneg by assumption.
  rewrite <- (top_concat_top SearchResult.score (Z.to_nat (limitOf args))
                (map (qualifyingResultsWith W adjust q (minScoreOf args)
                                            (limitOf args))
                     (voyageNames W))).
  rewrite map_map. f_equal. f_equal. f_equal.
  apply map_ext. intros c. now apply collectionResultsWith_decay.
Qed.
End VectorFacts.

(** X1: in plain mode (no decay) every Voyage collection is asked for
    [ceil(limit * 1.5)] candidates, the least integer [n] with
    [limit * 1.5 <= n], hence at least [limit] of them, with the store's
    score threshold set to [minScore]; the handler adds no filter of its own:
    the response is the [limit] best, by raw store score, of everything the
    store returned. *)
Theorem X1_plain_mode_trusts_store_threshold (cfg : Config) (W : World)
        (args : Args.t) (s : Server) (es : EmbeddingService) (q : list R) :
  shouldUseDecay cfg args = false ->
  serviceAfterInit W s = Some es ->
  generateEmbedding es (Args.query args) = Ok q ->
  voyageNames W <> [] ->
  let limit := limitOf args in
  let minScore := minScoreOf args in
  let count := JsArray.ceil_times_1_5 limit in
  let results :=
    JsArray.slice0
      (sort_desc SearchResult.score
         (List.concat (map (plainResults W q minScore limit) (voyageNames W))))
      limit in
  handleReflectOnPast cfg W args s
  = mkRun (Ok (respond W results)) (serverAfterInit W s)
          ((initTrace s ++ GenerateEmbedding (Args.query args) :: GetCollections
              :: map (fun c => Search c q count (Some minScore))
                     (voyageNames W))
             ++ respondTrace results) /\
  (2 * (count - 1) < 3 * limit <= 2 * count)%Z /\
  (forall c searchResponse,
     search W c q count (Some minScore) = Ok searchResponse ->
     plainResults W q minScore limit c
       = map (renderScored W c) searchResponse /\
     map SearchResult.score (plainResults W q minScore limit c)
       = map ScoredPoint.score searchResponse) /\
  ((0 <= limit)%Z -> (limit <= count)%Z).
Proof.
  intros Hd Hs Hq Hcs limit minScore count results.
  split; [| split; [| split]].
  - rewrite (handle_vector cfg W args s es Hs), Hq,
      (voyageNames_nonempty W Hcs).
    unfold vectorResults, vectorResultsWith, vectorTrace. rewrite Hd.
    reflexivity.
  - apply ceil_times_1_5_least.
  - intros c resp Hresp. unfold plainResults. fold count. rewrite Hresp.
    split; [reflexivity |]. rewrite map_map. reflexivity.
  - intros Hl. apply ceil_times_1_5_bounds. exact Hl.
Qed.

(** X1 on a store that answers with two candidates of raw score 0.6: with
    the default [limit = 5] each collection is asked for 8 candidates, and
    both candidates are returned although the default [minScore] is 0.7. *)
Lemma X1_plain_mode_trusts_store_threshold_witness :
  (2 * (8 - 1) < 3 * 5 <= 2 * 8)%Z /\
  map SearchResult.score
      (plainResults Scenario.decayWorld [] 0.7%R 5%Z "conv_projA_voyage")
  = [0.6%R; 0.6%R].
Proof.
  destruct (X1_plain_mode_trusts_store_threshold
              Scenario.hybridConfig Scenario.decayWorld Scenario.indexingQuery
              Scenario.freshServer
              (mkEmbeddingService "voyage-3" (fun _ => Ok [])) []
              eq_refl eq_refl eq_refl ltac:(discriminate))
    as (_ & Hcount & Hscores & _).
  split; [exact Hcount |].
  exact (proj2 (Hscores "conv_projA_voyage"
                        [Scenario.oldPoint; Scenario.undatedPoint] eq_refl)).
Defined.

Lemma adjustedScore_undated (cfg : Config) (W : World) (id : string) (score : R) :
  adjustedScore cfg W (Cases.candidate id score) = (score + DECAY_WEIGHT cfg)%R.
Proof.
  unfold adjustedScore. rewrite decayFactor_age_zero by reflexivity.
  cbn [ScoredPoint.score Cases.candidate]. ring.
Qed.

(** The five candidates of [Cases.twoStoreWorld] under weight 0.3 and
    threshold 0.75: four qualify, the two best are [a2] and [b1]. *)
Lemma twoStore_best :
  let cfg := Scenario.decayConfig in
  let W := Cases.twoStoreWorld in
  let qualifyingOf c :=
    match search W c [] (3 * 2)%Z None with
    | Ok searchResponse =>
        map (renderScored W c)
            (filter (fun point => JsArray.Rgeb (ScoredPoint.score point) 0.75%R)
                    (map (fun point =>
                            ScoredPoint.mk (ScoredPoint.id point)
                                           (adjustedScore cfg W point)
                                           (ScoredPoint.payload point))
                         searchResponse))
    | Fail _ => []
    end in
  JsArray.slice0
    (sort_desc SearchResult.score
       (List.concat (map qualifyingOf ["conv_projA_voyage"; "conv_projB_voyage"])))
    2%Z
  = [ renderScored W "conv_projA_voyage"
        (ScoredPoint.mk "a2" (0.7 + 0.3)%R (Scenario.textPayload "a2" None));
      renderScored W "conv_projB_voyage"
        (ScoredPoint.mk "b1" (0.6 + 0.3)%R (Scenario.textPayload "b1" None)) ].
Proof.
  intros cfg W qualifyingOf. subst qualifyingOf.
  cbn [map search W Cases.twoStoreWorld String.eqb Ascii.eqb Bool.eqb].
  fold (Cases.candidate "a1" 0.5) (Cases.candidate "a2" 0.7)
       (Cases.candidate "a3" 0.45) (Cases.candidate "b1" 0.6)
       (Cases.candidate "b2" 0.4).
  rewrite !adjustedScore_undated.
  cbn [DECAY_WEIGHT cfg Scenario.decayConfig Cases.candidate
       ScoredPoint.id ScoredPoint.payload].
  repeat (cbn [filter map List.concat app ScoredPoint.score];
          match goal with
          | |- context [JsArray.Rgeb ?x ?y] =>
              first [ rewrite (proj2 (Rgeb_true x y)) by lra
                    | rewrite (proj2 (Rgeb_false x y)) by lra ]
          end).
  cbn [filter map List.concat app].
  unfold sort_desc.
  repeat (cbn [fold_right insert_desc SearchResult.score renderScored
               toSearchResult ScoredPoint.score];
          match goal with
          | |- context [JsArray.Rltb ?x ?y] =>
              first [ rewrite (proj2 (Rltb_true x y)) by lra
                    | rewrite (proj2 (Rltb_false x y)) by lra ]
          end).
  reflexivity.
Qed.

(** X2: in decay mode the response is the [limit] best, by adjusted score,
    of all candidates of all collections that pass the threshold after
    decay: cutting each collection to its own best [limit] before the merge,
    as the handler does, loses no result.  The statement holds for every
    evaluation [adjust] of the decay formula, so for the exact one
    ([handleReflectOnPast]) and for the double-precision one alike. *)
Theorem X2_decay_mode_returns_global_best (cfg : Config) (W : World)
        (adjust : ScoredPoint.t -> R)
        (args : Args.t) (s : Server) (es : EmbeddingService) (q : list R) :
  shouldUseDecay cfg args = true ->
  (0 <= limitOf args)%Z ->
  serviceAfterInit W s = Some es ->
  generateEmbedding es (Args.query args) = Ok q ->
  voyageNames W <> [] ->
  let limit := limitOf args in
  let minScore := minScoreOf args in
  let qualifyingOf c :=
    match search W c q (3 * limit)%Z None with
    | Ok searchResponse =>
        map (renderScored W c)
            (filter (fun point => JsArray.Rgeb (ScoredPoint.score point) minScore)
                    (map (fun point =>
                            ScoredPoint.mk (ScoredPoint.id point) (adjust point)
                                           (ScoredPoint.payload point))
                         searchResponse))
    | Fail _ => []
    end in
  let best (results : list SearchResult.t) :=
    JsArray.slice0 (sort_desc SearchResult.score results) limit in
  value (handleReflectOnPastWith cfg W adjust args s)
  = Ok (respond W
          (best (List.concat (map (fun c => best (qualifyingOf c))
                                  (voyageNames W))))) /\
  best (List.concat (map (fun c => best (qualifyingOf c)) (voyageNames W)))
  = best (List.concat (map qualifyingOf (voyageNames W))).
Proof.
  intros Hd Hl Hs Hq Hcs limit minScore qualifyingOf best.
  assert (Hqual : forall c,
             qualifyingResultsWith W adjust q minScore limit c = qualifyingOf c).
  { intros c. unfold qualifyingResultsWith. now rewrite ceil_times_3_exact. }
  assert (Hcut : best (List.concat (map (fun c => best (qualifyingOf c))
                                        (voyageNames W)))
                 = best (List.concat (map qualifyingOf (voyageNames W)))).
  { subst best. cbv beta. rewrite !slice0_nonneg by assumption.
    rewrite <- (top_concat_top SearchResult.score (Z.to_nat limit)
                  (map qualifyingOf (voyageNames W))).
    rewrite map_map. f_equal. f_equal. f_equal.
    apply map_ext. intros c. now rewrite slice0_nonneg by assumption. }
  split; [| exact Hcut].
  rewrite (handleWith_vector cfg W adjust args s es Hs), Hq,
    (voyageNames_nonempty W Hcs).
  cbn [value]. rewrite vectorResultsWith_decay by assumption.
  rewrite Hcut. subst best. cbv beta. fold limit minScore.
  do 5 f_equal. apply map_ext. intros c. apply Hqual.
Qed.

(** X2 on two collections and [limit = 2]: project A's collection has three
    qualifying candidates, of which its own cut drops one; project B's has
    one; the response lists the best of A and the one of B. *)
Lemma X2_decay_mode_returns_global_best_witness :
  value (handleReflectOnPast Scenario.decayConfig Cases.twoStoreWorld
           Cases.bestTwoQuery Scenario.freshServer)
  = Ok (Found
          [ renderScored Cases.twoStoreWorld "conv_projA_voyage"
              (ScoredPoint.mk "a2" (0.7 + 0.3)%R
                              (Scenario.textPayload "a2" None));
            renderScored Cases.twoStoreWorld "conv_projB_voyage"
              (ScoredPoint.mk "b1" (0.6 + 0.3)%R
                              (Scenario.textPayload "b1" None)) ]).
Proof.
  destruct (X2_decay_mode_returns_global_best
              Scenario.decayConfig Cases.twoStoreWorld
              (adjustedScore Scenario.decayConfig Cases.twoStoreWorld)
              Cases.bestTwoQuery Scenario.freshServer
              (mkEmbeddingService "voyage-3" (fun _ => Ok [])) []
              eq_refl ltac:(unfold limitOf; simpl; lia) eq_refl eq_refl
              ltac:(discriminate))
    as (Hvalue & Hcut).
  refine (eq_trans Hvalue _).
  refine (eq_trans (f_equal (fun rs => Ok (respond Cases.twoStoreWorld rs)) Hcut) _).
  refine (f_equal (fun rs => Ok (respond Cases.twoStoreWorld rs)) twoStore_best).
Defined.

(** ** The response and the trace of a request *)

Section ResponseFacts.
Variable cfg : Config.
Variable W : World.

(** The results behind a [Found] response. *)
Lemma handle_found args s results :
  value (handleReflectOnPast cfg W args s) = Ok (Found results) ->
  results <> [] /\
  ((exists es q, serviceAfterInit W s = Some es /\
                 generateEmbedding es (Args.query args) = Ok q /\
                 results = vectorResults cfg W args q) \/
   (serviceAfterInit W s = None /\ results = textResults W args)).
Proof.
  intros Hv.
  assert (Hresp : forall rs, respond W rs = Found results ->
                             results <> [] /\ rs = results).
  { intros rs. unfold respond.
    destruct rs as [| r rs]; simpl; [discriminate |].
    intros H. injection H as <-. split; [discriminate | reflexivity]. }
  destruct (serviceAfterInit W s) as [es |] eqn:Es.
  - rewrite (handle_vector cfg W args s es Es) in Hv.
    destruct (generateEmbedding es (Args.query args)) as [q | e] eqn:Eg;
      [| discriminate Hv].
    destruct (List.length (voyageNames W) =? 0)%nat; [discriminate Hv |].
    cbn [value] in Hv. injection Hv as Hv.
    destruct (Hresp _ Hv) as [Hne Heq]. split; [exact Hne |].
    left. exists es, q. auto.
  - rewrite (handle_text cfg W args s Es) in Hv.
    cbn [value] in Hv. injection Hv as Hv.
    destruct (Hresp _ Hv) as [Hne Heq]. split; [exact Hne |]. right. auto.
Qed.

Lemma textResults_score args r :
  In r (textResults W args) -> SearchResult.score r = 0.5%R.
Proof.
  unfold textResults, mergeFlat. intros Hr. apply slice0_incl in Hr.
  apply in_concat in Hr as [l [Hl Hr]].
  apply in_map_iff in Hl as [c [<- _]].
  now apply scanResults_score in Hr.
Qed.

Lemma collectionResults_name decay q minScore limit c r :
  In r (collectionResults cfg W decay q minScore limit c) ->
  SearchResult.collectionName r = c.
Proof.
  unfold collectionResults, collectionResultsWith.
  destruct (searchAnswer W decay q minScore limit c); [| easy].
  rewrite in_map_iff. now intros [p [<- _]].
Qed.

Lemma scanResults_name query c r :
  In r (scanResults W query c) -> SearchResult.collectionName r = c.
Proof.
  unfold scanResults. destruct (scroll W c 100); [| easy].
  rewrite in_map_iff. now intros [p [<- _]].
Qed.

Lemma vectorResults_name args q r :
  In r (vectorResults cfg W args q) ->
  In (SearchResult.collectionName r) (voyageNames W).
Proof.
  unfold vectorResults, mergeSorted. intros Hr. apply slice0_incl in Hr.
  apply sort_desc_in in Hr.
  apply in_concat in Hr as [l [Hl Hr]].
  apply in_map_iff in Hl as [c [<- Hc]].
  now rewrite (collectionResults_name _ _ _ _ _ _ Hr).
Qed.

Lemma textResults_name args r :
  In r (textResults W args) ->
  In (SearchResult.collectionName r) (voyageNames W).
Proof.
  unfold textResults, mergeFlat. intros Hr. apply slice0_incl in Hr.
  apply in_concat in Hr as [l [Hl Hr]].
  apply in_map_iff in Hl as [c [<- Hc]].
  now rewrite (scanResults_name _ _ _ Hr).
Qed.

Lemma voyageNames_spec c :
  In c (voyageNames W) <->
  (exists collections, getCollections W = Ok collections /\ In c collections) /\
  JsString.endsWith c "_voyage" = true.
Proof.
  unfold voyageNames. destruct (getCollections W) as [cs | e].
  - rewrite filter_In. split.
    + intros [Hin He]. split; [now exists cs | exact He].
    + intros [[cs' [Heq Hin]] He]. injection Heq as <-. auto.
  - split; [easy | intros [[cs [Heq _]] _]; discriminate].
Qed.

Lemma handle_state args s :
  state (handleReflectOnPast cfg W args s) = serverAfterInit W s.
Proof.
  destruct (serviceAfterInit W s) as [es |] eqn:Es.
  - rewrite (handle_vector cfg W args s es Es).
    destruct (generateEmbedding es (Args.query args));
      [destruct (List.length (voyageNames W) =? 0)%nat |]; reflexivity.
  - now rewrite (handle_text cfg W args s Es).
Qed.
Lemma Forall_initTrace (P : Event -> Prop) s :
  P CreateEmbeddingService -> Forall P (initTrace s).
Proof.
  intros H. unfold initTrace. destruct (embeddingService s); repeat constructor.
  exact H.
Qed.

Lemma Forall_respondTrace (P : Event -> Prop) rs :
  P GetCollections -> Forall P (respondTrace rs).
Proof.
  intros H. unfold respondTrace.
  destruct (List.length rs =? 0)%nat; repeat constructor. exact H.
Qed.

Lemma Forall_vectorTrace (P : Event -> Prop) args q :
  (forall c limit threshold, In c (voyageNames W) ->
                             P (Search c q limit threshold)) ->
  Forall P (vectorTrace cfg W args q).
Proof.
  intros H. apply Forall_forall. intros ev Hin. unfold vectorTrace in Hin.
  apply in_map_iff in Hin as [c [<- Hc]]. now apply H.
Qed.

Lemma Forall_textTrace (P : Event -> Prop) :
  (forall c, In c (voyageNames W) -> P (Scroll c 100)) ->
  Forall P (textTrace W).
Proof.
  intros H. apply Forall_forall. intros ev Hin. unfold textTrace in Hin.
  apply in_map_iff in Hin as [c [<- Hc]]. now apply H.
Qed.

(** A property of events holds all along a request when it holds of each
    kind of call the handler can make. *)
Lemma handle_trace_Forall (P : Event -> Prop) args s :
  P CreateEmbeddingService ->
  P (GenerateEmbedding (Args.query args)) ->
  P GetCollections ->
  (forall c q limit threshold, In c (voyageNames W) ->
                               P (Search c q limit threshold)) ->
  (forall c, In c (voyageNames W) -> P (Scroll c 100)) ->
  Forall P (trace (handleReflectOnPast cfg W args s)).
Proof.
  intros Hc Hg Hl Hs Hsc.
  destruct (serviceAfterInit W s) as [es |] eqn:Es.
  - rewrite (handle_vector cfg W args s es Es).
    destruct (generateEmbedding es (Args.query args)) as [q | e];
      [destruct (List.length (voyageNames W) =? 0)%nat |]; cbn [trace];
      rewrite ?Forall_app; repeat split;
      auto using Forall_initTrace, Forall_respondTrace.
    + constructor; [exact Hg |]. constructor; [exact Hl |].
      apply Forall_vectorTrace. intros; now apply Hs.
  - rewrite (handle_text cfg W args s Es). cbn [trace].
    rewrite ?Forall_app; repeat split;
      auto using Forall_initTrace, Forall_respondTrace.
    constructor; [exact Hl |]. apply Forall_textTrace. exact Hsc.
Qed.

(** The trace of every request, event by event. *)
Lemma handle_trace_events args s ev :
  In ev (trace (handleReflectOnPast cfg W args s)) ->
  ev = CreateEmbeddingService \/
  ev = GenerateEmbedding (Args.query args) \/
  ev = GetCollections \/
  (exists c q limit threshold,
     ev = Search c q limit threshold /\ In c (voyageNames W)) \/
  (exists c, ev = Scroll c 100 /\ In c (voyageNames W)).
Proof.
  revert ev. apply Forall_forall. apply handle_trace_Forall; auto.
  - intros c q limit threshold Hc. do 3 right. left. now repeat eexists.
  - intros c Hc. do 4 right. now exists c.
Qed.

(** After the optional creation of the service the handler creates none. *)
Lemma handle_trace_after_init args s :
  exists rest,
    trace (handleReflectOnPast cfg W args s) = initTrace s ++ rest /\
    Forall (fun ev => ev <> CreateEmbeddingService) rest.
Proof.
  destruct (serviceAfterInit W s) as [es |] eqn:Es.
  - rewrite (handle_vector cfg W args s es Es).
    destruct (generateEmbedding es (Args.query args)) as [q | e];
      [destruct (List.length (voyageNames W) =? 0)%nat |]; cbn [trace];
      rewrite <- ?app_assoc; eexists; (split; [reflexivity |]);
      rewrite ?Forall_app; repeat split; repeat constructor;
      try discriminate;
      try (apply Forall_vectorTrace; intros; discriminate);
      try (apply Forall_respondTrace; discriminate).
  - rewrite (handle_text cfg W args s Es). cbn [trace].
    rewrite <- ?app_assoc; eexists; (split; [reflexivity |]).
    rewrite ?Forall_app; repeat split; repeat constructor;
      try discriminate;
      try (apply Forall_textTrace; intros; discriminate);
      try (apply Forall_respondTrace; discriminate).
Qed.

(** How many results a [Found] response lists. *)
Lemma handle_found_length args s results :
  value (handleReflectOnPast cfg W args s) = Ok (Found results) ->
  (0 <= limitOf args)%Z ->
  (1 <= List.length results <= Z.to_nat (limitOf args))%nat.
Proof.
  intros Hv Hl. destruct (handle_found args s results Hv) as [Hne Hcase].
  assert (Hlen : forall l : list SearchResult.t,
             results = JsArray.slice0 l (limitOf args) ->
             (1 <= List.length results <= Z.to_nat (limitOf args))%nat).
  { intros l ->. rewrite slice0_length by assumption.
    assert (List.length (JsArray.slice0 l (limitOf args)) <> 0%nat)
      by (intros H0; apply Hne; now apply length_zero_iff_nil).
    rewrite slice0_length in H by assumption. lia. }
  destruct Hcase as [(es & q & _ & _ & Heq) | [_ Heq]]; now apply (Hlen _ Heq).
Qed.
(** The only exception the handler lets out. *)
Lemma handle_error args s e :
  value (handleReflectOnPast cfg W args s) = Fail e ->
  exists message, e = McpError InternalError message.
Proof.
  intros He. destruct (serviceAfterInit W s) as [es |] eqn:Es.
  - rewrite (handle_vector cfg W args s es Es) in He.
    destruct (generateEmbedding es (Args.query args));
      [destruct (List.length (voyageNames W) =? 0)%nat; discriminate He |].
    cbn [value] in He. injection He as <-. now eexists.
  - rewrite (handle_text cfg W args s Es) in He. discriminate He.
Qed.
End ResponseFacts.

(** X3: a response that lists results lists at least one; with a
    non-negative [limit] it lists at most [limit] (so [limit] is then at
    least 1); and the results are in descending order of score, in vector
    search and in text search alike. *)
Theorem X3_found_results_are_bounded_and_ordered (cfg : Config) (W : World)
        (args : Args.t) (s : Server) (results : list SearchResult.t) :
  value (handleReflectOnPast cfg W args s) = Ok (Found results) ->
  results <> [] /\
  StronglySorted (desc SearchResult.score) results /\
  ((0 <= limitOf args)%Z ->
   (1 <= List.length results <= Z.to_nat (limitOf args))%nat).
Proof.
  intros Hv. destruct (handle_found cfg W args s results Hv) as [Hne Hcase].
  split; [exact Hne |].
  split; [| intros Hl; now apply (handle_found_length cfg W args s results Hv)].
  destruct Hcase as [(es & q & _ & _ & Heq) | [_ Heq]].
  - rewrite Heq. unfold vectorResults, mergeSorted.
    apply slice0_sorted, sort_desc_sorted.
  - rewrite Heq. unfold textResults.
    rewrite (mergeFlat_constant _ _ 0.5%R).
    + unfold mergeSorted. apply slice0_sorted, sort_desc_sorted.
    + intros r Hr. apply in_concat in Hr as [l [Hl Hr]].
      apply in_map_iff in Hl as [c [<- _]].
      now apply scanResults_score in Hr.
Qed.

(** X3 on the text search for "indexing" over two collections. *)
Lemma X3_found_results_are_bounded_and_ordered_witness :
  StronglySorted (desc SearchResult.score)
    [renderStored Scenario.degradedWorld "conv_projA_voyage"
       (StoredPoint.mk "1"
          (Scenario.textPayload "discussed database indexing strategy" None));
     renderStored Scenario.degradedWorld "conv_projB_voyage"
       (StoredPoint.mk "1"
          (Scenario.textPayload "discussed database indexing strategy" None))].
Proof.
  refine (proj1 (proj2
            (X3_found_results_are_bounded_and_ordered
               Scenario.hybridConfig Scenario.degradedWorld
               Scenario.indexingQuery Scenario.freshServer _ _))).
  reflexivity.
Defined.

(** X4: the only collections a request ever searches or scrolls are those
    the store lists under a name ending in ["_voyage"], and every result
    names such a collection as its source; any other collection of the store
    is never read. *)
Theorem X4_only_voyage_collections_are_read (cfg : Config) (W : World)
        (args : Args.t) (s : Server) :
  let run := handleReflectOnPast cfg W args s in
  let listedVoyage c :=
    (exists collections, getCollections W = Ok collections /\ In c collections) /\
    JsString.endsWith c "_voyage" = true in
  (forall ev c, In ev (trace run) -> eventCollection ev = Some c ->
                listedVoyage c) /\
  (forall results r, value run = Ok (Found results) -> In r results ->
                     listedVoyage (SearchResult.collectionName r)) /\
  (forall c, listedVoyage c <-> In c (voyageNames W)).
Proof.
  intros run listedVoyage. subst run listedVoyage. split; [| split].
  - intros ev c Hev Hc. apply voyageNames_spec.
    apply handle_trace_events in Hev
      as [-> | [-> | [-> | [(c' & q & l & t & -> & Hin) | (c' & -> & Hin)]]]];
      try discriminate Hc; simpl in Hc; injection Hc as <-; exact Hin.
  - intros results r Hv Hr. apply voyageNames_spec.
    destruct (handle_found cfg W args s results Hv)
      as [_ [(es & q & _ & _ & ->) | [_ ->]]].
    + now apply vectorResults_name in Hr.
    + now apply textResults_name in Hr.
  - intros c. symmetry. apply voyageNames_spec.
Qed.

(** X5: when the store cannot list its collections the request still
    returns normally and reads no collection: with an embedding service it
    answers "no Voyage collections", without one it answers "no results";
    only a failing embedding of the query makes it fail. *)
Theorem X5_listing_failure_is_absorbed (cfg : Config) (W : World)
        (args : Args.t) (s : Server) (e : Exn) :
  getCollections W = Fail e ->
  let run := handleReflectOnPast cfg W args s in
  value (getVoyageCollections W s) = Ok [] /\
  (forall ev, In ev (trace run) -> eventCollection ev = None) /\
  value run =
    match serviceAfterInit W s with
    | Some es =>
        match generateEmbedding es (Args.query args) with
        | Ok _ => Ok NoVoyageCollections
        | Fail e' =>
            Fail (McpError InternalError
                    ("Failed to search conversations: " ++ exn_message e'))
        end
    | None => Ok (NoResults 0)
    end.
Proof.
  intros He run. subst run.
  assert (Hnames : voyageNames W = []) by (unfold voyageNames; now rewrite He).
  split; [| split].
  - rewrite getVoyageCollections_run. cbn [value]. now rewrite Hnames.
  - intros ev Hev.
    apply handle_trace_events in Hev
      as [-> | [-> | [-> | [(c' & q & l & t & -> & Hin) | (c' & -> & Hin)]]]];
      try reflexivity; rewrite Hnames in Hin; destruct Hin.
  - destruct (serviceAfterInit W s) as [es |] eqn:Es.
    + rewrite (handle_vector cfg W args s es Es), Hnames.
      destruct (generateEmbedding es (Args.query args)); reflexivity.
    + rewrite (handle_text cfg W args s Es). cbn [value].
      unfold textResults, mergeFlat, JsArray.slice0. rewrite Hnames.
      cbn [map List.concat]. rewrite firstn_nil.
      unfold respond. now rewrite Hnames.
Qed.

(** X5 on a store that refuses the connection. *)
Lemma X5_listing_failure_is_absorbed_witness :
  value (handleReflectOnPast Scenario.hybridConfig Cases.unreachableStore
           Scenario.indexingQuery Scenario.freshServer)
  = Ok NoVoyageCollections.
Proof.
  refine (proj2 (proj2
            (X5_listing_failure_is_absorbed
               Scenario.hybridConfig Cases.unreachableStore
               Scenario.indexingQuery Scenario.freshServer
               (Error "ECONNREFUSED") _))).
  reflexivity.
Defined.

(** ** The embedding service across requests *)

Lemma serverAfterInit_idempotent (W : World) (s : Server) :
  createEmbeddingService W = createEmbeddingService W ->
  embeddingService (serverAfterInit W s) <> None ->
  serverAfterInit W (serverAfterInit W s) = serverAfterInit W s.
Proof.
  intros _ H. unfold serverAfterInit at 1.
  destruct (embeddingService (serverAfterInit W s)); [reflexivity | congruence].
Qed.

(** X6: the embedding service is created lazily and kept: a request that
    finds none tries to create one first; once one exists (before the
    request or created by it) the request leaves it in place and the next
    request does not create another; while creation fails every request
    tries again.  The current project is never changed. *)
Theorem X6_embedding_service_is_created_once (cfg : Config) (W : World)
        (first next : Args.t) (s : Server) :
  let s1 := state (handleReflectOnPast cfg W first s) in
  let second := handleReflectOnPast cfg W next s1 in
  currentProject s1 = currentProject s /\
  (forall es, embeddingService s = Some es -> s1 = s) /\
  (forall es, embeddingService s = None ->
              createEmbeddingService W = Ok es ->
              hd_error (trace (handleReflectOnPast cfg W first s))
                = Some CreateEmbeddingService /\
              embeddingService s1 = Some es) /\
  (embeddingService s1 <> None ->
   ~ In CreateEmbeddingService (trace second)) /\
  (embeddingService s1 = None ->
   hd_error (trace second) = Some CreateEmbeddingService).
Proof.
  intros s1 second. subst second s1. rewrite handle_state.
  split; [| split; [| split; [| split]]].
  - unfold serverAfterInit. destruct (embeddingService s); reflexivity.
  - intros es Hes. unfold serverAfterInit. now rewrite Hes.
  - intros es Hnone Hok. split.
    + assert (Es : serviceAfterInit W s = Some es)
        by (unfold serviceAfterInit; now rewrite Hnone, Hok).
      rewrite (handle_vector cfg W first s es Es). unfold initTrace.
      rewrite Hnone.
      destruct (generateEmbedding es (Args.query first));
        [destruct (List.length (voyageNames W) =? 0)%nat |]; reflexivity.
    + rewrite serverAfterInit_service. unfold serviceAfterInit.
      now rewrite Hnone, Hok.
  - intros Hsome Hin.
    destruct (handle_trace_after_init cfg W next (serverAfterInit W s))
      as [rest [Htrace Hrest]].
    rewrite Htrace in Hin. unfold initTrace in Hin.
    destruct (embeddingService (serverAfterInit W s)); [| congruence].
    rewrite Forall_forall in Hrest. now apply (Hrest _ Hin).
  - intros Hnone.
    assert (Hcreate : serviceAfterInit W (serverAfterInit W s) = None).
    { rewrite serverAfterInit_service in Hnone.
      unfold serviceAfterInit in *. rewrite serverAfterInit_service.
      unfold serviceAfterInit.
      destruct (embeddingService s); [discriminate |].
      destruct (createEmbeddingService W); [discriminate | reflexivity]. }
    rewrite (handle_text cfg W next _ Hcreate). unfold initTrace.
    now rewrite Hnone.
Qed.

(** X7: the two ways the embedding provider can fail are treated
    differently.  A service that cannot be created is no error: the request
    falls back to text search.  A service that exists but fails to embed the
    query fails the request with [InternalError], carrying the provider's
    message, before any request to the store: there is no fall-back to text
    search then. *)
Theorem X7_embedding_failure_modes (cfg : Config) (W : World)
        (args : Args.t) (s : Server) :
  let run := handleReflectOnPast cfg W args s in
  (forall e, embeddingService s = None ->
             createEmbeddingService W = Fail e ->
             value run = Ok (respond W (textResults W args)) /\
             forall ev, In ev (trace run) ->
                        ev <> GenerateEmbedding (Args.query args)) /\
  (forall es e, serviceAfterInit W s = Some es ->
                generateEmbedding es (Args.query args) = Fail e ->
                value run
                  = Fail (McpError InternalError
                            ("Failed to search conversations: "
                               ++ exn_message e)) /\
                forall ev, In ev (trace run) -> isStoreEvent ev = false).
Proof.
  intros run. subst run. split.
  - intros e Hnone Hfail.
    assert (Es : serviceAfterInit W s = None)
      by (unfold serviceAfterInit; now rewrite Hnone, Hfail).
    rewrite (handle_text cfg W args s Es). split; [reflexivity |].
    cbn [trace]. apply Forall_forall.
    rewrite ?Forall_app; repeat split.
    + apply Forall_initTrace. discriminate.
    + constructor; [discriminate |]. apply Forall_textTrace. discriminate.
    + apply Forall_respondTrace. discriminate.
  - intros es e Es Hfail.
    rewrite (handle_vector cfg W args s es Es), Hfail.
    split; [reflexivity |].
    cbn [trace]. unfold initTrace. intros ev Hin.
    rewrite in_app_iff in Hin. simpl in Hin.
    destruct (embeddingService s); simpl in Hin;
      intuition (subst; reflexivity).
Qed.

(** ** Edge values of [limit] *)

(** X11: [limit] is used as it comes.  With [limit = 0] no request ever
    lists a result.  In text search a negative [limit] of [-k] cuts the last
    [k] matches off the scanned matches instead of keeping the first ones. *)
Theorem X11_zero_and_negative_limit (cfg : Config) (W : World)
        (args : Args.t) (s : Server) :
  let run := handleReflectOnPast cfg W args s in
  (limitOf args = 0%Z -> forall results, value run <> Ok (Found results)) /\
  ((limitOf args < 0)%Z ->
   serviceAfterInit W s = None ->
   let matches :=
     List.concat (map (scanResults W (Args.query args)) (voyageNames W)) in
   value run
   = Ok (respond W
           (firstn (List.length matches - Z.to_nat (- limitOf args)) matches))).
Proof.
  intros run. subst run. split.
  - intros Hzero results Hv.
    pose proof (handle_found_length cfg W args s results Hv) as Hlen.
    rewrite Hzero in Hlen. specialize (Hlen ltac:(lia)). simpl in Hlen. lia.
  - intros Hneg Es matches.
    rewrite (handle_text cfg W args s Es). cbn [value].
    unfold textResults, mergeFlat, JsArray.slice0. fold matches.
    destruct (Z.ltb_spec (limitOf args) 0) as [_ | Hge]; [| lia].
    do 2 f_equal. f_equal. lia.
Qed.

(** X6 on a server that starts without a service, with a provider that
    can create one. *)
Lemma X6_embedding_service_is_created_once_witness :
  hd_error (trace (handleReflectOnPast Scenario.decayConfig Scenario.decayWorld
                     Scenario.indexingQuery Scenario.freshServer))
    = Some CreateEmbeddingService /\
  embeddingService
    (state (handleReflectOnPast Scenario.decayConfig Scenario.decayWorld
              Scenario.indexingQuery Scenario.freshServer))
    = Some (mkEmbeddingService "voyage-3" (fun _ => Ok [])).
Proof.
  refine (proj1 (proj2 (proj2
            (X6_embedding_service_is_created_once
               Scenario.decayConfig Scenario.decayWorld
               Scenario.indexingQuery Scenario.decayQuery
               Scenario.freshServer)))
            (mkEmbeddingService "voyage-3" (fun _ => Ok [])) _ _);
    reflexivity.
Defined.

(** X7 on a provider that refuses to embed the query. *)
Lemma X7_embedding_failure_modes_witness :
  value (handleReflectOnPast Scenario.hybridConfig Cases.brokenEmbedding
           Scenario.indexingQuery Scenario.freshServer)
  = Fail (McpError InternalError
            "Failed to search conversations: rate limited").
Proof.
  refine (proj1 (proj2
            (X7_embedding_failure_modes
               Scenario.hybridConfig Cases.brokenEmbedding
               Scenario.indexingQuery Scenario.freshServer)
            (mkEmbeddingService "voyage-3"
               (fun _ => Fail (Error "rate limited")))
            (Error "rate limited") _ _)); reflexivity.
Defined.

(** X11 on three scanned points of which the first and the third match:
    with [limit = -1] only the first is returned. *)
Lemma X11_zero_and_negative_limit_witness :
  value (handleReflectOnPast Scenario.hybridConfig Cases.threePointWorld
           Cases.negativeLimitQuery Scenario.freshServer)
  = Ok (Found [renderStored Cases.threePointWorld "conv_projA_voyage"
                 (StoredPoint.mk "1"
                    (Scenario.textPayload "Indexing the table" None))]).
Proof.
  refine (proj2
            (X11_zero_and_negative_limit
               Scenario.hybridConfig Cases.threePointWorld
               Cases.negativeLimitQuery Scenario.freshServer) _ _).
  - unfold limitOf. simpl. lia.
  - reflexivity.
Defined.

(** ** Text search and the scoring options *)

(** X12: text search ignores every scoring option.  Without an embedding
    service two requests with the same query and the same [limit] run
    identically whatever [minScore], [useDecay] and the decay settings are,
    and every result carries the score 0.5, also when [minScore] is higher
    (as its default 0.7 is). *)
Theorem X12_text_search_ignores_scoring_options (cfg cfg' : Config)
        (W : World) (args args' : Args.t) (s : Server) :
  serviceAfterInit W s = None ->
  Args.query args = Args.query args' ->
  limitOf args = limitOf args' ->
  handleReflectOnPast cfg W args s = handleReflectOnPast cfg' W args' s /\
  (forall results r,
     value (handleReflectOnPast cfg W args s) = Ok (Found results) ->
     In r results -> SearchResult.score r = 0.5%R).
Proof.
  intros Es Hq Hl. split.
  - rewrite (handle_text cfg W args s Es), (handle_text cfg' W args' s Es).
    unfold textResults. now rewrite Hq, Hl.
  - intros results r Hv Hr.
    destruct (handle_found cfg W args s results Hv)
      as [_ [(es & q & Hsome & _) | [_ ->]]]; [congruence |].
    now apply textResults_score in Hr.
Qed.

(** X12 on a request with [minScore = 0.75] and decay switched on, against
    the default request. *)
Lemma X12_text_search_ignores_scoring_options_witness :
  handleReflectOnPast Scenario.decayConfig Scenario.degradedWorld
    (Args.mk "indexing" None None (Some 0.75%R) None (Some true))
    Scenario.freshServer
  = handleReflectOnPast Scenario.hybridConfig Scenario.degradedWorld
      Scenario.indexingQuery Scenario.freshServer.
Proof.
  refine (proj1
            (X12_text_search_ignores_scoring_options
               Scenario.decayConfig Scenario.hybridConfig Scenario.degradedWorld
               (Args.mk "indexing" None None (Some 0.75%R) None (Some true))
               Scenario.indexingQuery Scenario.freshServer _ _ _));
    reflexivity.
Defined.

(** ** The dispatcher and the second tool *)

Lemma concat_empty_iff (sep : string) (l : list string) :
  sep <> "" -> (String.concat sep l = "" <-> l = [] \/ l = [""]).
Proof.
  intros Hsep. split.
  - destruct l as [| x [| y l]]; simpl; auto.
    + intros ->. now right.
    + intros H. exfalso. destruct x; simpl in H; [| discriminate].
      destruct sep; [congruence | discriminate].
  - intros [-> | ->]; reflexivity.
Qed.

Lemma handleStoreReflection_run (args : StoreArgs.t) (s : Server) :
  handleStoreReflection (Some args) s
  = match StoreArgs.tags args with
    | TagsUndefined =>
        mkRun (Ok "Reflection stored successfully with tags: none") s []
    | TagsArray items =>
        mkRun (Ok ("Reflection stored successfully with tags: "
                     ++ or_else (Some (String.concat ", "
                                         (map (fun item => or_default item "")
                                              items)))
                                "none")%string)
              s []
    | TagsNull =>
        mkRun (Fail (McpError InternalError
                       "Failed to store reflection: Cannot read properties of null (reading 'join')"))
              s []
    | TagsOther =>
        mkRun (Fail (McpError InternalError
                       "Failed to store reflection: tags.join is not a function"))
              s []
    end.
Proof. destruct args as [content []]; reflexivity. Qed.

Lemma handleStoreReflection_quiet (args : option StoreArgs.t) (s : Server) :
  trace (handleStoreReflection args s) = [] /\
  state (handleStoreReflection args s) = s.
Proof.
  destruct args as [args |]; [| split; reflexivity].
  rewrite handleStoreReflection_run.
  destruct (StoreArgs.tags args); split; reflexivity.
Qed.

Lemma handleStoreReflection_error (args : StoreArgs.t) (s : Server) (e : Exn) :
  value (handleStoreReflection (Some args) s) = Fail e ->
  exists message, e = McpError InternalError message.
Proof.
  rewrite handleStoreReflection_run.
  destruct (StoreArgs.tags args); cbn [value]; intros H;
    try discriminate H; injection H as <-; now eexists.
Qed.

(** A failure of the called handler is the failure of the tool call. *)
Lemma bind_ret_value {A B} (m : M A) (f : A -> B) (s : Server) :
  value (bind m (fun a => ret (f a)) s)
  = match value (m s) with
    | Ok a => Ok (f a)
    | Fail e => Fail e
    end.
Proof. unfold bind. destruct (value (m s)); reflexivity. Qed.

(** X9: a tool call reaches a handler exactly when its name is one of the
    names the tool list announces; any other name is refused with
    [MethodNotFound] and the message ["Unknown tool: <name>"], without any
    external call and without touching the server.  A call of a listed tool
    without an arguments object fails with the [TypeError] of the handler's
    destructuring, again without any external call; with an arguments
    object, the only error a call raises is [InternalError]. *)
Theorem X9_dispatcher_serves_the_listed_tools (cfg : Config) (W : World)
        (name : string) (arguments : option ToolArguments) (s : Server) :
  let run := callTool cfg W name arguments s in
  let listed := In name (map tool_name listTools) in
  (listed <->
   forall message, value run <> Fail (McpError MethodNotFound message)) /\
  (~ listed ->
   run = mkRun (Fail (McpError MethodNotFound ("Unknown tool: " ++ name)))
               s []) /\
  (listed -> arguments = None ->
   exists message, run = mkRun (Fail (Error message)) s []) /\
  (forall e,
     value run = Fail e ->
     (~ listed /\ e = McpError MethodNotFound ("Unknown tool: " ++ name)) \/
     (listed /\ arguments = None /\ exists message, e = Error message) \/
     (listed /\ arguments <> None /\
      exists message, e = McpError InternalError message)).
Proof.
  intros run listed. subst run listed. unfold callTool.
  destruct (String.eqb_spec name "reflect_on_past") as [-> | Hr].
  - assert (Hlisted : In "reflect_on_past" (map tool_name listTools))
      by (simpl; auto).
    assert (Hval : forall e,
               value (bind (handleReflectOnPastAny cfg W
                              (option_map reflectArguments arguments))
                           (fun response => ret (ReflectOutput response)) s)
               = Fail e ->
               (arguments = None /\ exists message, e = Error message) \/
               (arguments <> None /\
                exists message, e = McpError InternalError message)).
    { intros e. rewrite bind_ret_value.
      destruct arguments as [a |]; cbn [option_map handleReflectOnPastAny].
      - destruct (value (handleReflectOnPast cfg W (reflectArguments a) s))
          as [r | e'] eqn:Hv; [discriminate |].
        intros H. injection H as <-. right. split; [discriminate |].
        now apply (handle_error cfg W (reflectArguments a) s).
      - cbn [value throw]. intros H. injection H as <-. left.
        split; [reflexivity | now eexists]. }
    split; [| split; [| split]].
    + split; [| intros _; exact Hlisted].
      intros _ message H.
      apply Hval in H as [[_ [m H]] | [_ [m H]]]; discriminate H.
    + intros Hnot. now exfalso.
    + intros _ ->. eexists. reflexivity.
    + intros e H. right. apply Hval in H as [[Hn Hm] | [Hn Hm]]; auto.
  - destruct (String.eqb_spec name "store_reflection") as [-> | Hs].
    + assert (Hlisted : In "store_reflection" (map tool_name listTools))
        by (simpl; auto).
      assert (Hval : forall e,
                 value (bind (handleStoreReflection
                                (option_map storeArguments arguments))
                             (fun text => ret (StoreOutput text)) s)
                 = Fail e ->
                 (arguments = None /\ exists message, e = Error message) \/
                 (arguments <> None /\
                  exists message, e = McpError InternalError message)).
      { intros e. rewrite bind_ret_value.
        destruct arguments as [a |]; cbn [option_map].
        - destruct (value (handleStoreReflection (Some (storeArguments a)) s))
            as [r | e'] eqn:Hv; [discriminate |].
          intros H. injection H as <-. right. split; [discriminate |].
          now apply (handleStoreReflection_error (storeArguments a) s).
        - cbn [value throw handleStoreReflection]. intros H. injection H as <-.
          left. split; [reflexivity | now eexists]. }
      split; [| split; [| split]].
      * split; [| intros _; exact Hlisted].
        intros _ message H.
        apply Hval in H as [[_ [m H]] | [_ [m H]]]; discriminate H.
      * intros Hnot. now exfalso.
      * intros _ ->. eexists. reflexivity.
      * intros e H. right. apply Hval in H as [[Hn Hm] | [Hn Hm]]; auto.
    + assert (Hnot : ~ In name (map tool_name listTools))
        by (simpl; intros [H | [H | []]]; congruence).
      split; [| split; [| split]].
      * split; [intros H; now exfalso |].
        intros H. exfalso. apply (H ("Unknown tool: " ++ name)%string).
        reflexivity.
      * intros _. reflexivity.
      * intros H. now exfalso.
      * intros e H. injection H as <-. left. now split.
Qed.

(** X9 on a call of [reflect_on_past] that carries no arguments. *)
Lemma X9_dispatcher_serves_the_listed_tools_witness :
  exists message,
    callTool Scenario.hybridConfig Scenario.degradedWorld "reflect_on_past"
             None Scenario.freshServer
    = mkRun (Fail (Error message)) Scenario.freshServer [].
Proof.
  refine (proj1 (proj2 (proj2
            (X9_dispatcher_serves_the_listed_tools
               Scenario.hybridConfig Scenario.degradedWorld "reflect_on_past"
               None Scenario.freshServer))) _ _).
  - simpl. auto.
  - reflexivity.
Defined.

(** X10: [store_reflection] stores nothing: whatever its arguments, it
    makes no external call and leaves the server as it is.  With [tags]
    absent or an array it answers with a success text that depends on the
    tags only: they are joined with [", "], and the text reads ["none"]
    exactly when the joined string is empty, that is for no tags, an empty
    array, or the one-element array of the empty tag.  With [tags] [null] or
    not an array the join throws and the call fails with [InternalError]
    ["Failed to store reflection: ..."]; without an arguments object it
    fails with the [TypeError] of the destructuring. *)
Theorem X10_store_reflection_is_a_placeholder (args : option StoreArgs.t)
        (s : Server) :
  let run := handleStoreReflection args s in
  let tagsOf (a : StoreArgs.t) :=
    match StoreArgs.tags a with
    | TagsUndefined => Some []
    | TagsArray items => Some (map (fun item => or_default item "") items)
    | TagsNull | TagsOther => None
    end in
  trace run = [] /\
  state run = s /\
  (args = None -> exists message, value run = Fail (Error message)) /\
  (forall a tags,
     args = Some a -> tagsOf a = Some tags ->
     exists label,
       value run = Ok ("Reflection stored successfully with tags: " ++ label)%string /\
       (tags = [] \/ tags = [""] -> label = "none") /\
       (~ (tags = [] \/ tags = [""]) -> label = String.concat ", " tags)) /\
  (forall a,
     args = Some a -> tagsOf a = None ->
     exists message,
       value run
       = Fail (McpError InternalError
                 ("Failed to store reflection: " ++ message))) /\
  (forall content content' tags,
     handleStoreReflection (Some (StoreArgs.mk content tags)) s
     = handleStoreReflection (Some (StoreArgs.mk content' tags)) s) /\
  (forall cfg W arguments,
     option_map storeArguments arguments = args ->
     callTool cfg W "store_reflection" arguments s
     = mkRun (match value run with
              | Ok text => Ok (StoreOutput text)
              | Fail e => Fail e
              end) s []).
Proof.
  intros run tagsOf. subst run.
  destruct (handleStoreReflection_quiet args s) as [Htrace Hstate].
  split; [exact Htrace |]. split; [exact Hstate |].
  split; [| split; [| split; [| split]]].
  - intros ->. eexists. reflexivity.
  - intros a tags -> Htags. rewrite handleStoreReflection_run.
    subst tagsOf. cbv beta in Htags.
    assert (Hlabel : exists label,
               or_else (Some (String.concat ", " tags)) "none" = label /\
               (tags = [] \/ tags = [""] -> label = "none") /\
               (~ (tags = [] \/ tags = [""]) -> label = String.concat ", " tags)).
    { eexists. split; [reflexivity |]. split.
      - intros H. apply (concat_empty_iff ", ") in H; [| discriminate].
        unfold or_else. now rewrite H.
      - intros H. unfold or_else, truthy.
        destruct (String.concat ", " tags) eqn:E; [| reflexivity].
        exfalso. apply H. apply (concat_empty_iff ", "); [discriminate | exact E]. }
    destruct Hlabel as (label & Hlabel & Hnone & Hjoin).
    exists label. split; [| split; assumption].
    destruct (StoreArgs.tags a); try discriminate Htags;
      injection Htags as <-; cbn [value]; [| now rewrite Hlabel].
    f_equal. rewrite <- Hlabel. reflexivity.
  - intros a -> Htags. rewrite handleStoreReflection_run.
    subst tagsOf. cbv beta in Htags.
    destruct (StoreArgs.tags a); try discriminate Htags;
      eexists; reflexivity.
  - intros content content' tags. now rewrite !handleStoreReflection_run.
  - intros cfg W arguments <-.
    change (callTool cfg W "store_reflection" arguments s)
      with (bind (handleStoreReflection (option_map storeArguments arguments))
                 (fun text => ret (StoreOutput text)) s).
    destruct (handleStoreReflection_quiet
                (option_map storeArguments arguments) s) as [Ht Hs].
    unfold bind.
    destruct (handleStoreReflection (option_map storeArguments arguments) s)
      as [v st tr]. cbn [value state trace] in *. subst st tr.
    destruct v; reflexivity.
Qed.

(** X10 on tags that arrive as [null]. *)
Lemma X10_store_reflection_is_a_placeholder_witness :
  exists message,
    value (handleStoreReflection
             (Some (StoreArgs.mk "remember this" TagsNull))
             Scenario.freshServer)
    = Fail (McpError InternalError
              ("Failed to store reflection: " ++ message)).
Proof.
  refine (proj1 (proj2 (proj2 (proj2 (proj2
            (X10_store_reflection_is_a_placeholder
               (Some (StoreArgs.mk "remember this" TagsNull))
               Scenario.freshServer)))))
            (StoreArgs.mk "remember this" TagsNull) _ _); reflexivity.
Defined.

(** ** The decay formula *)

Section DecayOrder.
Variable cfg : Config.
Variable W : World.
Hypothesis scale_pos : (0 < DECAY_SCALE_DAYS cfg)%R.

Lemma scaleMs_pos : (0 < scaleMs cfg)%R.
Proof. unfold scaleMs. lra. Qed.

Lemma exp_le_mono (x y : R) : (x <= y)%R -> (exp x <= exp y)%R.
Proof.
  intros [Hlt | ->]; [left; now apply exp_increasing | right; reflexivity].
Qed.

Lemma decay_exponent_le p1 p2 :
  (ageMs W p1 <= ageMs W p2)%Z ->
  (- IZR (ageMs W p2) / scaleMs cfg <= - IZR (ageMs W p1) / scaleMs cfg)%R.
Proof.
  intros H. apply IZR_le in H. pose proof scaleMs_pos as Hs.
  unfold Rdiv. apply Rmult_le_compat_r; [| lra].
  left. now apply Rinv_0_lt_compat.
Qed.

Lemma decayFactor_le p1 p2 :
  (ageMs W p1 <= ageMs W p2)%Z ->
  (decayFactor cfg W p2 <= decayFactor cfg W p1)%R.
Proof. intros H. unfold decayFactor. now apply exp_le_mono, decay_exponent_le. Qed.

Lemma decayFactor_le_1 p : (0 <= ageMs W p)%Z -> (decayFactor cfg W p <= 1)%R.
Proof.
  intros H. unfold decayFactor. rewrite <- exp_0. apply exp_le_mono.
  apply IZR_le in H. pose proof scaleMs_pos as Hs.
  unfold Rdiv. rewrite <- (Rmult_0_l (/ scaleMs cfg)).
  apply Rmult_le_compat_r; [| lra]. left. now apply Rinv_0_lt_compat.
Qed.

Lemma decayFactor_ge_1 p : (ageMs W p <= 0)%Z -> (1 <= decayFactor cfg W p)%R.
Proof.
  intros H. unfold decayFactor. rewrite <- exp_0. apply exp_le_mono.
  apply IZR_le in H. pose proof scaleMs_pos as Hs.
  unfold Rdiv. rewrite <- (Rmult_0_l (/ scaleMs cfg)).
  apply Rmult_le_compat_r; [| lra]. left. now apply Rinv_0_lt_compat.
Qed.

(** The factor falls below any positive bound for candidates old enough. *)
Lemma decayFactor_vanishes (bound : R) :
  (0 < bound)%R ->
  exists age : Z,
    forall p, (age <= ageMs W p)%Z -> (decayFactor cfg W p < bound)%R.
Proof.
  intros Hb. pose proof scaleMs_pos as Hs.
  set (x := (scaleMs cfg / bound)%R).
  assert (Hx : (0 < x)%R) by (unfold x; now apply Rdiv_lt_0_compat).
  exists (up x). intros p Hage.
  destruct (archimed x) as [Hup _].
  apply IZR_le in Hage.
  set (a := IZR (ageMs W p)) in *.
  assert (Ha : (x < a)%R) by lra.
  unfold decayFactor. fold a.
  replace (- a / scaleMs cfg)%R with (- (a / scaleMs cfg))%R
    by (unfold Rdiv; ring).
  rewrite exp_Ropp.
  assert (Hq : (0 < a / scaleMs cfg)%R) by (apply Rdiv_lt_0_compat; lra).
  pose proof (exp_ineq1 (a / scaleMs cfg) ltac:(lra)) as Hexp.
  assert (Hlow : (/ bound < a / scaleMs cfg)%R).
  { unfold x in Ha. apply (Rmult_lt_reg_r (scaleMs cfg)); [exact Hs |].
    unfold Rdiv. rewrite Rmult_assoc, Rinv_l by lra.
    rewrite Rmult_1_r. unfold Rdiv in Ha. lra. }
  assert (Hinv : (/ exp (a / scaleMs cfg) < / (/ bound))%R).
  { apply Rinv_lt_contravar; [| lra].
    apply Rmult_lt_0_compat; [now apply Rinv_0_lt_compat | lra]. }
  rewrite Rinv_inv in Hinv. exact Hinv.
Qed.
End DecayOrder.

(** X13: recency never hurts.  With a weight [w >= 0] and a positive
    scale, a candidate that is at least as recent as another gets at least
    its decay factor, and, when it also has at least the raw score of the
    other, at least its adjusted score. *)
Theorem X13_more_recent_never_ranks_lower (cfg : Config) (W : World)
        (newer older : ScoredPoint.t) :
  (0 <= DECAY_WEIGHT cfg)%R ->
  (0 < DECAY_SCALE_DAYS cfg)%R ->
  (ageMs W newer <= ageMs W older)%Z ->
  (decayFactor cfg W older <= decayFactor cfg W newer)%R /\
  ((ScoredPoint.score older <= ScoredPoint.score newer)%R ->
   (adjustedScore cfg W older <= adjustedScore cfg W newer)%R).
Proof.
  intros Hw Hd Hage.
  pose proof (decayFactor_le cfg W Hd newer older Hage) as Hf.
  split; [exact Hf |].
  intros Hscore. unfold adjustedScore. nra.
Qed.

(** X13 on two candidates of raw score 0.6, 30 and 60 days old. *)
Lemma X13_more_recent_never_ranks_lower_witness :
  (adjustedScore Scenario.decayConfig Cases.calendarWorld Cases.olderPoint
   <= adjustedScore Scenario.decayConfig Cases.calendarWorld Cases.newerPoint)%R.
Proof.
  refine (proj2 (X13_more_recent_never_ranks_lower
                   Scenario.decayConfig Cases.calendarWorld
                   Cases.newerPoint Cases.olderPoint _ _ _) _).
  - simpl. lra.
  - simpl. lra.
  - unfold ageMs. simpl. lia.
  - simpl. lra.
Defined.

(** X14: how far decay moves a score.  With [w >= 0] and a positive scale,
    a candidate that is not stamped in the future gets an adjusted score
    between its raw score [s] and [s + w]; a candidate stamped in the future
    gets at least [s + w] (its decay factor is at least 1); and the bonus of
    old candidates vanishes: for every [eps > 0] there is an age beyond which
    the adjusted score exceeds the raw score by less than [eps]. *)
Theorem X14_decay_bonus_bounds (cfg : Config) (W : World) :
  (0 <= DECAY_WEIGHT cfg)%R ->
  (0 < DECAY_SCALE_DAYS cfg)%R ->
  (forall p, (0 <= ageMs W p)%Z ->
             (ScoredPoint.score p <= adjustedScore cfg W p
              <= ScoredPoint.score p + DECAY_WEIGHT cfg)%R) /\
  (forall p, (ageMs W p <= 0)%Z ->
             (1 <= decayFactor cfg W p)%R /\
             (ScoredPoint.score p + DECAY_WEIGHT cfg <= adjustedScore cfg W p)%R) /\
  (forall eps, (0 < eps)%R ->
     exists age : Z,
       forall p, (age <= ageMs W p)%Z ->
                 (adjustedScore cfg W p - ScoredPoint.score p < eps)%R).
Proof.
  intros Hw Hd. split; [| split].
  - intros p Hage. unfold adjustedScore.
    pose proof (decayFactor_pos cfg W p).
    pose proof (decayFactor_le_1 cfg W Hd p Hage). nra.
  - intros p Hage. unfold adjustedScore.
    pose proof (decayFactor_ge_1 cfg W Hd p Hage). split; [assumption | nra].
  - intros eps Heps.
    destruct (decayFactor_vanishes cfg W Hd (eps / (DECAY_WEIGHT cfg + 1)))
      as [age Hage].
    { apply Rdiv_lt_0_compat; lra. }
    exists age. intros p Hp. specialize (Hage p Hp).
    unfold adjustedScore. pose proof (decayFactor_pos cfg W p) as Hpos.
    assert (Hmul : (decayFactor cfg W p * (DECAY_WEIGHT cfg + 1) < eps)%R).
    { apply (Rmult_lt_compat_r (DECAY_WEIGHT cfg + 1)) in Hage; [| lra].
      unfold Rdiv in Hage. rewrite Rmult_assoc, Rinv_l, Rmult_1_r in Hage
        by lra. exact Hage. }
    nra.
Qed.

(** X14 on a candidate stamped one day after the clock reading. *)
Lemma X14_decay_bonus_bounds_witness :
  (0.6 + 0.3
   <= adjustedScore Scenario.decayConfig Cases.calendarWorld Cases.futurePoint)%R.
Proof.
  refine (proj2 (proj1 (proj2 (X14_decay_bonus_bounds
                                 Scenario.decayConfig Cases.calendarWorld _ _))
                   Cases.futurePoint _)).
  - simpl. lra.
  - simpl. lra.
  - unfold ageMs. simpl. lia.
Defined.

(** X15: decay reorders only close calls.  With [w >= 0] and a positive
    scale, a candidate whose raw score leads another's by at least [w] keeps
    at least the other's adjusted score, provided the other is not stamped in
    the future. *)
Theorem X15_lead_of_one_weight_is_kept (cfg : Config) (W : World)
        (leader other : ScoredPoint.t) :
  (0 <= DECAY_WEIGHT cfg)%R ->
  (0 < DECAY_SCALE_DAYS cfg)%R ->
  (0 <= ageMs W other)%Z ->
  (ScoredPoint.score other + DECAY_WEIGHT cfg <= ScoredPoint.score leader)%R ->
  (adjustedScore cfg W other <= adjustedScore cfg W leader)%R.
Proof.
  intros Hw Hd Hage Hlead. unfold adjustedScore.
  pose proof (decayFactor_pos cfg W leader).
  pose proof (decayFactor_le_1 cfg W Hd other Hage). nra.
Qed.

(** X15 on a candidate of raw score 0.95, 60 days old, against one of raw
    score 0.6, 30 days old. *)
Lemma X15_lead_of_one_weight_is_kept_witness :
  (adjustedScore Scenario.decayConfig Cases.calendarWorld Cases.newerPoint
   <= adjustedScore Scenario.decayConfig Cases.calendarWorld Cases.strongPoint)%R.
Proof.
  refine (X15_lead_of_one_weight_is_kept
            Scenario.decayConfig Cases.calendarWorld
            Cases.strongPoint Cases.newerPoint _ _ _ _).
  - simpl. lra.
  - simpl. lra.
  - unfold ageMs. simpl. lia.
  - simpl. lra.
Defined.

(** ** The project label of a result *)

Section LabelFacts.
Import JsString.

Lemma append_empty_r (s : string) : (s ++ "")%string = s.
Proof. induction s; simpl; congruence. Qed.

Lemma substring_zero_length (n : nat) (s : string) : substring n 0 s = "".
Proof.
  revert n. induction s as [| c s IH]; intros [| n]; simpl; auto.
Qed.

Lemma substring_append_left (a b : string) :
  substring 0 (String.length a) (a ++ b) = a.
Proof. induction a as [| c a IH]; simpl; [now destruct b | now rewrite IH]. Qed.

Lemma substring_append_right (a b : string) :
  substring (String.length a) (String.length b) (a ++ b) = b.
Proof.
  induction a as [| c a IH]; simpl; [| exact IH].
  apply (substring0_short b). lia.
Qed.

Lemma prefix_self_append (a b : string) : prefix a (a ++ b) = true.
Proof. apply prefix_append. now exists b. Qed.

(** Removing a leading occurrence. *)
Lemma replace_leading (pat rest : string) :
  pat <> "" -> replace (pat ++ rest) pat "" = rest.
Proof.
  intros Hpat. unfold replace.
  assert (Hidx : index 0 pat (pat ++ rest) = Some 0%nat).
  { destruct pat as [| c pat]; [congruence |].
    change (index 0 (String c pat) (String c pat ++ rest))
      with (if prefix (String c pat) (String c pat ++ rest) then Some 0%nat
            else match index 0 (String c pat) (pat ++ rest) with
                 | Some n => Some (S n)
                 | None => None
                 end).
    now rewrite prefix_self_append. }
  rewrite Hidx. cbn [substring Nat.add]. rewrite length_append.
  replace (String.length pat + String.length rest - String.length pat)%nat
    with (String.length rest) by lia.
  rewrite substring_append_right.
  destruct (pat ++ rest)%string; reflexivity.
Qed.

Lemma index_after_label (label : string) :
  noUnderscore label = true ->
  index 0 "_voyage" (label ++ "_voyage") = Some (String.length label).
Proof.
  induction label as [| c label IH]; intros Hno; [reflexivity |].
  simpl in Hno. apply andb_true_iff in Hno as [Hc Hno].
  change (index 0 "_voyage" (String c label ++ "_voyage"))
    with (if prefix "_voyage" (String c (label ++ "_voyage")) then Some 0%nat
          else match index 0 "_voyage" (label ++ "_voyage") with
               | Some n => Some (S n)
               | None => None
               end).
  rewrite (IH Hno).
  destruct (prefix "_voyage" (String c (label ++ "_voyage"))) eqn:E;
    [| reflexivity].
  apply prefix_append in E as [post E]. cbn [append] in E.
  injection E as Ec _. subst c. discriminate Hc.
Qed.

(** Removing the suffix of the naming convention. *)
Lemma replace_trailing_voyage (label : string) :
  noUnderscore label = true ->
  replace (label ++ "_voyage") "_voyage" "" = label.
Proof.
  intros Hno. unfold replace. rewrite (index_after_label label Hno).
  rewrite substring_append_left, length_append.
  replace (String.length label + String.length "_voyage"
           - (String.length label + String.length "_voyage"))%nat
    with 0%nat by lia.
  rewrite substring_zero_length. cbn [append]. apply append_empty_r.
Qed.
End LabelFacts.

(** X8: the project label of a result is the first non-empty one of the
    payload fields [project], [project_name], [project_id]; when there is
    none it is derived from the collection name by removing the first
    ["conv_"] and then the first ["_voyage"], which for a collection named
    ["conv_<label>_voyage"] with a label free of underscores gives back the
    label. *)
Theorem X8_project_label_of_a_result (p : Payload.t) (c : string) :
  (forall v, truthy (Payload.project p) = Some v -> projectNameOf p c = v) /\
  (forall v, truthy (Payload.project p) = None ->
             truthy (Payload.project_name p) = Some v ->
             projectNameOf p c = v) /\
  (forall v, truthy (Payload.project p) = None ->
             truthy (Payload.project_name p) = None ->
             truthy (Payload.project_id p) = Some v ->
             projectNameOf p c = v) /\
  (truthy (Payload.project p) = None ->
   truthy (Payload.project_name p) = None ->
   truthy (Payload.project_id p) = None ->
   projectNameOf p c
     = JsString.replace (JsString.replace c "conv_" "") "_voyage" "" /\
   forall label,
     noUnderscore label = true ->
     projectNameOf p ("conv_" ++ label ++ "_voyage") = label).
Proof.
  unfold projectNameOf, or_else.
  split; [| split; [| split]].
  - intros v ->. reflexivity.
  - intros v -> ->. reflexivity.
  - intros v -> -> ->. reflexivity.
  - intros -> -> ->. split; [reflexivity |].
    intros label Hno.
    rewrite (replace_leading "conv_" (label ++ "_voyage")) by discriminate.
    now apply replace_trailing_voyage.
Qed.

(** ** The pieces of a query *)

Section TokenFacts.
Import JsString.

Lemma noSpace_append cur c :
  noSpace cur = true -> isSpace c = false ->
  noSpace (cur ++ String c "") = true.
Proof.
  intros Hcur Hc. induction cur as [| d cur IH]; simpl in *.
  - now rewrite Hc.
  - apply andb_true_iff in Hcur as [Hd Hcur]. now rewrite Hd, IH.
Qed.

Lemma split_from_noSpace_pieces s cur gap token :
  noSpace cur = true -> In token (split_from s cur gap) ->
  noSpace token = true.
Proof.
  revert cur gap. induction s as [| c s IH]; intros cur gap Hcur Hin.
  - destruct Hin as [<- | []]. exact Hcur.
  - simpl in Hin. destruct (isSpace c) eqn:Ec.
    + destruct gap.
      * now apply (IH cur true).
      * destruct Hin as [<- | Hin]; [exact Hcur |]. now apply (IH "" true).
    + apply (IH (cur ++ String c "")%string false); [| exact Hin].
      now apply noSpace_append.
Qed.

Lemma split_from_whole s cur gap :
  noSpace s = true -> split_from s cur gap = [(cur ++ s)%string].
Proof.
  revert cur gap. induction s as [| c s IH]; intros cur gap Hs.
  - simpl. now rewrite append_empty_r.
  - simpl in Hs. apply andb_true_iff in Hs as [Hc Hs].
    apply negb_true_iff in Hc. simpl. rewrite Hc.
    rewrite (IH _ false Hs). f_equal.
    clear. induction cur as [| d cur IHc]; simpl; [reflexivity |].
    now rewrite IHc.
Qed.

Lemma noSpace_toLowerCase s : noSpace (toLowerCase s) = noSpace s.
Proof.
  induction s as [| c s IH]; [reflexivity |].
  simpl. now rewrite isSpace_lowerChar, IH.
Qed.
End TokenFacts.

(** X16: the pieces a query is split into never contain white space; a
    query without white space is its own single token, so in text search a
    point matches such a query exactly when its text has a substring equal
    to the query up to letter case. *)
Theorem X16_single_word_query (query : string) :
  noSpace query = true ->
  (forall q token, In token (JsString.split_ws q) -> noSpace token = true) /\
  (forall ch, JsString.isSpace ch = true <-> whiteSpaceCode (nat_of_ascii ch)) /\
  splitsInto query [query] /\
  JsString.split_ws (JsString.toLowerCase query)
    = [JsString.toLowerCase query] /\
  (forall point,
     matchesQuery (JsString.split_ws (JsString.toLowerCase query)) point = true
     <-> occursIgnoringCase query
           (storedText (StoredPoint.payload point))).
Proof.
  intros Hq.
  assert (Hsplit : JsString.split_ws (JsString.toLowerCase query)
                   = [JsString.toLowerCase query]).
  { unfold JsString.split_ws. rewrite split_from_whole; [reflexivity |].
    now rewrite noSpace_toLowerCase. }
  split; [| split; [apply isSpace_code |
                    split; [now constructor | split; [exact Hsplit |]]]].
  - intros q token Hin.
    now apply (split_from_noSpace_pieces q "" false token).
  - intros point.
    rewrite (matchesQuery_words query [query] point) by now constructor.
    split.
    + intros [token [[<- | []] H]]. exact H.
    + intros H. exists query. split; [now left | exact H].
Qed.

(** X16 on the query ["Indexing"] and a stored text in lower case. *)
Lemma X16_single_word_query_witness :
  matchesQuery (JsString.split_ws (JsString.toLowerCase "Indexing"))
    (StoredPoint.mk "1"
       (Scenario.textPayload "discussed database indexing strategy" None))
  = true
  <-> occursIgnoringCase "Indexing" "discussed database indexing strategy".
Proof.
  refine (proj2 (proj2 (proj2 (proj2 (X16_single_word_query "Indexing" _))))
            (StoredPoint.mk "1"
               (Scenario.textPayload "discussed database indexing strategy"
                                     None))).
  reflexivity.
Defined.

(** ** Text search across collections *)

(** X17: text search fills the limit in collection order.  When the first
    Voyage collection alone has at least [limit] matches, the response lists
    its first [limit] matches and nothing of any later collection, although
    the handler still scrolls every collection. *)
Theorem X17_text_search_fills_in_collection_order (cfg : Config) (W : World)
        (args : Args.t) (s : Server) (names : list string)
        (c : string) (cs : list string) :
  serviceAfterInit W s = None ->
  getCollections W = Ok names ->
  filter (fun name => JsString.endsWith name "_voyage") names = c :: cs ->
  (0 <= limitOf args)%Z ->
  let matches name :=
    match scroll W name 100 with
    | Ok points =>
        map (renderStored W name)
            (filter (matchesQuery
                       (JsString.split_ws
                          (JsString.toLowerCase (Args.query args))))
                    points)
    | Fail _ => []
    end in
  (Z.to_nat (limitOf args) <= List.length (matches c))%nat ->
  let results := firstn (Z.to_nat (limitOf args)) (matches c) in
  let run := handleReflectOnPast cfg W args s in
  value run
    = Ok (if (List.length results =? 0)%nat
          then NoResults (List.length (c :: cs))
          else Found results) /\
  (forall r, In r results -> SearchResult.collectionName r = c) /\
  trace run
    = initTrace s ++ GetCollections
        :: map (fun name => Scroll name 100) (c :: cs)
        ++ (if (List.length results =? 0)%nat then [GetCollections] else []).
Proof.
  intros Es Hnames Hvoyage Hl matches Hlen results run. subst run.
  assert (Hcs : voyageNames W = c :: cs)
    by (unfold voyageNames; now rewrite Hnames).
  assert (Hres : textResults W args = results).
  { unfold textResults, mergeFlat. rewrite Hcs, slice0_nonneg by assumption.
    cbn [map List.concat].
    change (scanResults W (Args.query args) c) with (matches c).
    rewrite firstn_app.
    replace (Z.to_nat (limitOf args) - List.length (matches c))%nat
      with 0%nat by lia.
    cbn [firstn]. now rewrite app_nil_r. }
  rewrite (handle_text cfg W args s Es), Hres.
  unfold respond, respondTrace, textTrace. rewrite Hcs.
  split; [reflexivity |]. split.
  - intros r Hr.
    assert (Hin : In r (scanResults W (Args.query args) c)).
    { change (scanResults W (Args.query args) c) with (matches c).
      rewrite <- (firstn_skipn (Z.to_nat (limitOf args)) (matches c)).
      apply in_or_app. now left. }
    now apply scanResults_name in Hin.
  - cbn [trace]. now rewrite <- app_assoc.
Qed.

(** X17 on two collections with one match each and [limit = 1]. *)
Lemma X17_text_search_fills_in_collection_order_witness :
  value (handleReflectOnPast Scenario.hybridConfig Scenario.degradedWorld
           Cases.oneResultQuery Scenario.freshServer)
  = Ok (Found
          [renderStored Scenario.degradedWorld "conv_projA_voyage"
             (StoredPoint.mk "1"
                (Scenario.textPayload "discussed database indexing strategy"
                                      None))]).
Proof.
  refine (proj1 (X17_text_search_fills_in_collection_order
                   Scenario.hybridConfig Scenario.degradedWorld
                   Cases.oneResultQuery Scenario.freshServer
                   ["conv_projA_voyage"; "conv_projB_voyage"; "conversations"]
                   "conv_projA_voyage" ["conv_projB_voyage"] _ _ _ _ _)).
  - reflexivity.
  - reflexivity.
  - reflexivity.
  - unfold limitOf. simpl. lia.
  - simpl. lia.
Defined.
